(** * Oscar message relay: drop boxes, socket sessions and byte utilities

    A shallow embedding of the relay core of the oscar server
    (drop_boxes.go, the socket server, utils.go) and the properties the
    specification states about it.

    Conventions.  A Go [[]byte] is a [list byte]; a Go [string] is a
    [string]; a [map[string]T] is a [gmap string T]; an [int64] is a [Z]
    in the range [-2^63, 2^63).  A function that can panic returns an
    [option].  Goroutines are threads of an explicit transition system
    whose events name the goroutine that moves. *)

From Stdlib Require Import ZArith NArith Lia.
From Stdlib Require Import Strings.Byte Strings.Ascii Strings.String.
From stdpp Require Import gmap strings list fin_maps.

#[local] Open Scope Z_scope.

(** ** Bytes *)

Abbreviation bytes := (list byte).

#[global] Instance byte_eq_dec : EqDecision byte := Byte.byte_eq_dec.

#[global] Instance byte_countable : Countable byte :=
  inj_countable Byte.to_N Byte.of_N Byte.of_to_N.

(** Go's conversion [byte(x)] of an integer: the low eight bits. *)
Definition byte_of_Z (z : Z) : byte :=
  match Byte.of_N (Z.to_N (z mod 256)) with
  | Some b => b
  | None => x00
  end.

Definition Z_of_byte (b : byte) : Z := Z.of_N (Byte.to_N b).

(** ** encoding/hex *)

Module hex.

(** [hextable = "0123456789abcdef"]: [EncodeToString] is lower case. *)
Definition hexdigit (n : Z) : ascii :=
  if n <? 10 then ascii_of_N (Z.to_N (48 + n))
  else ascii_of_N (Z.to_N (87 + n)).

Fixpoint EncodeToString (src : bytes) : string :=
  match src with
  | [] => EmptyString
  | b :: rest =>
      String (hexdigit (Z.shiftr (Z_of_byte b) 4))
        (String (hexdigit (Z.land (Z_of_byte b) 15)) (EncodeToString rest))
  end.

(** [fromHexChar]: digits, ['a'..'f'] and ['A'..'F']. *)
Definition fromHexChar (c : ascii) : option Z :=
  let n := Z.of_N (N_of_ascii c) in
  if (48 <=? n) && (n <=? 57) then Some (n - 48)
  else if (97 <=? n) && (n <=? 102) then Some (n - 97 + 10)
  else if (65 <=? n) && (n <=? 70) then Some (n - 65 + 10)
  else None.

(** [DecodeString] returns the decoded bytes together with the error;
    the second component is [true] when the error is [nil].  Errors are
    an invalid byte and an odd length.  On an error the first component
    is the prefix decoded so far; no caller looks at it then. *)
Fixpoint DecodeString (s : string) : bytes * bool :=
  match s with
  | EmptyString => ([], true)
  | String _ EmptyString => ([], false)
  | String a (String b rest) =>
      match fromHexChar a, fromHexChar b with
      | Some x, Some y =>
          let '(l, ok) := DecodeString rest in
          (byte_of_Z (Z.lor (Z.shiftl x 4) y) :: l, ok)
      | _, _ => ([], false)
      end
  end.

End hex.

(** ** utils.go *)

Definition int64_min : Z := - 2 ^ 63.
Definition int64_max : Z := 2 ^ 63 - 1.
Definition is_int64 (i : Z) : Prop := int64_min <= i <= int64_max.

(** Conversion [int64(u)] of a [uint64]: two's complement. *)
Definition to_int64 (u : Z) : Z :=
  let m := u mod 2 ^ 64 in if m <? 2 ^ 63 then m else m - 2 ^ 64.

(** [binary.LittleEndian.PutUint64]. *)
Definition PutUint64 (u : Z) : bytes :=
  [ byte_of_Z u; byte_of_Z (Z.shiftr u 8); byte_of_Z (Z.shiftr u 16);
    byte_of_Z (Z.shiftr u 24); byte_of_Z (Z.shiftr u 32);
    byte_of_Z (Z.shiftr u 40); byte_of_Z (Z.shiftr u 48);
    byte_of_Z (Z.shiftr u 56) ].

(** [binary.LittleEndian.Uint64] on the first eight bytes. *)
Definition Uint64 (b0 b1 b2 b3 b4 b5 b6 b7 : byte) : Z :=
  Z.lor (Z_of_byte b0)
   (Z.lor (Z.shiftl (Z_of_byte b1) 8)
    (Z.lor (Z.shiftl (Z_of_byte b2) 16)
     (Z.lor (Z.shiftl (Z_of_byte b3) 24)
      (Z.lor (Z.shiftl (Z_of_byte b4) 32)
       (Z.lor (Z.shiftl (Z_of_byte b5) 40)
        (Z.lor (Z.shiftl (Z_of_byte b6) 48)
               (Z.shiftl (Z_of_byte b7) 56))))))).

(** [int64ToBytes]: [binary.Write] of an [int64] into a [bytes.Buffer]
    cannot fail, so the [panic] branch is dead and the function is total.
    The [int64] is written as its [uint64] bit pattern. *)
Definition int64ToBytes (i : Z) : bytes := PutUint64 (i mod 2 ^ 64).

(** [bytesToInt64]: [binary.Read] needs eight bytes from the reader and
    returns [io.EOF] or [io.ErrUnexpectedEOF] on fewer, on which the
    function panics ([None]).  Bytes after the eighth are not read. *)
Definition bytesToInt64 (b : bytes) : option Z :=
  match b with
  | b0 :: b1 :: b2 :: b3 :: b4 :: b5 :: b6 :: b7 :: _ =>
      Some (to_int64 (Uint64 b0 b1 b2 b3 b4 b5 b6 b7))
  | _ => None
  end.

(** ** HTTP responses

    A handler's answer is recorded as the response helper it calls
    ([sendBadReq], [sendInternalErr], [sendSuccess],
    [sendInvalidAccessToken]), or as the status and body it writes itself. *)

Inductive response :=
| Raw (code : Z) (body : bytes)     (* w.WriteHeader(code); w.Write(body) *)
| BadReq (reason : string)          (* sendBadReq(w, reason) *)
| InternalErr                       (* sendInternalErr(w, err) *)
| Success                           (* sendSuccess(w, nil) *)
| InvalidAccessToken                (* sendInvalidAccessToken(w) *)
| UpgradeFailed                     (* the websocket upgrader answered itself *)
| SwitchingProtocols.               (* the websocket upgrade went through *)

(** Modelled from the spec: the status codes of the response helpers,
    which are missing from the sources.  Section 6 gives 400 for a bad id
    or body, 500 for a store error, 200 for success, 401 for an invalid
    token and 101 for an upgrade; the upgrader's own failure answer is 400
    by the comment in the handlers. *)
Definition status (r : response) : Z :=
  match r with
  | Raw code _ => code
  | BadReq _ => 400
  | InternalErr => 500
  | Success => 200
  | InvalidAccessToken => 401
  | UpgradeFailed => 400
  | SwitchingProtocols => 101
  end.

(** ** github.com/boltdb/bolt, as far as the handlers use it *)

Module bolt.

Definition MaxKeySize : Z := 32768.
Definition MaxValueSize : Z := 2147483646.

(** [Bucket.Put]: [None] is a non-nil error ([ErrKeyRequired],
    [ErrKeyTooLarge] or [ErrValueTooLarge]). *)
Definition Put (key value : bytes) (b : gmap bytes bytes) : option (gmap bytes bytes) :=
  if bool_decide (key = []) then None
  else if MaxKeySize <? Z.of_nat (length key) then None
  else if MaxValueSize <? Z.of_nat (length value) then None
  else Some (<[key := value]> b).

(** [Bucket.Get]: [nil] when the key is absent, modelled as the empty
    slice since every caller only takes its length or writes it out. *)
Definition Get (key : bytes) (b : gmap bytes bytes) : bytes :=
  default [] (b !! key).

(** [DB.Update fn]: runs [fn] in a read-write transaction; when [fn]
    returns an error, or the commit fails ([commit = false], an I/O
    error of the engine), the transaction is rolled back and the error
    returned.  The result is the error flag ([true]: nil) and the
    bucket afterwards. *)
Definition Update (commit : bool) (fn : gmap bytes bytes -> option (gmap bytes bytes))
    (b : gmap bytes bytes) : bool * gmap bytes bytes :=
  match fn b with
  | Some b' => if commit then (true, b') else (false, b)
  | None => (false, b)
  end.

End bolt.

(** ** drop_boxes.go: the REST handlers *)

Definition dropBoxIDSize : nat := 16.

Inductive kvop := View | Update.

(** The server state the REST handlers touch: the drop-boxes bucket, the
    transactions opened on the store so far, and the [Pub] calls issued on
    [dropBoxPubSub] so far (package, topic), oldest first. *)
Record server := {
  dropboxes : gmap bytes bytes;
  kvlog : list kvop;
  pubs : list (bytes * string);
}.

(** [parseDropBoxID]: the box id, its hex string and [ok]; on failure the
    answer already sent. *)
Definition parseDropBoxID (boxIDStr : string) : response + (bytes * string) :=
  let '(boxID, ok) := hex.DecodeString boxIDStr in
  if negb ok then inl (BadReq "invalid drop box id")
  else if negb (length boxID =? dropBoxIDSize)%nat then inl (BadReq "invalid drop box id")
  else inr (boxID, boxIDStr).

Definition pickUpPackage (boxID : bytes) (srv : server) : bytes * server :=
  (bolt.Get boxID (dropboxes srv),
   {| dropboxes := dropboxes srv; kvlog := kvlog srv ++ [View]; pubs := pubs srv |}).

(** GET /drop-boxes/{box_id} *)
Definition pickUpPackageHandler (box_id : string) (srv : server) : response * server :=
  match parseDropBoxID box_id with
  | inl r => (r, srv)
  | inr (boxID, _) =>
      let '(pkg, srv') := pickUpPackage boxID srv in
      (Raw 200 pkg, srv')
  end.

(** PUT /drop-boxes/{box_id}.  [body] is the result of
    [ioutil.ReadAll(r.Body)] ([None]: a read error); [commit] tells whether
    the store commits the transaction. *)
Definition dropPackageHandler (box_id : string) (body : option bytes) (commit : bool)
    (srv : server) : response * server :=
  match parseDropBoxID box_id with
  | inl r => (r, srv)
  | inr (boxID, hexBoxID) =>
      match body with
      | None => (BadReq "unable to read PUT body", srv)
      | Some pkg =>
          let '(ok, b) := bolt.Update commit (bolt.Put boxID pkg) (dropboxes srv) in
          let log := kvlog srv ++ [Update] in
          if negb ok
          then (InternalErr, {| dropboxes := b; kvlog := log; pubs := pubs srv |})
          else (Success,
                {| dropboxes := b; kvlog := log; pubs := pubs srv ++ [(pkg, hexBoxID)] |})
      end
  end.

(** One step of the multipart reader: [NextPart] fails, or yields a part
    with its form name and the result of reading its data. *)
Inductive partResult :=
| NextPartErr
| PartOf (FormName : string) (data : option bytes).

(** The loop that builds [pkgs], the map from hex box id to package; the
    end of the list is [io.EOF]. *)
Fixpoint readParts (rdr : list partResult) (pkgs : gmap string bytes)
    : response + gmap string bytes :=
  match rdr with
  | [] => inr pkgs
  | NextPartErr :: _ => inl (BadReq "error reading part")
  | PartOf _ None :: _ => inl (BadReq "error reading part data")
  | PartOf hexBoxID (Some data) :: rest =>
      let '(boxID, ok) := hex.DecodeString hexBoxID in
      if negb ok then inl (BadReq "invalid box id")
      else if negb (length boxID =? dropBoxIDSize)%nat then inl (BadReq "invalid box id size")
      else readParts rest (<[hexBoxID := data]> pkgs)
  end.

(** [for k, v := range m]: Go leaves the order open.  The order is taken
    from the environment as a list of keys: the keys of [m] that occur in
    [order] come first, in that order, the others follow; every order of
    the entries is obtained from some [order]. *)
Definition range_with {V} (order : list string) (m : gmap string V) : list (string * V) :=
  let ks := remove_dups (filter (fun k => is_Some (m !! k)) order) in
  omap (fun k => (fun v => (k, v)) <$> m !! k) ks
  ++ filter (fun kv => kv.1 ∉ ks) (map_to_list m).

(** The body of the [Update] transaction of the multipart handler. *)
Fixpoint putAll (entries : list (string * bytes)) (bucket : gmap bytes bytes)
    : option (gmap bytes bytes) :=
  match entries with
  | [] => Some bucket
  | (hexBoxID, pkg) :: rest =>
      let boxID := (hex.DecodeString hexBoxID).1 in
      match bolt.Put boxID pkg bucket with
      | Some bucket' => putAll rest bucket'
      | None => None
      end
  end.

(** POST /drop-boxes/send.  [rdr] is [None] when [r.MultipartReader()]
    fails; [order] and [pub_order] fix the two iterations over [pkgs]. *)
Definition sendMultiplePackagesHandler (rdr : option (list partResult))
    (order pub_order : list string) (commit : bool) (srv : server) : response * server :=
  match rdr with
  | None => (BadReq "unable to read multipart request", srv)
  | Some parts =>
      match readParts parts ∅ with
      | inl r => (r, srv)
      | inr pkgs =>
          let '(ok, b) :=
            bolt.Update commit (putAll (range_with order pkgs)) (dropboxes srv) in
          let log := kvlog srv ++ [Update] in
          if negb ok
          then (BadReq "store error", {| dropboxes := b; kvlog := log; pubs := pubs srv |})
          else (Success,
                {| dropboxes := b; kvlog := log;
                   pubs := pubs srv ++ ((fun kv => (kv.2, kv.1)) <$> range_with pub_order pkgs) |})
      end
  end.

(** The drop-box REST surface. *)
Inductive request :=
| GET (box_id : string)
| PUT (box_id : string) (body : option bytes) (commit : bool)
| POST_send (rdr : option (list partResult)) (order pub_order : list string) (commit : bool).

Definition handle (req : request) (srv : server) : response * server :=
  match req with
  | GET box_id => pickUpPackageHandler box_id srv
  | PUT box_id body commit => dropPackageHandler box_id body commit srv
  | POST_send rdr order pub_order commit =>
      sendMultiplePackagesHandler rdr order pub_order commit srv
  end.

(** The server after a sequence of requests. *)
Fixpoint serve (reqs : list request) (srv : server) : server :=
  match reqs with
  | [] => srv
  | req :: rest => serve rest (handle req srv).2
  end.

(** ** Go channels

    A channel of byte slices: the buffered items, oldest first, and
    whether it was closed.  The capacity is fixed where the channel is
    made and passed to [send]. *)

Record chan := { buf : list bytes; chan_closed : bool }.

Definition make : chan := {| buf := []; chan_closed := false |}.

Inductive sendResult := Sent (c : chan) | SendBlocks | SendPanics.

(** [c <- x]: panics on a closed channel, blocks on a full buffer. *)
Definition send (cap : nat) (x : bytes) (c : chan) : sendResult :=
  if chan_closed c then SendPanics
  else if (length (buf c) <? cap)%nat
       then Sent {| buf := buf c ++ [x]; chan_closed := false |}
       else SendBlocks.

Inductive recvResult := Received (x : option bytes) (c : chan) | RecvBlocks.

(** [<-c]: the oldest buffered item; on a closed and drained channel the
    zero value [nil], here [None]; otherwise it blocks. *)
Definition recv (c : chan) : recvResult :=
  match buf c with
  | x :: rest => Received (Some x) {| buf := rest; chan_closed := chan_closed c |}
  | [] => if chan_closed c then Received None c else RecvBlocks
  end.

(** [close(c)]: panics ([None]) on a closed channel. *)
Definition close (c : chan) : option chan :=
  if chan_closed c then None else Some {| buf := buf c; chan_closed := true |}.

(** ** The pub/sub bus *)

Module pubsub.

(** Modelled from the spec: the capacity of a subscription queue.  The
    bus package (pijun.io/pubsub, later internal/pubsub) is missing from
    the sources; section 4.A gives each subscription a bounded FIFO queue
    of a small capacity, 5 for instance.  Queues are the channels the
    subscribers receive from; they live in one heap, and a subscription
    handle is an index into it. *)
Definition queueCap : nat := 5.

Section bus.
Context `{Countable K}.

(** Modelled from the spec: [Sub] of the missing bus package.  Section
    4.A: it creates a new subscriber for the topic, each call yielding an
    independent handle that owns a new queue. *)
Definition Sub (topic : K) (chans : list chan) (bus : gmap K (list nat))
    : nat * list chan * gmap K (list nat) :=
  let c := length chans in
  (c, chans ++ [make], <[topic := default [] (bus !! topic) ++ [c]]> bus).

(** Modelled from the spec: [Unsub] of the missing bus package.  Section
    4.A: it removes the handle from the topic's subscriber set and closes
    its queue; on a handle that is not subscribed it is a no-op. *)
Definition Unsub (sub : nat) (topic : K) (chans : list chan) (bus : gmap K (list nat))
    : list chan * gmap K (list nat) :=
  let subscribers := default [] (bus !! topic) in
  if bool_decide (sub ∈ subscribers)
  then (alter (fun ch => {| buf := buf ch; chan_closed := true |}) sub chans,
        <[topic := filter (fun c => c <> sub) subscribers]> bus)
  else (chans, bus).

(** Modelled from the spec: the delivery loop of [Pub] of the missing bus
    package: the item is enqueued to each subscriber in turn; [None] when
    the publisher would block on a full queue. *)
Fixpoint deliver (item : bytes) (subscribers : list nat) (chans : list chan)
    : option (list chan) :=
  match subscribers with
  | [] => Some chans
  | c :: rest =>
      match chans !! c with
      | Some ch =>
          match send queueCap item ch with
          | Sent ch' => deliver item rest (<[c := ch']> chans)
          | _ => None
          end
      | None => None
      end
  end.

(** Modelled from the spec: [Pub] of the missing bus package.  Section
    4.A: it delivers the item to every current subscriber of the topic,
    and blocks on a full queue (the source's policy). *)
Definition Pub (item : bytes) (topic : K) (chans : list chan) (bus : gmap K (list nat))
    : option (list chan) :=
  deliver item (default [] (bus !! topic)) chans.

End bus.

End pubsub.

(** ** Socket sessions

    What [ReadMessage] hands to the reading goroutine. *)
Inductive readResult :=
| ReadErr                                  (* err != nil: EOF, reset, ... *)
| ReadMsg (binary : bool) (buf : bytes).   (* a text or binary message *)

(** Where a forwarding goroutine stands: in its [select], in the send of
    a framed package to the writer, or returned. *)
Inductive pc := Select | Sending (frame : bytes) | Exited.

(** The opcodes, under the names of the socket server and of
    drop_boxes.go. *)
Definition socketCmdNop : byte := x00.
Definition socketCmdWatch : byte := x01.
Definition socketCmdIgnore : byte := x02.

Definition clientCmdNop : byte := x00.
Definition clientCmdWatch : byte := x01.
Definition clientCmdIgnore : byte := x02.

(** *** The socket server (/sockets) *)

Module socketServer.

Definition pkgsCap : nat := 5.

(** A goroutine spawned by [watchBox], with the variables it captured. *)
Record forwarder := { hexID : string; boxID : bytes; sub : nat; at_ : pc }.

Record state := {
  kvs : gmap bytes bytes;   (* the drop-box store behind [kvs] *)
  chans : list chan;   (* the heap of subscription queues *)
  dropBoxPubSub : gmap string (list nat);   (* topic -> subscribers *)
  messagesPubSub : gmap Z (list nat);   (* user id -> subscribers *)
  userID : Z;   (* ss.userID *)
  closed : bool;   (* ss.closed was closed *)
  messages : nat;   (* ss.messages, a handle *)
  pkgs : chan;   (* ss.pkgs, capacity 5 *)
  pkgSubs : gmap string nat;   (* ss.pkgSubs *)
  reading : bool;   (* a goroutine runs readConn *)
  writing : bool;   (* a goroutine runs writeConn *)
  stopping : bool;   (* a goroutine runs stop *)
  forwarders : list forwarder;   (* the goroutines spawned by watchBox *)
  conn_closed : bool;   (* ss.conn.Close() was called *)
  wire : list bytes;   (* frames written to the peer, oldest first *)
  panicked : bool;   (* the process died of a panic *)
}.

Definition set_kvs (v : gmap bytes bytes) (s : state) : state :=
  {| kvs := v; chans := chans s; dropBoxPubSub := dropBoxPubSub s;
     messagesPubSub := messagesPubSub s; userID := userID s;
     closed := closed s; messages := messages s; pkgs := pkgs s;
     pkgSubs := pkgSubs s; reading := reading s; writing := writing s;
     stopping := stopping s; forwarders := forwarders s;
     conn_closed := conn_closed s; wire := wire s; panicked := panicked s |}.

Definition set_chans (v : list chan) (s : state) : state :=
  {| kvs := kvs s; chans := v; dropBoxPubSub := dropBoxPubSub s;
     messagesPubSub := messagesPubSub s; userID := userID s;
     closed := closed s; messages := messages s; pkgs := pkgs s;
     pkgSubs := pkgSubs s; reading := reading s; writing := writing s;
     stopping := stopping s; forwarders := forwarders s;
     conn_closed := conn_closed s; wire := wire s; panicked := panicked s |}.

Definition set_closed (v : bool) (s : state) : state :=
  {| kvs := kvs s; chans := chans s; dropBoxPubSub := dropBoxPubSub s;
     messagesPubSub := messagesPubSub s; userID := userID s; closed := v;
     messages := messages s; pkgs := pkgs s; pkgSubs := pkgSubs s;
     reading := reading s; writing := writing s; stopping := stopping s;
     forwarders := forwarders s; conn_closed := conn_closed s;
     wire := wire s; panicked := panicked s |}.

Definition set_pkgs (v : chan) (s : state) : state :=
  {| kvs := kvs s; chans := chans s; dropBoxPubSub := dropBoxPubSub s;
     messagesPubSub := messagesPubSub s; userID := userID s;
     closed := closed s; messages := messages s; pkgs := v;
     pkgSubs := pkgSubs s; reading := reading s; writing := writing s;
     stopping := stopping s; forwarders := forwarders s;
     conn_closed := conn_closed s; wire := wire s; panicked := panicked s |}.

Definition set_reading (v : bool) (s : state) : state :=
  {| kvs := kvs s; chans := chans s; dropBoxPubSub := dropBoxPubSub s;
     messagesPubSub := messagesPubSub s; userID := userID s;
     closed := closed s; messages := messages s; pkgs := pkgs s;
     pkgSubs := pkgSubs s; reading := v; writing := writing s;
     stopping := stopping s; forwarders := forwarders s;
     conn_closed := conn_closed s; wire := wire s; panicked := panicked s |}.

Definition set_writing (v : bool) (s : state) : state :=
  {| kvs := kvs s; chans := chans s; dropBoxPubSub := dropBoxPubSub s;
     messagesPubSub := messagesPubSub s; userID := userID s;
     closed := closed s; messages := messages s; pkgs := pkgs s;
     pkgSubs := pkgSubs s; reading := reading s; writing := v;
     stopping := stopping s; forwarders := forwarders s;
     conn_closed := conn_closed s; wire := wire s; panicked := panicked s |}.

Definition set_forwarders (v : list forwarder) (s : state) : state :=
  {| kvs := kvs s; chans := chans s; dropBoxPubSub := dropBoxPubSub s;
     messagesPubSub := messagesPubSub s; userID := userID s;
     closed := closed s; messages := messages s; pkgs := pkgs s;
     pkgSubs := pkgSubs s; reading := reading s; writing := writing s;
     stopping := stopping s; forwarders := v; conn_closed := conn_closed s;
     wire := wire s; panicked := panicked s |}.

Definition set_wire (v : list bytes) (s : state) : state :=
  {| kvs := kvs s; chans := chans s; dropBoxPubSub := dropBoxPubSub s;
     messagesPubSub := messagesPubSub s; userID := userID s;
     closed := closed s; messages := messages s; pkgs := pkgs s;
     pkgSubs := pkgSubs s; reading := reading s; writing := writing s;
     stopping := stopping s; forwarders := forwarders s;
     conn_closed := conn_closed s; wire := v; panicked := panicked s |}.

Definition set_panicked (v : bool) (s : state) : state :=
  {| kvs := kvs s; chans := chans s; dropBoxPubSub := dropBoxPubSub s;
     messagesPubSub := messagesPubSub s; userID := userID s;
     closed := closed s; messages := messages s; pkgs := pkgs s;
     pkgSubs := pkgSubs s; reading := reading s; writing := writing s;
     stopping := stopping s; forwarders := forwarders s;
     conn_closed := conn_closed s; wire := wire s; panicked := v |}.

Definition set_at (i : nat) (p : pc) (s : state) : state :=
  set_forwarders
    (alter (fun f => {| hexID := hexID f; boxID := boxID f; sub := sub f; at_ := p |})
           i (forwarders s)) s.

(** [newSocketServer] followed by [start]: the session subscribes to the
    user's messages and spawns [readConn] and [writeConn].  [stop] is not
    spawned. *)
Definition start (user : Z) (store : gmap bytes bytes) (queues : list chan)
    (boxBus : gmap string (list nat)) (msgBus : gmap Z (list nat)) : state :=
  let '(m, queues', msgBus') := pubsub.Sub user queues msgBus in
  {| kvs := store; chans := queues'; dropBoxPubSub := boxBus;
     messagesPubSub := msgBus'; userID := user; closed := false; messages := m;
     pkgs := make; pkgSubs := ∅; reading := true; writing := true;
     stopping := false; forwarders := []; conn_closed := false; wire := [];
     panicked := false |}.

(** [kvs.PickUpPackage]: the package, or an error ([kv_ok = false]) with
    no package. *)
Definition PickUpPackage (kv_ok : bool) (box : bytes) (s : state) : bytes :=
  if kv_ok then default [] (kvs s !! box) else [].

Definition watchBox (box : bytes) (kv_ok : bool) (s : state) : state :=
  if negb (length box =? dropBoxIDSize)%nat then s
  else
    let hexID := hex.EncodeToString box in
    match pkgSubs s !! hexID with
    | Some _ => s
    | None =>
        let '(sub, queues, bus) := pubsub.Sub hexID (chans s) (dropBoxPubSub s) in
        let tmp := PickUpPackage kv_ok box s in
        (* sub <- tmp: the queue is new, its positive capacity takes it *)
        let queues' :=
          if (0 <? length tmp)%nat
          then match send pubsub.queueCap tmp <$> queues !! sub with
               | Some (Sent ch) => <[sub := ch]> queues
               | _ => queues
               end
          else queues in
        {| kvs := kvs s; chans := queues'; dropBoxPubSub := bus;
           messagesPubSub := messagesPubSub s; userID := userID s; closed := closed s;
           messages := messages s; pkgs := pkgs s;
           pkgSubs := <[hexID := sub]> (pkgSubs s);
           reading := reading s; writing := writing s; stopping := stopping s;
           forwarders :=
             forwarders s ++ [{| hexID := hexID; boxID := box; sub := sub; at_ := Select |}];
           conn_closed := conn_closed s; wire := wire s; panicked := panicked s |}
    end.

Definition ignoreBox (box : bytes) (s : state) : state :=
  let hexID := hex.EncodeToString box in
  match pkgSubs s !! hexID with
  | None => s
  | Some sub =>
      let '(queues, bus) := pubsub.Unsub sub hexID (chans s) (dropBoxPubSub s) in
      {| kvs := kvs s; chans := queues; dropBoxPubSub := bus;
         messagesPubSub := messagesPubSub s; userID := userID s; closed := closed s;
         messages := messages s; pkgs := pkgs s; pkgSubs := delete hexID (pkgSubs s);
         reading := reading s; writing := writing s; stopping := stopping s;
         forwarders := forwarders s; conn_closed := conn_closed s; wire := wire s;
         panicked := panicked s |}
  end.

(** One turn of the loop of [readConn] on the result of [ReadMessage]. *)
Definition readConn (r : readResult) (kv_ok : bool) (s : state) : state :=
  match r with
  | ReadErr => set_closed true (set_reading false s)
  | ReadMsg false _ => set_closed true (set_reading false s)
  | ReadMsg true [] => s
  | ReadMsg true (cmd :: payload) =>
      if bool_decide (cmd = socketCmdNop) then s
      else if bool_decide (cmd = socketCmdWatch) then watchBox payload kv_ok s
      else if bool_decide (cmd = socketCmdIgnore) then ignoreBox payload s
      else s
  end.

(** [stop], past its wait on [ss.closed]. *)
Definition stop (s : state) : state :=
  let '(queues, bus) :=
    foldr (fun kv qb => pubsub.Unsub kv.2 kv.1 qb.1 qb.2)
          (chans s, dropBoxPubSub s) (map_to_list (pkgSubs s)) in
  let '(queues', msgBus) := pubsub.Unsub (messages s) (userID s) queues (messagesPubSub s) in
  {| kvs := kvs s; chans := queues'; dropBoxPubSub := bus; messagesPubSub := msgBus;
     userID := userID s; closed := closed s; messages := messages s; pkgs := pkgs s;
     pkgSubs := pkgSubs s; reading := reading s; writing := writing s;
     stopping := false; forwarders := forwarders s; conn_closed := true;
     wire := wire s; panicked := panicked s |}.

(** The goroutine spawned by [watchBox], one [select] case or one send
    at a time. *)
Definition forward_closed (i : nat) (s : state) : option state :=
  match forwarders s !! i with
  | Some f =>
      match at_ f with
      | Select => if closed s then Some (set_at i Exited s) else None
      | _ => None
      end
  | None => None
  end.

Definition forward_sub (i : nat) (s : state) : option state :=
  match forwarders s !! i with
  | Some f =>
      match at_ f, chans s !! sub f with
      | Select, Some ch =>
          match recv ch with
          | Received (Some pkg) ch' =>
              Some (set_at i (Sending (socketCmdWatch :: boxID f ++ pkg))
                      (set_chans (<[sub f := ch']> (chans s)) s))
          | Received None _ =>
              match close (pkgs s) with
              | Some p => Some (set_at i Exited (set_pkgs p s))
              | None => Some (set_panicked true s)
              end
          | RecvBlocks => None
          end
      | _, _ => None
      end
  | None => None
  end.

Definition forward_send (i : nat) (s : state) : option state :=
  match forwarders s !! i with
  | Some f =>
      match at_ f with
      | Sending frame =>
          match send pkgsCap frame (pkgs s) with
          | Sent p => Some (set_at i Select (set_pkgs p s))
          | SendBlocks => None
          | SendPanics => Some (set_panicked true s)
          end
      | _ => None
      end
  | None => None
  end.

(** [writeConn], one [select] case at a time; [ok] is whether
    [WriteMessage] succeeds. *)
Definition write_or_return (ok : bool) (msg : bytes) (s : state) : state :=
  if ok then set_wire (wire s ++ [msg]) s else set_writing false s.

Definition writeConn_messages (ok : bool) (s : state) : option state :=
  match chans s !! messages s with
  | Some ch =>
      match recv ch with
      | Received (Some msg) ch' =>
          Some (write_or_return ok msg (set_chans (<[messages s := ch']> (chans s)) s))
      | Received None _ => Some (set_writing false s)
      | RecvBlocks => None
      end
  | None => None
  end.

Definition writeConn_pkgs (ok : bool) (s : state) : option state :=
  match recv (pkgs s) with
  | Received (Some pkg) p => Some (write_or_return ok pkg (set_pkgs p s))
  | Received None _ => Some (set_writing false s)
  | RecvBlocks => None
  end.

Definition writeConn_closed (s : state) : option state :=
  if closed s then Some (set_writing false s) else None.

(** What can happen next: a goroutine of the session moves, or the
    environment publishes or stores something.  One turn of the read loop
    is one event: what [watchBox] does between [Sub] and the [go]
    statement is not interleaved with the other goroutines. *)
Inductive event :=
| Read (r : readResult) (kv_ok : bool)
| FwdClosed (i : nat)
| FwdSub (i : nat)
| FwdSend (i : nat)
| WrMsg (ok : bool)
| WrPkg (ok : bool)
| WrClosed
| Stop
| PubPkg (item : bytes) (topic : string)
| PubMsg (item : bytes) (user : Z)
| StorePut (box pkg : bytes).

(** [None]: the event cannot happen in [s] (the goroutine is blocked or
    gone, or the process has panicked). *)
Definition step (e : event) (s : state) : option state :=
  if panicked s then None
  else
    match e with
    | Read r kv_ok => if reading s then Some (readConn r kv_ok s) else None
    | FwdClosed i => forward_closed i s
    | FwdSub i => forward_sub i s
    | FwdSend i => forward_send i s
    | WrMsg ok => if writing s then writeConn_messages ok s else None
    | WrPkg ok => if writing s then writeConn_pkgs ok s else None
    | WrClosed => if writing s then writeConn_closed s else None
    | Stop => if stopping s && closed s then Some (stop s) else None
    | PubPkg item topic =>
        (fun q => set_chans q s) <$> pubsub.Pub item topic (chans s) (dropBoxPubSub s)
    | PubMsg item user =>
        (fun q => set_chans q s) <$> pubsub.Pub item user (chans s) (messagesPubSub s)
    | StorePut box pkg => Some (set_kvs (<[box := pkg]> (kvs s)) s)
    end.

Fixpoint run (es : list event) (s : state) : option state :=
  match es with
  | [] => Some s
  | e :: rest =>
      match step e s with
      | Some s' => run rest s'
      | None => None
      end
  end.

(** A session in a world of its own: an empty bus and heap. *)
Definition session (user : Z) (store : gmap bytes bytes) : state :=
  start user store [] ∅ ∅.

(** The states a session can reach, whatever the store, the heap and the
    buses held when it started. *)
Definition reachable (s : state) : Prop :=
  exists user store queues boxBus msgBus es,
    run es (start user store queues boxBus msgBus) = Some s.

(** Events of the session's forwarding and writing goroutines in which
    every write to the socket succeeds. *)
Definition internal (e : event) : bool :=
  match e with
  | FwdSub _ | FwdSend _ | WrPkg true => true
  | _ => false
  end.

(** The session is in state Running: both loops are alive and the package
    channel is open. *)
Definition running (s : state) : Prop :=
  reading s = true /\ writing s = true /\ panicked s = false
  /\ chan_closed (pkgs s) = false.

(** *** Counting what is left to do

    Counting events. *)
Fixpoint count (p : event -> bool) (es : list event) : nat :=
  match es with
  | [] => 0
  | e :: rest => (if p e then 1 else 0) + count p rest
  end.

(** A receive of forwarder [i] from its queue; a receive of the writer
    from [ss.pkgs]. *)
Definition is_FwdSub (i : nat) (e : event) : bool :=
  match e with FwdSub j => (j =? i)%nat | _ => false end.

Definition is_WrPkg (e : event) : bool :=
  match e with WrPkg _ => true | _ => false end.

(** How many receives forwarder [i] can still make from queue [c] once
    the queue is closed: one per item left, and the one that yields nil. *)
Definition receives_left (i c : nat) (s : state) : nat :=
  if panicked s then 0
  else match forwarders s !! i with
       | Some f =>
           match at_ f with
           | Exited => 0
           | _ => S (length (default [] (buf <$> chans s !! c)))
           end
       | None => 0
       end.

(** How many receives the writer can still make from [ss.pkgs] once the
    channel is closed. *)
Definition writes_left (s : state) : nat :=
  if panicked s then 0
  else if writing s then S (length (buf (pkgs s))) else 0.

(** Forwarder [i] is subscribed to queue [c], and the queue is closed. *)
Definition tracked (i c : nat) (s : state) : Prop :=
  (exists f, forwarders s !! i = Some f /\ sub f = c)
  /\ chan_closed <$> chans s !! c = Some true.

(** The session is going down: [ss.pkgs] or [ss.closed] is closed, or the
    process has panicked. *)
Definition closing (s : state) : Prop :=
  chan_closed (pkgs s) = true \/ closed s = true \/ panicked s = true.

End socketServer.

(** *** The package listener (/drop-boxes/watch) *)

Module packageListener.

Record subscriptionReader := { sr_sub : nat; sr_closed : bool }.

(** A goroutine spawned by [watch], with the variables it captured. *)
Record forwarder := { topic : string; boxID : bytes; sub : nat; at_ : pc }.

(** Where the goroutine that runs [stop] stands: before [<-pl.closed],
    in [waitGroup.Wait()], or returned. *)
Inductive stop_pc := StopWaiting | StopJoining | StopDone.

Record state := {
  srv : server;   (* the store behind [kvdb()] *)
  chans : list chan;   (* the heap of subscription queues *)
  dropBoxPubSub : gmap string (list nat);   (* topic -> subscribers *)
  closed : bool;   (* pl.closed was closed *)
  pkgs_closed : bool;   (* pl.pkgs, unbuffered, was closed *)
  subs : gmap string subscriptionReader;   (* pl.subs *)
  waitGroup : nat;   (* the counter of pl.waitGroup *)
  reading : bool;   (* a goroutine runs read *)
  writing : bool;   (* a goroutine runs write *)
  stopping : stop_pc;   (* the goroutine that runs stop *)
  forwarders : list forwarder;   (* the goroutines spawned by watch *)
  conn_closed : bool;   (* pl.conn.Close() was called *)
  wire : list bytes;   (* frames written to the peer, oldest first *)
  panicked : bool;   (* the process died of a panic *)
}.

Definition set_srv (v : server) (s : state) : state :=
  {| srv := v; chans := chans s; dropBoxPubSub := dropBoxPubSub s;
     closed := closed s; pkgs_closed := pkgs_closed s; subs := subs s;
     waitGroup := waitGroup s; reading := reading s; writing := writing s;
     stopping := stopping s; forwarders := forwarders s;
     conn_closed := conn_closed s; wire := wire s; panicked := panicked s |}.

Definition set_chans (v : list chan) (s : state) : state :=
  {| srv := srv s; chans := v; dropBoxPubSub := dropBoxPubSub s;
     closed := closed s; pkgs_closed := pkgs_closed s; subs := subs s;
     waitGroup := waitGroup s; reading := reading s; writing := writing s;
     stopping := stopping s; forwarders := forwarders s;
     conn_closed := conn_closed s; wire := wire s; panicked := panicked s |}.

Definition set_closed (v : bool) (s : state) : state :=
  {| srv := srv s; chans := chans s; dropBoxPubSub := dropBoxPubSub s;
     closed := v; pkgs_closed := pkgs_closed s; subs := subs s;
     waitGroup := waitGroup s; reading := reading s; writing := writing s;
     stopping := stopping s; forwarders := forwarders s;
     conn_closed := conn_closed s; wire := wire s; panicked := panicked s |}.

Definition set_pkgs_closed (v : bool) (s : state) : state :=
  {| srv := srv s; chans := chans s; dropBoxPubSub := dropBoxPubSub s;
     closed := closed s; pkgs_closed := v; subs := subs s;
     waitGroup := waitGroup s; reading := reading s; writing := writing s;
     stopping := stopping s; forwarders := forwarders s;
     conn_closed := conn_closed s; wire := wire s; panicked := panicked s |}.

Definition set_subs (v : gmap string subscriptionReader) (s : state) : state :=
  {| srv := srv s; chans := chans s; dropBoxPubSub := dropBoxPubSub s;
     closed := closed s; pkgs_closed := pkgs_closed s; subs := v;
     waitGroup := waitGroup s; reading := reading s; writing := writing s;
     stopping := stopping s; forwarders := forwarders s;
     conn_closed := conn_closed s; wire := wire s; panicked := panicked s |}.

Definition set_reading (v : bool) (s : state) : state :=
  {| srv := srv s; chans := chans s; dropBoxPubSub := dropBoxPubSub s;
     closed := closed s; pkgs_closed := pkgs_closed s; subs := subs s;
     waitGroup := waitGroup s; reading := v; writing := writing s;
     stopping := stopping s; forwarders := forwarders s;
     conn_closed := conn_closed s; wire := wire s; panicked := panicked s |}.

Definition set_writing (v : bool) (s : state) : state :=
  {| srv := srv s; chans := chans s; dropBoxPubSub := dropBoxPubSub s;
     closed := closed s; pkgs_closed := pkgs_closed s; subs := subs s;
     waitGroup := waitGroup s; reading := reading s; writing := v;
     stopping := stopping s; forwarders := forwarders s;
     conn_closed := conn_closed s; wire := wire s; panicked := panicked s |}.

Definition set_stopping (v : stop_pc) (s : state) : state :=
  {| srv := srv s; chans := chans s; dropBoxPubSub := dropBoxPubSub s;
     closed := closed s; pkgs_closed := pkgs_closed s; subs := subs s;
     waitGroup := waitGroup s; reading := reading s; writing := writing s;
     stopping := v; forwarders := forwarders s; conn_closed := conn_closed s;
     wire := wire s; panicked := panicked s |}.

Definition set_forwarders (v : list forwarder) (s : state) : state :=
  {| srv := srv s; chans := chans s; dropBoxPubSub := dropBoxPubSub s;
     closed := closed s; pkgs_closed := pkgs_closed s; subs := subs s;
     waitGroup := waitGroup s; reading := reading s; writing := writing s;
     stopping := stopping s; forwarders := v; conn_closed := conn_closed s;
     wire := wire s; panicked := panicked s |}.

Definition set_conn_closed (v : bool) (s : state) : state :=
  {| srv := srv s; chans := chans s; dropBoxPubSub := dropBoxPubSub s;
     closed := closed s; pkgs_closed := pkgs_closed s; subs := subs s;
     waitGroup := waitGroup s; reading := reading s; writing := writing s;
     stopping := stopping s; forwarders := forwarders s; conn_closed := v;
     wire := wire s; panicked := panicked s |}.

Definition set_wire (v : list bytes) (s : state) : state :=
  {| srv := srv s; chans := chans s; dropBoxPubSub := dropBoxPubSub s;
     closed := closed s; pkgs_closed := pkgs_closed s; subs := subs s;
     waitGroup := waitGroup s; reading := reading s; writing := writing s;
     stopping := stopping s; forwarders := forwarders s;
     conn_closed := conn_closed s; wire := v; panicked := panicked s |}.

Definition set_panicked (v : bool) (s : state) : state :=
  {| srv := srv s; chans := chans s; dropBoxPubSub := dropBoxPubSub s;
     closed := closed s; pkgs_closed := pkgs_closed s; subs := subs s;
     waitGroup := waitGroup s; reading := reading s; writing := writing s;
     stopping := stopping s; forwarders := forwarders s;
     conn_closed := conn_closed s; wire := wire s; panicked := v |}.

Definition set_at (i : nat) (p : pc) (s : state) : state :=
  set_forwarders
    (alter (fun f => {| topic := topic f; boxID := boxID f; sub := sub f; at_ := p |})
           i (forwarders s)) s.

(** [newPackageListener] followed by [start], which spawns [read],
    [write] and [stop]. *)
Definition start (store : server) (queues : list chan)
    (boxBus : gmap string (list nat)) : state :=
  {| srv := store; chans := queues; dropBoxPubSub := boxBus; closed := false;
     pkgs_closed := false; subs := ∅; waitGroup := 0; reading := true;
     writing := true; stopping := StopWaiting; forwarders := [];
     conn_closed := false; wire := []; panicked := false |}.

Definition watch (box : bytes) (s : state) : state :=
  if negb (length box =? dropBoxIDSize)%nat then s
  else
    let hexID := hex.EncodeToString box in
    match subs s !! hexID with
    | Some _ => s
    | None =>
        let '(sub, queues, bus) := pubsub.Sub hexID (chans s) (dropBoxPubSub s) in
        let sr := {| sr_sub := sub; sr_closed := false |} in
        let '(tmp, store) := pickUpPackage box (srv s) in
        (* sub <- tmp: the queue is new, its positive capacity takes it *)
        let queues' :=
          if (0 <? length tmp)%nat
          then match send pubsub.queueCap tmp <$> queues !! sub with
               | Some (Sent ch) => <[sub := ch]> queues
               | _ => queues
               end
          else queues in
        {| srv := store; chans := queues'; dropBoxPubSub := bus; closed := closed s;
           pkgs_closed := pkgs_closed s; subs := <[hexID := sr]> (subs s);
           waitGroup := S (waitGroup s); reading := reading s; writing := writing s;
           stopping := stopping s;
           forwarders :=
             forwarders s ++ [{| topic := hexID; boxID := box; sub := sub; at_ := Select |}];
           conn_closed := conn_closed s; wire := wire s; panicked := panicked s |}
    end.

(** [ignore] closes the subscription reader's own [closed] channel and
    forgets the entry; the forwarding goroutine selects on [pl.closed],
    not on that channel. *)
Definition ignore (box : bytes) (s : state) : state :=
  if negb (length box =? dropBoxIDSize)%nat then s
  else
    let hexID := hex.EncodeToString box in
    match subs s !! hexID with
    | None => s
    | Some sr =>
        let closed_sr := {| sr_sub := sr_sub sr; sr_closed := true |} in
        set_subs (delete hexID (<[hexID := closed_sr]> (subs s))) s
    end.

(** One turn of the loop of [read] on the result of [ReadMessage]. *)
Definition read (r : readResult) (s : state) : state :=
  match r with
  | ReadErr => set_closed true (set_reading false s)
  | ReadMsg false _ => set_closed true (set_reading false s)
  | ReadMsg true [] => s
  | ReadMsg true (cmd :: payload) =>
      if bool_decide (cmd = clientCmdNop) then s
      else if bool_decide (cmd = clientCmdWatch) then watch payload s
      else if bool_decide (cmd = clientCmdIgnore) then ignore payload s
      else s
  end.

(** The return of a forwarding goroutine: the deferred [Unsub], then the
    deferred [waitGroup.Done()]. *)
Definition forward_return (i : nat) (f : forwarder) (s : state) : state :=
  let '(queues, bus) := pubsub.Unsub (sub f) (topic f) (chans s) (dropBoxPubSub s) in
  set_at i Exited
    {| srv := srv s; chans := queues; dropBoxPubSub := bus; closed := closed s;
       pkgs_closed := pkgs_closed s; subs := subs s; waitGroup := pred (waitGroup s);
       reading := reading s; writing := writing s; stopping := stopping s;
       forwarders := forwarders s; conn_closed := conn_closed s; wire := wire s;
       panicked := panicked s |}.

Definition forward_closed (i : nat) (s : state) : option state :=
  match forwarders s !! i with
  | Some f =>
      match at_ f with
      | Select => if closed s then Some (forward_return i f s) else None
      | _ => None
      end
  | None => None
  end.

Definition forward_sub (i : nat) (s : state) : option state :=
  match forwarders s !! i with
  | Some f =>
      match at_ f, chans s !! sub f with
      | Select, Some ch =>
          match recv ch with
          | Received (Some pkg) ch' =>
              Some (set_at i (Sending (x01 :: boxID f ++ pkg))
                      (set_chans (<[sub f := ch']> (chans s)) s))
          | Received None _ => Some (forward_return i f s)
          | RecvBlocks => None
          end
      | _, _ => None
      end
  | None => None
  end.

(** [pl.pkgs <- bytes] meets the receive of [write]'s [range] loop, the
    channel being unbuffered; [ok] is whether [WriteMessage] succeeds,
    and a failed write ends [write]. *)
Definition forward_send (i : nat) (ok : bool) (s : state) : option state :=
  match forwarders s !! i with
  | Some f =>
      match at_ f with
      | Sending frame =>
          if pkgs_closed s then Some (set_panicked true s)
          else if writing s
          then Some (set_at i Select
                       (if ok then set_wire (wire s ++ [frame]) s
                        else set_writing false s))
          else None
      | _ => None
      end
  | None => None
  end.

(** The [range] loop of [write] ends when [pl.pkgs] is closed. *)
Definition write_end (s : state) : option state :=
  if writing s && pkgs_closed s then Some (set_writing false s) else None.

(** [stop]: woken by the close of [pl.closed], it closes every
    subscription reader's channel, then waits for the wait group, then
    closes the connection and [pl.pkgs]. *)
Definition stop_wake (s : state) : option state :=
  match stopping s with
  | StopWaiting =>
      if closed s
      then Some (set_stopping StopJoining
                   (set_subs ((fun sr => {| sr_sub := sr_sub sr; sr_closed := true |})
                              <$> subs s) s))
      else None
  | _ => None
  end.

Definition stop_join (s : state) : option state :=
  match stopping s with
  | StopJoining =>
      if (waitGroup s =? 0)%nat
      then Some (if pkgs_closed s then set_panicked true s
                 else set_stopping StopDone
                        (set_pkgs_closed true (set_conn_closed true s)))
      else None
  | _ => None
  end.

(** The events of a session, as for the socket server; one turn of the
    read loop is one event. *)
Inductive event :=
| Read (r : readResult)
| FwdClosed (i : nat)
| FwdSub (i : nat)
| FwdSend (i : nat) (ok : bool)
| WrEnd
| StopWake
| StopJoin
| PubPkg (item : bytes) (topic : string)
| StorePut (box pkg : bytes).

Definition step (e : event) (s : state) : option state :=
  if panicked s then None
  else
    match e with
    | Read r => if reading s then Some (read r s) else None
    | FwdClosed i => forward_closed i s
    | FwdSub i => forward_sub i s
    | FwdSend i ok => forward_send i ok s
    | WrEnd => write_end s
    | StopWake => stop_wake s
    | StopJoin => stop_join s
    | PubPkg item topic =>
        (fun q => set_chans q s) <$> pubsub.Pub item topic (chans s) (dropBoxPubSub s)
    | StorePut box pkg =>
        Some (set_srv {| dropboxes := <[box := pkg]> (dropboxes (srv s));
                         kvlog := kvlog (srv s) ++ [Update];
                         pubs := pubs (srv s) |} s)
    end.

Fixpoint run (es : list event) (s : state) : option state :=
  match es with
  | [] => Some s
  | e :: rest =>
      match step e s with
      | Some s' => run rest s'
      | None => None
      end
  end.

Definition session (store : server) : state := start store [] ∅.

Definition internal (e : event) : bool :=
  match e with
  | FwdSub _ | FwdSend _ true => true
  | _ => false
  end.

(** The session is in state Running: both loops are alive and the package
    channel is open. *)
Definition running (s : state) : Prop :=
  reading s = true /\ writing s = true /\ panicked s = false /\ pkgs_closed s = false.

End packageListener.

(** ** The socket handshakes *)

(** An upgrade request: the Sec-Websocket-Protocol header ([None] when
    absent) and whether the websocket upgrader accepts the request. *)
Record upgradeRequest := {
  Sec_Websocket_Protocol : option string;
  handshake_ok : bool;
}.

(** [r.Header.Get]: the empty string for a missing header. *)
Definition Header_Get (h : option string) : string := default EmptyString h.

(** The handler either answers the request itself or upgrades it and
    starts a session. *)
Inductive handshake (S : Type) :=
| Answered (r : response)
| Upgraded (s : S).
Arguments Answered {S} r.
Arguments Upgraded {S} s.

Section gate.

(** The authentication gate [verifyAccessToken], taken as given: the user
    id of a token, 0 for an invalid one, or an error ([None]). *)
Variable verifyAccessToken : string -> option Z.

(** GET /sockets *)
Definition createSocketHandler (req : upgradeRequest) (store : gmap bytes bytes)
    : handshake socketServer.state :=
  let token := Header_Get (Sec_Websocket_Protocol req) in
  match verifyAccessToken token with
  | None => Answered InternalErr
  | Some userID =>
      if userID =? 0 then Answered InvalidAccessToken
      else if negb (handshake_ok req) then Answered UpgradeFailed
      else Upgraded (socketServer.session userID store)
  end.

End gate.

(** GET /drop-boxes/watch.  The handler reads no header. *)
Definition createPackageWatcherHandler (req : upgradeRequest) (store : server)
    : handshake packageListener.state :=
  if negb (handshake_ok req) then Answered UpgradeFailed
  else Upgraded (packageListener.session store).

Definition answer {S} (h : handshake S) : response :=
  match h with
  | Answered r => r
  | Upgraded _ => SwitchingProtocols
  end.

Definition upgraded {S} (h : handshake S) : bool :=
  match h with
  | Answered _ => false
  | Upgraded _ => true
  end.

(** The frames of claim C7, relative to the set of watched topics: a
    NOP, a WATCH for a watched box, an IGNORE for a box that is not
    watched, and a frame whose opcode is 3 or more. *)
Inductive noop_frame (watched : string -> Prop) : bytes -> Prop :=
| noop_nop payload : noop_frame watched (socketCmdNop :: payload)
| noop_watch box :
    watched (hex.EncodeToString box) -> noop_frame watched (socketCmdWatch :: box)
| noop_ignore box :
    ~ watched (hex.EncodeToString box) -> noop_frame watched (socketCmdIgnore :: box)
| noop_unknown op payload :
    3 <= Z_of_byte op -> noop_frame watched (op :: payload).

(** The box ids a request names: the path segment of a PUT, the form
    names of the parts of a multipart POST. *)
Definition part_id (p : partResult) : option bytes :=
  match p with
  | NextPartErr => None
  | PartOf hexBoxID _ => Some (hex.DecodeString hexBoxID).1
  end.

Definition part_ids (parts : list partResult) : list bytes := omap part_id parts.

Definition names_box (B : bytes) (req : request) : Prop :=
  match req with
  | GET _ => False
  | PUT box_id _ _ => (hex.DecodeString box_id).1 = B
  | POST_send rdr _ _ _ => B ∈ part_ids (default [] rdr)
  end.

Definition is_PUT (req : request) : bool :=
  match req with PUT _ _ _ => true | _ => false end.

(** A form name the multipart handler refuses: not hex, or not 16 bytes. *)
Definition bad_name (p : partResult) : bool :=
  match p with
  | NextPartErr => false
  | PartOf hexBoxID _ =>
      let '(boxID, ok) := hex.DecodeString hexBoxID in
      negb (ok && (length boxID =? dropBoxIDSize)%nat)
  end.

(** [quiet B reqs srv]: served from [srv] on, no request of [reqs] that
    names box [B] is answered 200. *)
Fixpoint quiet (B : bytes) (reqs : list request) (srv : server) : Prop :=
  match reqs with
  | [] => True
  | req :: rest =>
      (names_box B req -> status (handle req srv).1 <> 200)
      /\ quiet B rest (handle req srv).2
  end.

(** Data for the examples: the box id of the spec's scenarios, and an
    empty server. *)
Definition box0 : bytes :=
  [x00; x11; x22; x33; x44; x55; x66; x77; x88; x99; xaa; xbb; xcc; xdd; xee; xff].
Definition hexbox0 : string := "00112233445566778899aabbccddeeff".
Definition server0 : server := {| dropboxes := ∅; kvlog := []; pubs := [] |}.

(** A socket-server session of user 7 over a store that holds the
    package "X" in [box0], after it watched [box0] and the package was
    written to the peer. *)
Definition store0 : gmap bytes bytes := <[box0 := [x58]]> ∅.

Definition watching0 : socketServer.state :=
  default (socketServer.session 7 store0)
    (socketServer.run
       [socketServer.Read (ReadMsg true (socketCmdWatch :: box0)) true;
        socketServer.FwdSub 0; socketServer.FwdSend 0; socketServer.WrPkg true]
       (socketServer.session 7 store0)).

(** ** Invariants of the socket server

    [open_at queues c]: the queue with handle [c] exists and is open. *)
Definition open_at (queues : list chan) (c : nat) : Prop :=
  chan_closed <$> queues !! c = Some false.

(** What holds in every state a socket-server session can reach: the
    reader closes [ss.closed] as it returns; no goroutine runs [stop]; the
    message subscription and every subscription of [ss.pkgSubs] is
    registered on its bus with an open queue; handles are not shared; and
    until [ss.closed] is closed, every subscription of [ss.pkgSubs] has its
    forwarding goroutine alive. *)
Record ss_inv (s : socketServer.state) : Prop := {
  inv_closed : socketServer.reading s = true -> socketServer.closed s = false;
  inv_stopping : socketServer.stopping s = false;
  inv_messages_open : open_at (socketServer.chans s) (socketServer.messages s);
  inv_messages_sub :
    socketServer.messages s
    ∈ default [] (socketServer.messagesPubSub s !! socketServer.userID s);
  inv_subs : forall h c, socketServer.pkgSubs s !! h = Some c ->
    c <> socketServer.messages s
    /\ open_at (socketServer.chans s) c
    /\ c ∈ default [] (socketServer.dropBoxPubSub s !! h);
  inv_inj : forall h1 h2 c,
    socketServer.pkgSubs s !! h1 = Some c -> socketServer.pkgSubs s !! h2 = Some c ->
    h1 = h2;
  inv_alive : socketServer.closed s = false ->
    forall h c, socketServer.pkgSubs s !! h = Some c ->
    exists i f, socketServer.forwarders s !! i = Some f
                /\ socketServer.sub f = c /\ socketServer.at_ f <> Exited;
}.

(** The situation after an IGNORE: the writer is alive, [ss.pkgs] is open
    and empty, forwarder [i] stands at [a], is subscribed to queue [c], and
    queue [c] is closed with [q] left in it. *)
Definition focus (i c : nat) (q : list bytes) (a : pc) (s : socketServer.state) : Prop :=
  socketServer.writing s = true /\ socketServer.panicked s = false
  /\ socketServer.pkgs s = {| buf := []; chan_closed := false |}
  /\ (exists f, socketServer.forwarders s !! i = Some f
                /\ socketServer.sub f = c /\ socketServer.at_ f = a)
  /\ socketServer.chans s !! c = Some {| buf := q; chan_closed := true |}.

(** The package-listener session of the spec's scenarios. *)
Definition server1 : server := {| dropboxes := store0; kvlog := []; pubs := [] |}.

(** The failing input of claim C2: a session watches [box0], the read
    fails (the connection closed), and every goroutine returns. *)
Definition ss_close_trace : list socketServer.event :=
  [socketServer.Read (ReadMsg true (socketCmdWatch :: box0)) true;
   socketServer.Read ReadErr true; socketServer.FwdClosed 0; socketServer.WrClosed].

Definition ss_closed0 : socketServer.state :=
  default (socketServer.session 7 store0)
    (socketServer.run ss_close_trace (socketServer.session 7 store0)).

Definition pl_close_trace : list packageListener.event :=
  [packageListener.Read (ReadMsg true (socketCmdWatch :: box0));
   packageListener.Read ReadErr; packageListener.FwdClosed 0;
   packageListener.StopWake; packageListener.StopJoin; packageListener.WrEnd].

Definition pl_closed0 : packageListener.state :=
  default (packageListener.session server1)
    (packageListener.run pl_close_trace (packageListener.session server1)).

(** * Beyond the claims: the rest of the code *)

(** Whether every character of [s] is a hex digit, and whether one of them
    is an upper-case digit ['A'..'F']. *)
Fixpoint all_hex (s : string) : bool :=
  match s with
  | EmptyString => true
  | String c rest => bool_decide (is_Some (hex.fromHexChar c)) && all_hex rest
  end.

Definition is_upper_hex (c : ascii) : bool :=
  let n := Z.of_N (N_of_ascii c) in (65 <=? n) && (n <=? 70).

Fixpoint has_upper_hex (s : string) : bool :=
  match s with
  | EmptyString => false
  | String c rest => is_upper_hex c || has_upper_hex rest
  end.

(** The data of the last part of a multipart body that carries the form
    name [name]. *)
Fixpoint last_part (name : string) (parts : list partResult) : option bytes :=
  match parts with
  | [] => None
  | p :: rest =>
      match last_part name rest with
      | Some data => Some data
      | None =>
          match p with
          | PartOf n (Some data) => if bool_decide (n = name) then Some data else None
          | _ => None
          end
      end
  end.

(** Every key of the drop-boxes bucket is a 16-byte box id, and every
    value is within bolt's value size. *)
Definition store_wf (srv : server) : Prop :=
  forall k v, dropboxes srv !! k = Some v ->
    length k = dropBoxIDSize /\ Z.of_nat (length v) <= bolt.MaxValueSize.

(** ** The log level (log.go) *)

(** [type logLevel int] and its values. *)
Definition logLevelDebug : Z := 1.
Definition logLevelInfo : Z := 2.
Definition logLevelWarn : Z := 3.
Definition logLevelError : Z := 4.

Definition validLogLevel (lvl : Z) : bool :=
  if lvl =? logLevelDebug then true
  else if lvl =? logLevelInfo then true
  else if lvl =? logLevelWarn then true
  else if lvl =? logLevelError then true
  else false.

(** The four predicates read the global [currLogLevel]. *)
Definition shouldLogDebug (currLogLevel : Z) : bool := currLogLevel <=? logLevelDebug.
Definition shouldLogInfo (currLogLevel : Z) : bool := currLogLevel <=? logLevelInfo.
Definition shouldLogWarn (currLogLevel : Z) : bool := currLogLevel <=? logLevelWarn.
Definition shouldLogError (currLogLevel : Z) : bool := currLogLevel <=? logLevelError.

(** What the two handlers of /log-level answer: [sendSuccess] with the
    JSON object that holds the level, or [sendBadReq]. *)
Inductive logLevelReply :=
| LogLevelSuccess (log_level : Z)
| LogLevelBadReq (reason : string).

(** GET /log-level *)
Definition logLevelHandler (currLogLevel : Z) : logLevelReply :=
  LogLevelSuccess currLogLevel.

(** PUT /log-level.  [body] is what the JSON decoder made of the request
    body ([None]: it failed); the result is the answer and [currLogLevel]
    afterwards. *)
Definition setLogLevelHandler (body : option Z) (currLogLevel : Z) : logLevelReply * Z :=
  match body with
  | None => (LogLevelBadReq "invalid PUT body", currLogLevel)
  | Some LogLevel =>
      if negb (validLogLevel LogLevel) then (LogLevelBadReq "invalid log level", currLogLevel)
      else (LogLevelSuccess LogLevel, LogLevel)
  end.

(** [currLogLevel] after a sequence of PUT /log-level requests. *)
Fixpoint setLogLevels (bodies : list (option Z)) (currLogLevel : Z) : Z :=
  match bodies with
  | [] => currLogLevel
  | body :: rest => setLogLevels rest (setLogLevelHandler body currLogLevel).2
  end.

(** The last body of a sequence that holds a valid level. *)
Fixpoint last_valid (bodies : list (option Z)) : option Z :=
  match bodies with
  | [] => None
  | body :: rest =>
      match last_valid rest with
      | Some lvl => Some lvl
      | None =>
          match body with
          | Some lvl => if validLogLevel lvl then Some lvl else None
          | None => None
          end
      end
  end.

(** ** Email verification (email.go) *)

Module email.

(** The error codes given to [sendBadReqCode]. *)
Inductive errorCode := errorBadRequest | errorMissingVerificationToken.

(** The response helpers a handler calls, in the order of the calls. *)
Inductive reply :=
| sendBadReq (reason : string)
| sendBadReqCode (reason : string) (code : errorCode)
| sendInternalErr
| sendSuccess.

(** The fields of an email verification token record that are read. *)
Record tokenRecord := { Email : string; UserID : Z }.

(** The calls a handler makes on the relational store [rs]. *)
Inductive rsCall :=
| EmailVerificationTokenRecord (token : string)
| VerifyEmail (email : string) (userID : Z)
| DisavowEmail (token : string).

(** What the store answers while a handler runs: for a token its record
    ([Some None]: no record, [None]: an error), and whether [VerifyEmail]
    and [DisavowEmail] return a nil error. *)
Record relstor := {
  tokenRecordOf : string -> option (option tokenRecord);
  verifyEmailOk : string -> Z -> bool;
  disavowEmailOk : string -> bool;
}.

(** POST /email-verifications.  [body] is the token of the decoded JSON
    body ([None]: the decoder failed).  The branch for the empty token
    does not return. *)
Definition verifyEmailHandler (rs : relstor) (body : option string)
    : list reply * list rsCall :=
  match body with
  | None => ([sendBadReq "unable to parse POST body"], [])
  | Some Token =>
      let missing :=
        if bool_decide (Token = EmptyString)
        then [sendBadReqCode "Missing verification token" errorBadRequest]
        else [] in
      match tokenRecordOf rs Token with
      | None => (missing ++ [sendInternalErr], [EmailVerificationTokenRecord Token])
      | Some None =>
          (missing ++ [sendBadReqCode "Invalid token" errorMissingVerificationToken],
           [EmailVerificationTokenRecord Token])
      | Some (Some evtr) =>
          let calls :=
            [EmailVerificationTokenRecord Token; VerifyEmail (Email evtr) (UserID evtr)] in
          if negb (verifyEmailOk rs (Email evtr) (UserID evtr))
          then (missing ++ [sendInternalErr], calls)
          else (missing ++ [sendSuccess], calls)
      end
  end.

(** DELETE /email-verifications/{token} *)
Definition disavowEmailHandler (rs : relstor) (token : string)
    : list reply * list rsCall :=
  if bool_decide (token = EmptyString)
  then ([sendBadReqCode "Invalid token" errorMissingVerificationToken], [])
  else if negb (disavowEmailOk rs token) then ([sendInternalErr], [DisavowEmail token])
  else ([sendSuccess], [DisavowEmail token]).

End email.

(** ** Random strings (utils.go) *)

(** [gAlphaNums]: the split of the alphabet into one-character strings. *)
Definition gAlphaNums : list string :=
  (fun c => String c EmptyString)
  <$> list_ascii_of_string "abcdefghijklmnopqrstuvwxyzABCDEFGHIJKLMNOPQRSTUVWXYZ0123456789".

(** What the random sources hand out: a value of [crand.Int], or, when
    that failed, a value of [rand.Int63n]. *)
Inductive entropy := Crand (val : Z) | Rand (val : Z).

(** [crandUint64n]: both sources panic ([None]) on a bound that is not
    positive, the fallback after the conversion of the bound to [int64];
    the value is converted to [uint64]. *)
Definition crandUint64n (e : entropy) (n : Z) : option Z :=
  match e with
  | Crand val => if n <=? 0 then None else Some (val mod 2 ^ 64)
  | Rand val => if to_int64 n <=? 0 then None else Some (val mod 2 ^ 64)
  end.

(** The loop of [randAlphaNum] from iteration [i] on, [count] iterations
    to go; an index outside [gAlphaNums] panics. *)
Fixpoint randAlphaNum_loop (rnd : nat -> entropy) (i count : nat) (s : string)
    : option string :=
  match count with
  | O => Some s
  | S count' =>
      match crandUint64n (rnd i) (Z.of_nat (length gAlphaNums)) with
      | Some idx =>
          match gAlphaNums !! Z.to_nat idx with
          | Some a => randAlphaNum_loop rnd (S i) count' (String.append s a)
          | None => None
          end
      | None => None
      end
  end.

Definition randAlphaNum (rnd : nat -> entropy) (length : Z) : option string :=
  randAlphaNum_loop rnd 0 (Z.to_nat length) EmptyString.

Definition entropy_val (e : entropy) : Z :=
  match e with Crand val | Rand val => val end.

Definition is_alphanum (c : ascii) : bool :=
  let n := Z.of_N (N_of_ascii c) in
  ((48 <=? n) && (n <=? 57)) || ((65 <=? n) && (n <=? 90)) || ((97 <=? n) && (n <=? 122)).

(** Whether every character of [s] satisfies [p]. *)
Fixpoint string_forall (p : ascii -> bool) (s : string) : bool :=
  match s with
  | EmptyString => true
  | String c rest => p c && string_forall p rest
  end.

(** ** Invariants of the package listener *)

(** Whether a goroutine has returned. *)
Definition returned (p : pc) : bool :=
  match p with Exited => true | _ => false end.

(** The number of forwarding goroutines that have not returned. *)
Fixpoint pl_live (fs : list packageListener.forwarder) : nat :=
  match fs with
  | [] => 0
  | f :: rest => (if returned (packageListener.at_ f) then 0 else 1) + pl_live rest
  end.

(** Every handle the bus lists is a queue of the heap. *)
Definition bus_wf (queues : list chan) (bus : gmap string (list nat)) : Prop :=
  forall t c, c ∈ default [] (bus !! t) -> (c < length queues)%nat.

(** The states a package listener can reach, whatever the store, the
    heap and the bus held when it started. *)
Definition pl_reachable (s : packageListener.state) : Prop :=
  exists store queues boxBus es,
    bus_wf queues boxBus
    /\ packageListener.run es (packageListener.start store queues boxBus) = Some s.

(** How the goroutines of a package listener follow each other: the
    reader closes [pl.closed] as it returns, [stop] waits for it, the wait
    group counts the forwarding goroutines that have not returned, and
    [pl.pkgs] and the connection are closed by [stop] alone, once. *)
Record pl_ctl (s : packageListener.state) : Prop := {
  ctl_panicked : packageListener.panicked s = false;
  ctl_reading : packageListener.reading s = true -> packageListener.closed s = false;
  ctl_waiting :
    packageListener.closed s = false -> packageListener.stopping s = packageListener.StopWaiting;
  ctl_open :
    packageListener.stopping s <> packageListener.StopDone ->
    packageListener.pkgs_closed s = false /\ packageListener.conn_closed s = false;
  ctl_done :
    packageListener.stopping s = packageListener.StopDone ->
    packageListener.pkgs_closed s = true /\ packageListener.conn_closed s = true
    /\ packageListener.waitGroup s = 0%nat;
  ctl_wg : packageListener.waitGroup s = pl_live (packageListener.forwarders s);
}.

(** A frame for box [B]: the opcode, the box id, the package. *)
Definition framed (B : bytes) (frame : bytes) : Prop :=
  exists p, frame = x01 :: B ++ p.

(** What the forwarding goroutines of a package listener hold and what
    was written to the peer. *)
Record pl_fmt (s : packageListener.state) : Prop := {
  fmt_forwarders :
    forall i f, packageListener.forwarders s !! i = Some f ->
      length (packageListener.boxID f) = dropBoxIDSize
      /\ packageListener.topic f = hex.EncodeToString (packageListener.boxID f)
      /\ forall frame, packageListener.at_ f = Sending frame ->
           framed (packageListener.boxID f) frame;
  fmt_wire :
    forall frame, frame ∈ packageListener.wire s ->
      exists B, B ∈ packageListener.boxID <$> packageListener.forwarders s
                /\ framed B frame;
}.

(** The subscriptions of a package listener on the bus: a goroutine that
    has not returned is subscribed on its topic and nowhere else, with a
    handle of its own; one that has returned is subscribed nowhere and its
    queue is closed. *)
Record pl_bus (s : packageListener.state) : Prop := {
  bus_handles : bus_wf (packageListener.chans s) (packageListener.dropBoxPubSub s);
  bus_lt : forall i f, packageListener.forwarders s !! i = Some f ->
    (packageListener.sub f < length (packageListener.chans s))%nat;
  bus_inj : forall i j fi fj,
    packageListener.forwarders s !! i = Some fi ->
    packageListener.forwarders s !! j = Some fj ->
    packageListener.sub fi = packageListener.sub fj -> i = j;
  bus_live : forall i f, packageListener.forwarders s !! i = Some f ->
    returned (packageListener.at_ f) = false ->
    packageListener.sub f
      ∈ default [] (packageListener.dropBoxPubSub s !! packageListener.topic f)
    /\ forall t, packageListener.sub f ∈ default [] (packageListener.dropBoxPubSub s !! t) ->
         t = packageListener.topic f;
  bus_returned : forall i f, packageListener.forwarders s !! i = Some f ->
    packageListener.at_ f = Exited ->
    (forall t, packageListener.sub f ∉ default [] (packageListener.dropBoxPubSub s !! t))
    /\ chan_closed <$> packageListener.chans s !! packageListener.sub f = Some true;
}.

(** [set_at] changes where a forwarder stands and nothing else. *)
Definition with_at (p : pc) (f : packageListener.forwarder) : packageListener.forwarder :=
  {| packageListener.topic := packageListener.topic f;
     packageListener.boxID := packageListener.boxID f;
     packageListener.sub := packageListener.sub f;
     packageListener.at_ := p |}.

(** The moves of a package listener that winds down: forwarders see
    [pl.closed] or hand a frame to a writer whose write succeeds, [stop]
    goes on, the writer sees [pl.pkgs] closed. *)
Definition pl_winding_down (e : packageListener.event) : bool :=
  match e with
  | packageListener.FwdClosed _ | packageListener.FwdSend _ true
  | packageListener.WrEnd | packageListener.StopWake | packageListener.StopJoin => true
  | _ => false
  end.

(** While the reader of a package listener runs: every forwarding
    goroutine is alive and its queue is open, and every entry of [pl.subs]
    has its forwarding goroutine. *)
Record pl_link (s : packageListener.state) : Prop := {
  link_open : forall i f, packageListener.forwarders s !! i = Some f ->
    returned (packageListener.at_ f) = false ->
    chan_closed <$> packageListener.chans s !! packageListener.sub f = Some false;
  link_alive : packageListener.closed s = false ->
    forall i f, packageListener.forwarders s !! i = Some f ->
      returned (packageListener.at_ f) = false;
  link_subs : forall h sr, packageListener.subs s !! h = Some sr ->
    exists i f, packageListener.forwarders s !! i = Some f
                /\ packageListener.topic f = h
                /\ packageListener.sub f = packageListener.sr_sub sr;
}.

(** Forwarder [i] of a package listener in state Running, with what it
    holds: it stands at [a], forwards box [B], and its queue [c] holds
    [q]. *)
Definition pl_focus (i : nat) (B : bytes) (c : nat) (q : list bytes) (a : pc)
    (s : packageListener.state) : Prop :=
  packageListener.writing s = true /\ packageListener.panicked s = false
  /\ packageListener.pkgs_closed s = false
  /\ (exists f, packageListener.forwarders s !! i = Some f
                /\ packageListener.boxID f = B /\ packageListener.sub f = c
                /\ packageListener.at_ f = a)
  /\ exists b, packageListener.chans s !! c = Some {| buf := q; chan_closed := b |}.

(** A PUT served while a package listener runs.  The handler works on
    the store the listener reads, and [dropBoxPubSub] is the one bus of the
    process: what the handler publishes goes to the queues the listener is
    subscribed with.  [None]: the handler blocks in [Pub] on a full
    queue. *)
Definition pl_PUT (box_id : string) (body : option bytes) (commit : bool)
    (s : packageListener.state) : option (response * packageListener.state) :=
  let '(r, srv') := dropPackageHandler box_id body commit (packageListener.srv s) in
  let s1 := packageListener.set_srv srv' s in
  match r, body with
  | Success, Some pkg =>
      (fun queues => (r, packageListener.set_chans queues s1))
      <$> pubsub.Pub pkg box_id (packageListener.chans s) (packageListener.dropBoxPubSub s)
  | _, _ => Some (r, s1)
  end.

(** ** More invariants of the socket server *)

(** What the forwarding goroutines of a socket server hold: a 16-byte box
    id, its hex string as topic, a queue of the heap; and the entry of
    [ss.pkgSubs] for a queue is under the topic of its forwarder. *)
Record ss_fmt (s : socketServer.state) : Prop := {
  sfmt_forwarders : forall i f, socketServer.forwarders s !! i = Some f ->
    length (socketServer.boxID f) = dropBoxIDSize
    /\ socketServer.hexID f = hex.EncodeToString (socketServer.boxID f)
    /\ (socketServer.sub f < length (socketServer.chans s))%nat;
  sfmt_link : forall h c i f,
    socketServer.pkgSubs s !! h = Some c -> socketServer.forwarders s !! i = Some f ->
    socketServer.sub f = c -> socketServer.hexID f = h;
}.

(** Forwarder [i] of a socket server whose writer is alive and whose
    package channel is open and empty: it stands at [a], forwards box [B],
    and its queue [c] holds [q] and is closed or not ([b]). *)
Definition ss_focus (i : nat) (B : bytes) (c : nat) (b : bool) (q : list bytes) (a : pc)
    (s : socketServer.state) : Prop :=
  socketServer.writing s = true /\ socketServer.panicked s = false
  /\ socketServer.pkgs s = {| buf := []; chan_closed := false |}
  /\ (exists f, socketServer.forwarders s !! i = Some f
                /\ socketServer.boxID f = B /\ socketServer.sub f = c
                /\ socketServer.at_ f = a)
  /\ socketServer.chans s !! c = Some {| buf := q; chan_closed := b |}.

(** [s'] differs from [s] at most in forwarder [i], queue [c], the
    package channel, the writer and the wire. *)
Definition ss_frame (i c : nat) (s s' : socketServer.state) : Prop :=
  (forall j, j <> i -> socketServer.forwarders s' !! j = socketServer.forwarders s !! j)
  /\ (forall c', c' <> c -> socketServer.chans s' !! c' = socketServer.chans s !! c').

(** More data for the examples: a second box; a package listener over
    [server1] that watched [box0] and wrote its package to the peer; the
    same listener after a failed write, with a frame in the hands of its
    forwarder; and a socket-server session that watches two boxes. *)
Definition box1 : bytes :=
  [xff; xee; xdd; xcc; xbb; xaa; x99; x88; x77; x66; x55; x44; x33; x22; x11; x00].

Definition pl_watch_trace : list packageListener.event :=
  [packageListener.Read (ReadMsg true (clientCmdWatch :: box0));
   packageListener.FwdSub 0; packageListener.FwdSend 0 true].

Definition pl_watching0 : packageListener.state :=
  default (packageListener.session server1)
    (packageListener.run pl_watch_trace (packageListener.session server1)).

Definition pl_strand_trace : list packageListener.event :=
  [packageListener.Read (ReadMsg true (clientCmdWatch :: box0));
   packageListener.FwdSub 0; packageListener.FwdSend 0 false;
   packageListener.PubPkg [x41] hexbox0; packageListener.FwdSub 0].

Definition pl_stranded0 : packageListener.state :=
  default (packageListener.session server1)
    (packageListener.run pl_strand_trace (packageListener.session server1)).

Definition pl_hangup_trace : list packageListener.event :=
  [packageListener.Read (ReadMsg true (clientCmdWatch :: box0));
   packageListener.Read ReadErr].

Definition pl_hungup0 : packageListener.state :=
  default (packageListener.session server1)
    (packageListener.run pl_hangup_trace (packageListener.session server1)).

Definition ss_watch2_trace : list socketServer.event :=
  [socketServer.Read (ReadMsg true (socketCmdWatch :: box0)) true;
   socketServer.Read (ReadMsg true (socketCmdWatch :: box1)) true].

Definition ss_watching2 : socketServer.state :=
  default (socketServer.session 7 store0)
    (socketServer.run ss_watch2_trace (socketServer.session 7 store0)).

(** * Properties *)

Lemma Z_of_byte_range b : 0 <= Z_of_byte b < 256.
Proof.
  unfold Z_of_byte. pose proof (Byte.to_N_bounded b). lia.
Qed.

Lemma Z_of_byte_of_Z z : Z_of_byte (byte_of_Z z) = z mod 256.
Proof.
  unfold Z_of_byte, byte_of_Z.
  assert (Hr : 0 <= z mod 256 < 256) by (apply Z.mod_pos_bound; lia).
  destruct (Byte.of_N (Z.to_N (z mod 256))) as [b|] eqn:E.
  - apply Byte.to_of_N in E. rewrite E. lia.
  - apply Byte.of_N_None_iff in E. lia.
Qed.

Lemma byte_of_Z_of_byte b : byte_of_Z (Z_of_byte b) = b.
Proof.
  unfold byte_of_Z. pose proof (Z_of_byte_range b) as Hr.
  rewrite Z.mod_small by lia. unfold Z_of_byte.
  rewrite N2Z.id, Byte.of_to_N. reflexivity.
Qed.

Lemma testbit_byte_of_Z x n :
  Z.testbit (Z_of_byte (byte_of_Z x)) n = ((0 <=? n) && (n <? 8) && Z.testbit x n)%bool.
Proof.
  rewrite Z_of_byte_of_Z. change 256 with (2 ^ 8).
  destruct (Z.leb_spec 0 n) as [Hn|Hn].
  - rewrite Z.testbit_mod_pow2 by lia. reflexivity.
  - rewrite Z.testbit_neg_r by lia. reflexivity.
Qed.

Lemma testbit_byte_slice u k n :
  0 <= k -> 0 <= n ->
  Z.testbit (Z_of_byte (byte_of_Z (Z.shiftr u k))) (n - k)
  = ((k <=? n) && (n <? k + 8) && Z.testbit u n)%bool.
Proof.
  intros Hk Hn. rewrite testbit_byte_of_Z.
  destruct (Z.leb_spec k n) as [H|H].
  - rewrite Z.shiftr_spec by lia. replace (n - k + k) with n by lia.
    replace (0 <=? n - k) with true by lia.
    replace (n - k <? 8) with (n <? k + 8) by lia. reflexivity.
  - replace (0 <=? n - k) with false by lia. reflexivity.
Qed.

Lemma Uint64_PutUint64 u :
  match PutUint64 u with
  | [b0; b1; b2; b3; b4; b5; b6; b7] => Uint64 b0 b1 b2 b3 b4 b5 b6 b7 = u mod 2 ^ 64
  | _ => False
  end.
Proof.
  unfold PutUint64, Uint64. apply Z.bits_inj'. intros n Hn.
  rewrite (Z.testbit_mod_pow2 u 64 n) by lia.
  rewrite !Z.lor_spec, !Z.shiftl_spec by lia.
  rewrite !testbit_byte_slice by lia. rewrite testbit_byte_of_Z.
  destruct (Z.testbit u n); rewrite ?andb_false_r, ?andb_true_r; cbn [orb]; [|lia].
  assert (Hc : 0 <= n < 8 \/ 8 <= n < 16 \/ 16 <= n < 24 \/ 24 <= n < 32 \/
               32 <= n < 40 \/ 40 <= n < 48 \/ 48 <= n < 56 \/ 56 <= n < 64 \/
               64 <= n) by lia.
  repeat (destruct Hc as [Hc|Hc]); lia.
Qed.

Lemma to_int64_mod i : is_int64 i -> to_int64 (i mod 2 ^ 64) = i.
Proof.
  unfold is_int64, int64_min, int64_max, to_int64. intros Hi.
  rewrite Z.mod_mod by lia.
  destruct (Z.ltb_spec (i mod 2 ^ 64) (2 ^ 63)) as [H|H].
  - destruct (Z.neg_nonneg_cases i) as [Hneg|Hpos].
    + exfalso. assert (Hm : i mod 2 ^ 64 = i + 2 ^ 64).
      { symmetry. apply Z.mod_unique with (q := -1); lia. }
      lia.
    + apply Z.mod_small. lia.
  - destruct (Z.neg_nonneg_cases i) as [Hneg|Hpos].
    + assert (Hm : i mod 2 ^ 64 = i + 2 ^ 64).
      { symmetry. apply Z.mod_unique with (q := -1); lia. }
      lia.
    + rewrite Z.mod_small in H by lia. lia.
Qed.

(** C10.  For every int64 value [i], [int64ToBytes i] is exactly eight
    bytes, the k-th being bits 8k..8k+7 of the two's-complement pattern of
    [i] (little-endian); [bytesToInt64] inverts it; and [bytesToInt64]
    panics (returns [None]) on every input shorter than eight bytes. *)
Theorem int64ToBytes_roundtrip (i : Z) (Hi : is_int64 i) :
  length (int64ToBytes i) = 8%nat
  /\ (forall k : nat, (k < 8)%nat ->
        Z_of_byte <$> (int64ToBytes i !! k)
        = Some ((i mod 2 ^ 64) / 2 ^ (8 * Z.of_nat k) mod 256))
  /\ bytesToInt64 (int64ToBytes i) = Some i
  /\ (forall b : bytes, (length b < 8)%nat -> bytesToInt64 b = None).
Proof.
  split; [reflexivity|]. split; [|split].
  - intros k Hk. unfold int64ToBytes, PutUint64.
    do 8 (destruct k as [|k]; [cbn [lookup list_lookup fmap option_fmap option_map];
      rewrite Z_of_byte_of_Z, ?Z.shiftr_div_pow2 by lia;
      try (change (2 ^ (8 * Z.of_nat 0)) with 1; rewrite Z.div_1_r); reflexivity|]).
    lia.
  - pose proof (Uint64_PutUint64 (i mod 2 ^ 64)) as H.
    unfold int64ToBytes. unfold PutUint64 in *. cbn [bytesToInt64].
    rewrite H. rewrite Z.mod_mod by lia. f_equal. apply to_int64_mod, Hi.
  - intros b Hb.
    do 8 (destruct b as [|? b]; [reflexivity|]). cbn [length] in Hb. lia.
Qed.

Lemma int64ToBytes_roundtrip_witness :
  is_int64 (-2) /\ bytesToInt64 (int64ToBytes (-2)) = Some (-2).
Proof.
  assert (H : is_int64 (-2)) by (unfold is_int64, int64_min, int64_max; lia).
  split; [exact H|]. exact (proj1 (proj2 (proj2 (int64ToBytes_roundtrip (-2) H)))).
Defined.

(** ** The drop-box store and its REST handlers *)

Lemma bolt_Put_Some key value b b' :
  bolt.Put key value b = Some b' -> b' = <[key := value]> b.
Proof.
  unfold bolt.Put. repeat case_match; congruence.
Qed.

Lemma bolt_Update_spec commit fn b ok b' :
  bolt.Update commit fn b = (ok, b') ->
  (ok = true /\ commit = true /\ fn b = Some b') \/ (ok = false /\ b' = b).
Proof.
  unfold bolt.Update. destruct (fn b), commit; intros [= <- <-]; auto.
Qed.

Lemma parseDropBoxID_inr s boxID hexID :
  parseDropBoxID s = inr (boxID, hexID) ->
  hex.DecodeString s = (boxID, true) /\ length boxID = dropBoxIDSize /\ hexID = s.
Proof.
  unfold parseDropBoxID. destruct (hex.DecodeString s) as [b ok].
  destruct ok; cbn [negb]; [|discriminate].
  destruct (Nat.eqb_spec (length b) dropBoxIDSize); cbn [negb]; [|discriminate].
  intros [= <- <-]. auto.
Qed.

Lemma parseDropBoxID_inl s :
  (hex.DecodeString s).2 = false \/ length (hex.DecodeString s).1 <> dropBoxIDSize ->
  parseDropBoxID s = inl (BadReq "invalid drop box id").
Proof.
  unfold parseDropBoxID. destruct (hex.DecodeString s) as [b ok]. cbn [fst snd].
  intros [->|Hlen]; [reflexivity|].
  destruct ok; cbn [negb]; [|reflexivity].
  destruct (Nat.eqb_spec (length b) dropBoxIDSize); [contradiction|reflexivity].
Qed.

Lemma parseDropBoxID_inl_status s r : parseDropBoxID s = inl r -> status r = 400.
Proof.
  unfold parseDropBoxID. destruct (hex.DecodeString s) as [b ok].
  repeat case_match; intros [= <-]; reflexivity.
Qed.

Lemma parseDropBoxID_ok s boxID :
  hex.DecodeString s = (boxID, true) -> length boxID = dropBoxIDSize ->
  parseDropBoxID s = inr (boxID, s).
Proof.
  unfold parseDropBoxID. intros -> Hlen. cbn [negb].
  rewrite Hlen, Nat.eqb_refl. reflexivity.
Qed.

(** *** Iterating over a map *)

Lemma range_with_keys_in {V} (order : list string) (m : gmap string V) :
  let ks := remove_dups (filter (fun k => is_Some (m !! k)) order) in
  (omap (fun k => (fun v => (k, v)) <$> m !! k) ks).*1 = ks.
Proof.
  cbn zeta.
  assert (H : forall l : list string, Forall (fun k => is_Some (m !! k)) l ->
            (omap (fun k => (fun v => (k, v)) <$> m !! k) l).*1 = l).
  { induction 1 as [|k l [v Hv] _ IH]; [reflexivity|].
    cbn. rewrite Hv. cbn. by rewrite IH. }
  apply H. apply Forall_forall. intros k Hk.
  apply elem_of_remove_dups, list_elem_of_filter in Hk. tauto.
Qed.

Lemma elem_of_range_with {V} (order : list string) (m : gmap string V) k v :
  (k, v) ∈ range_with order m <-> m !! k = Some v.
Proof.
  unfold range_with. rewrite elem_of_app, list_elem_of_omap, list_elem_of_filter.
  setoid_rewrite elem_of_map_to_list. split.
  - intros [(k' & _ & Hk')|[_ ?]]; [|done].
    destruct (m !! k') eqn:E; simplify_eq/=. done.
  - intros Hkv.
    destruct (decide (k ∈ remove_dups (filter (fun k => is_Some (m !! k)) order))) as [Hin|Hin].
    + left. exists k. rewrite Hkv. done.
    + right. done.
Qed.

Lemma NoDup_range_with_keys {V} (order : list string) (m : gmap string V) :
  NoDup (range_with order m).*1.
Proof.
  unfold range_with. rewrite fmap_app, range_with_keys_in.
  apply NoDup_app. split; [apply NoDup_remove_dups|]. split.
  - intros k Hk Hk'. apply list_elem_of_fmap in Hk' as ([k' v] & -> & Hkv).
    apply list_elem_of_filter in Hkv as [Hn _]. contradiction.
  - apply (sublist_NoDup _ ((map_to_list m).*1)).
    + apply NoDup_fst_map_to_list.
    + apply fmap_sublist, sublist_filter.
Qed.

(** *** The multipart loop *)

Lemma readParts_keys parts : forall m pkgs k,
  readParts parts m = inr pkgs -> is_Some (pkgs !! k) ->
  is_Some (m !! k) \/ exists data, PartOf k (Some data) ∈ parts.
Proof.
  induction parts as [|p parts IH]; intros m pkgs k Hr Hk.
  - cbn in Hr. injection Hr as <-. auto.
  - destruct p as [|name [data|]]; cbn in Hr; try discriminate.
    destruct (hex.DecodeString name) as [b ok]. destruct ok; cbn in Hr; [|discriminate].
    destruct (negb (length b =? dropBoxIDSize)%nat); [discriminate|].
    destruct (IH _ _ k Hr Hk) as [Hm|[d Hd]].
    + destruct (decide (name = k)) as [->|Hne].
      * right. exists data. left.
      * rewrite lookup_insert_ne in Hm by done. auto.
    + right. exists d. by right.
Qed.

Lemma readParts_valid parts : forall m pkgs,
  readParts parts m = inr pkgs ->
  Forall (fun p => exists name data, p = PartOf name (Some data)
                   /\ (hex.DecodeString name).2 = true
                   /\ length (hex.DecodeString name).1 = dropBoxIDSize) parts.
Proof.
  induction parts as [|p parts IH]; intros m pkgs Hr; [constructor|].
  destruct p as [|name [data|]]; cbn in Hr; try discriminate.
  destruct (hex.DecodeString name) as [b ok] eqn:E.
  destruct ok; cbn in Hr; [|discriminate].
  destruct (Nat.eqb_spec (length b) dropBoxIDSize); cbn in Hr; [|discriminate].
  constructor; [|by eapply IH].
  exists name, data. rewrite E. auto.
Qed.

Lemma readParts_bad parts : forall m,
  (exists p, p ∈ parts /\ bad_name p = true) ->
  exists reason, readParts parts m = inl (BadReq reason).
Proof.
  induction parts as [|p parts IH]; intros m (q & Hq & Hbad).
  - by apply elem_of_nil in Hq.
  - destruct p as [|name [data|]]; cbn; eauto.
    destruct (hex.DecodeString name) as [b ok] eqn:E.
    destruct ok; cbn; eauto.
    destruct (Nat.eqb_spec (length b) dropBoxIDSize); cbn; eauto.
    apply elem_of_cons in Hq as [->|Hq]; [|eauto].
    cbn in Hbad. rewrite E in Hbad. cbn in Hbad.
    destruct (Nat.eqb_spec (length b) dropBoxIDSize); [discriminate|contradiction].
Qed.

(** With pairwise distinct names, the map holds every part's data. *)
Lemma readParts_lookup parts : forall m pkgs name data,
  NoDup (part_ids parts) ->
  readParts parts m = inr pkgs ->
  PartOf name (Some data) ∈ parts ->
  pkgs !! name = Some data.
Proof.
  assert (Hkeep : forall parts m pkgs name data,
    readParts parts m = inr pkgs -> m !! name = Some data ->
    (hex.DecodeString name).1 ∉ part_ids parts -> pkgs !! name = Some data).
  { induction parts0 as [|p parts0 IH]; intros m pkgs name data Hr Hm Hnot.
    - cbn in Hr. by injection Hr as <-.
    - destruct p as [|n [d|]]; cbn in Hr; try discriminate.
      destruct (hex.DecodeString n) as [b ok] eqn:E.
      destruct ok; cbn in Hr; [|discriminate].
      destruct (negb (length b =? dropBoxIDSize)%nat); [discriminate|].
      unfold part_ids in Hnot. cbn in Hnot. rewrite E in Hnot. cbn in Hnot.
      apply not_elem_of_cons in Hnot as [Hne Hnot].
      eapply IH; [exact Hr| |exact Hnot].
      rewrite lookup_insert_ne; [done|]. intros ->. rewrite E in Hne. done. }
  induction parts as [|p parts IH]; intros m pkgs name data Hnd Hr Hin.
  - by apply elem_of_nil in Hin.
  - destruct p as [|n [d|]]; cbn in Hr; try discriminate.
    destruct (hex.DecodeString n) as [b ok] eqn:E.
    destruct ok; cbn in Hr; [|discriminate].
    destruct (negb (length b =? dropBoxIDSize)%nat); [discriminate|].
    unfold part_ids in Hnd. cbn in Hnd. rewrite E in Hnd. cbn in Hnd.
    apply NoDup_cons in Hnd as [Hnot Hnd].
    apply elem_of_cons in Hin as [[= <- <-]|Hin].
    + eapply Hkeep; [exact Hr|apply lookup_insert_eq|]. by rewrite E.
    + eapply IH; eauto.
Qed.

(** *** The multipart transaction *)

Lemma putAll_other entries : forall b b' B,
  putAll entries b = Some b' ->
  (forall h p, (h, p) ∈ entries -> (hex.DecodeString h).1 <> B) ->
  b' !! B = b !! B.
Proof.
  induction entries as [|[h p] entries IH]; intros b b' B Hp Hne.
  - cbn in Hp. by injection Hp as <-.
  - cbn in Hp. destruct (bolt.Put _ p b) as [b1|] eqn:E; [|discriminate].
    apply bolt_Put_Some in E as ->.
    rewrite (IH _ _ B Hp) by (intros h' p' ?; apply (Hne h' p'); by right).
    apply lookup_insert_ne. apply (Hne h p). left.
Qed.

Lemma putAll_lookup entries : forall b b' h p,
  NoDup ((fun kv => (hex.DecodeString kv.1).1) <$> entries) ->
  putAll entries b = Some b' ->
  (h, p) ∈ entries ->
  b' !! (hex.DecodeString h).1 = Some p.
Proof.
  induction entries as [|[h0 p0] entries IH]; intros b b' h p Hnd Hp Hin.
  - by apply elem_of_nil in Hin.
  - cbn in Hp. destruct (bolt.Put _ p0 b) as [b1|] eqn:E; [|discriminate].
    apply bolt_Put_Some in E as ->.
    rewrite fmap_cons in Hnd. apply NoDup_cons in Hnd as [Hnot Hnd]. cbn in Hnot.
    apply elem_of_cons in Hin as [[= <- <-]|Hin].
    + rewrite (putAll_other _ _ _ _ Hp); [apply lookup_insert_eq|].
      intros h' p' Hin' Heq. apply Hnot. rewrite <- Heq.
      apply list_elem_of_fmap. by exists (h', p').
    + eapply IH; eauto.
Qed.

(** *** Handlers *)

Lemma GET_keeps_store box_id srv :
  dropboxes (handle (GET box_id) srv).2 = dropboxes srv.
Proof.
  cbn. unfold pickUpPackageHandler.
  destruct (parseDropBoxID box_id) as [r|[boxID h]]; reflexivity.
Qed.

Lemma PUT_200 box_id body commit srv :
  status (handle (PUT box_id body commit) srv).1 = 200 ->
  exists boxID pkg, parseDropBoxID box_id = inr (boxID, box_id) /\ body = Some pkg
    /\ dropboxes (handle (PUT box_id body commit) srv).2 = <[boxID := pkg]> (dropboxes srv).
Proof.
  cbn. unfold dropPackageHandler.
  destruct (parseDropBoxID box_id) as [r|[boxID h]] eqn:E.
  - apply parseDropBoxID_inl_status in E. cbn. intros; congruence.
  - pose proof (parseDropBoxID_inr _ _ _ E) as (_ & _ & ->).
    destruct body as [pkg|]; [|cbn; discriminate].
    destruct (bolt.Update commit (bolt.Put boxID pkg) (dropboxes srv)) as [ok b] eqn:EU.
    apply bolt_Update_spec in EU as [(-> & _ & HP)|[-> ->]]; cbn; [|discriminate].
    intros _. exists boxID, pkg. apply bolt_Put_Some in HP. auto.
Qed.

Lemma PUT_not_200 box_id body commit srv :
  status (handle (PUT box_id body commit) srv).1 <> 200 ->
  dropboxes (handle (PUT box_id body commit) srv).2 = dropboxes srv.
Proof.
  cbn. unfold dropPackageHandler.
  destruct (parseDropBoxID box_id) as [r|[boxID h]]; [reflexivity|].
  destruct body as [pkg|]; [|reflexivity].
  destruct (bolt.Update commit (bolt.Put boxID pkg) (dropboxes srv)) as [ok b] eqn:EU.
  apply bolt_Update_spec in EU as [(-> & _ & HP)|[-> ->]]; cbn; [congruence|reflexivity].
Qed.

Lemma POST_not_200 rdr order pub_order commit srv :
  status (handle (POST_send rdr order pub_order commit) srv).1 <> 200 ->
  dropboxes (handle (POST_send rdr order pub_order commit) srv).2 = dropboxes srv.
Proof.
  cbn. unfold sendMultiplePackagesHandler.
  destruct rdr as [parts|]; [|reflexivity].
  destruct (readParts parts ∅) as [r|pkgs]; [reflexivity|].
  destruct (bolt.Update _ _ _) as [ok b] eqn:EU.
  apply bolt_Update_spec in EU as [(-> & _ & HP)|[-> ->]]; cbn; [congruence|reflexivity].
Qed.

(** A request that does not name [B], or is not answered 200, leaves the
    package of [B] alone. *)
Lemma handle_frame B req srv :
  (names_box B req -> status (handle req srv).1 <> 200) ->
  dropboxes (handle req srv).2 !! B = dropboxes srv !! B.
Proof.
  intros Hq. destruct req as [id|id body commit|rdr order pub_order commit].
  - by rewrite GET_keeps_store.
  - destruct (decide (status (handle (PUT id body commit) srv).1 = 200)) as [H200|Hn].
    + destruct (PUT_200 _ _ _ _ H200) as (boxID & pkg & HP & -> & ->).
      apply parseDropBoxID_inr in HP as (HD & _ & _).
      apply lookup_insert_ne. intros <-. apply Hq; [|done]. cbn. by rewrite HD.
    + by rewrite PUT_not_200.
  - destruct (decide (status (handle (POST_send rdr order pub_order commit) srv).1 = 200))
      as [H200|Hn]; [|by rewrite POST_not_200].
    assert (Hnot : ¬ names_box B (POST_send rdr order pub_order commit)) by tauto.
    clear Hq. revert H200. cbn in *. unfold sendMultiplePackagesHandler.
    destruct rdr as [parts|]; [|reflexivity].
    destruct (readParts parts ∅) as [r|pkgs] eqn:ER; [reflexivity|].
    destruct (bolt.Update _ _ _) as [ok b] eqn:EU.
    apply bolt_Update_spec in EU as [(-> & _ & HP)|[-> ->]]; cbn; [|reflexivity].
    intros _. apply (putAll_other _ _ _ _ HP).
    intros h p Hin <-. apply Hnot. apply elem_of_range_with in Hin.
    destruct (readParts_keys _ _ _ h ER) as [Hm|[d Hd]]; [eauto| |].
    + rewrite lookup_empty in Hm. by destruct Hm.
    + unfold part_ids. apply list_elem_of_omap. exists (PartOf h (Some d)). done.
Qed.

Lemma quiet_serve B reqs : forall srv,
  quiet B reqs srv -> dropboxes (serve reqs srv) !! B = dropboxes srv !! B.
Proof.
  induction reqs as [|req reqs IH]; intros srv Hq; [reflexivity|].
  destruct Hq as [Hreq Hq]. cbn [serve]. rewrite (IH _ Hq).
  by apply handle_frame.
Qed.

Lemma GET_body get_id B srv :
  hex.DecodeString get_id = (B, true) -> length B = dropBoxIDSize ->
  (handle (GET get_id) srv).1 = Raw 200 (default [] (dropboxes srv !! B)).
Proof.
  intros HD HL. cbn. unfold pickUpPackageHandler.
  rewrite (parseDropBoxID_ok _ _ HD HL). reflexivity.
Qed.

(** C1 (amended).  After a PUT of package [p] to a valid 16-byte box [B]
    is answered 200, a GET of [B] is answered 200 with exactly [p]
    (zero-length included), and keeps being so across every sequence of
    requests in which no request naming [B] -- a PUT to [B] or a multipart
    POST with a part for [B] -- is answered 200; the store maps an id to one
    package, and a GET leaves the store as it is. *)
Theorem put_then_get (box_id get_id : string) (B p : bytes) (commit : bool)
    (srv : server) (reqs : list request) :
  hex.DecodeString box_id = (B, true) ->
  hex.DecodeString get_id = (B, true) ->
  length B = dropBoxIDSize ->
  status (handle (PUT box_id (Some p) commit) srv).1 = 200 ->
  quiet B reqs (handle (PUT box_id (Some p) commit) srv).2 ->
  let srv' := serve reqs (handle (PUT box_id (Some p) commit) srv).2 in
  (handle (GET get_id) srv').1 = Raw 200 p
  /\ dropboxes srv' !! B = Some p
  /\ dropboxes (handle (GET get_id) srv').2 = dropboxes srv'.
Proof.
  intros HD HG HL H200 Hq srv'.
  assert (HB : dropboxes srv' !! B = Some p).
  { unfold srv'. rewrite (quiet_serve _ _ _ Hq).
    destruct (PUT_200 _ _ _ _ H200) as (boxID & pkg & HP & [= <-] & ->).
    apply parseDropBoxID_inr in HP as (HD' & _ & _).
    rewrite HD in HD'. injection HD' as <-. apply lookup_insert_eq. }
  split; [|split; [exact HB|apply GET_keeps_store]].
  rewrite (GET_body _ _ _ HG HL), HB. reflexivity.
Qed.

Lemma put_then_get_witness :
  (handle (GET hexbox0)
     (serve [GET hexbox0; PUT hexbox0 None true]
        (handle (PUT hexbox0 (Some [x41]) true) server0).2)).1 = Raw 200 [x41].
Proof.
  refine (proj1 (put_then_get hexbox0 hexbox0 box0 [x41] true server0
                   [GET hexbox0; PUT hexbox0 None true] _ _ _ _ _)).
  - reflexivity.
  - reflexivity.
  - reflexivity.
  - reflexivity.
  - cbn. split; [tauto|]. split; [|exact I]. intros _. vm_compute. discriminate.
Defined.

(** C1, as stated, fails: no PUT follows the first one, yet the GET no
    longer returns its package, because a multipart POST wrote the box. *)
Lemma put_then_get_overwritten_by_send :
  let srv1 := (handle (PUT hexbox0 (Some [x41]) true) server0).2 in
  let reqs := [POST_send (Some [PartOf hexbox0 (Some [x42])]) [] [] true] in
  status (handle (PUT hexbox0 (Some [x41]) true) server0).1 = 200
  /\ existsb is_PUT reqs = false
  /\ (handle (GET hexbox0) (serve reqs srv1)).1 = Raw 200 [x42]
  /\ (handle (GET hexbox0) (serve reqs srv1)).1 <> Raw 200 [x41].
Proof.
  vm_compute. repeat split; discriminate.
Qed.

(** C8.  A GET or PUT on /drop-boxes/{box_id} whose [box_id] is not valid
    hex, or does not decode to exactly 16 bytes, is answered 400 and leaves
    the server as it was: no transaction is opened on the store, neither
    for reading nor for writing, and nothing is published. *)
Theorem invalid_box_id_rejected (box_id : string) (body : option bytes)
    (commit : bool) (srv : server) :
  (hex.DecodeString box_id).2 = false
  \/ length (hex.DecodeString box_id).1 <> dropBoxIDSize ->
  (status (handle (GET box_id) srv).1 = 400 /\ (handle (GET box_id) srv).2 = srv)
  /\ (status (handle (PUT box_id body commit) srv).1 = 400
      /\ (handle (PUT box_id body commit) srv).2 = srv).
Proof.
  intros Hbad. apply parseDropBoxID_inl in Hbad. cbn.
  unfold pickUpPackageHandler, dropPackageHandler. rewrite Hbad. cbn. auto.
Qed.

Lemma invalid_box_id_rejected_witness :
  (status (handle (GET "0011zz") server0).1 = 400
   /\ (handle (GET "0011zz") server0).2 = server0)
  /\ (status (handle (PUT "0011zz" (Some [x41]) true) server0).1 = 400
      /\ (handle (PUT "0011zz" (Some [x41]) true) server0).2 = server0).
Proof.
  apply (invalid_box_id_rejected "0011zz" (Some [x41]) true server0).
  left. reflexivity.
Defined.

(** C4 (amended).  For a multipart POST whose parts name pairwise
    distinct box ids: either the answer is 200, one transaction was run
    and the store holds every part's package under its box id, or the
    answer is not 200 and the store holds what it held before.  If some
    part's form name is not valid hex or does not decode to 16 bytes, the
    whole batch is answered 400 and the server is unchanged. *)
Theorem send_all_or_nothing (parts : list partResult) (order pub_order : list string)
    (commit : bool) (srv : server) :
  NoDup (part_ids parts) ->
  let r := (sendMultiplePackagesHandler (Some parts) order pub_order commit srv).1 in
  let srv' := (sendMultiplePackagesHandler (Some parts) order pub_order commit srv).2 in
  ((status r = 200
    /\ kvlog srv' = kvlog srv ++ [Update]
    /\ Forall (fun p => exists name data, p = PartOf name (Some data)
                 /\ dropboxes srv' !! (hex.DecodeString name).1 = Some data) parts)
   \/ (status r <> 200 /\ dropboxes srv' = dropboxes srv))
  /\ ((exists p, p ∈ parts /\ bad_name p = true) -> status r = 400 /\ srv' = srv).
Proof.
  intros Hnd. cbn zeta. unfold sendMultiplePackagesHandler. split.
  - destruct (readParts parts ∅) as [r|pkgs] eqn:ER.
    { right. split; [|reflexivity]. cbn.
      assert (status r = 400); [|lia].
      clear Hnd. revert ER. generalize (∅ : gmap string bytes).
      induction parts as [|q parts IH]; intros m; cbn; [discriminate|].
      destruct q as [|name [data|]]; try (intros [= <-]; reflexivity).
      destruct (hex.DecodeString name) as [b ok].
      repeat case_match; try (intros [= <-]; reflexivity). apply IH. }
    destruct (bolt.Update _ _ _) as [ok b] eqn:EU.
    apply bolt_Update_spec in EU as [(-> & _ & HP)|[-> ->]]; cbn.
    + left. split; [reflexivity|]. split; [reflexivity|].
      pose proof (readParts_valid _ _ _ ER) as Hv.
      apply Forall_forall. intros q Hq.
      rewrite Forall_forall in Hv. destruct (Hv q Hq) as (name & data & -> & _ & _).
      exists name, data. split; [reflexivity|].
      apply (putAll_lookup _ _ _ name data) in HP; [exact HP| |].
      * apply NoDup_fmap_2_strong.
        -- intros [h1 p1] [h2 p2] H1 H2 Heq. cbn in Heq.
           apply elem_of_range_with in H1, H2.
           assert (h1 = h2) as ->; [|congruence].
           destruct (decide (h1 = h2)) as [|Hne]; [done|exfalso].
           destruct (readParts_keys _ _ _ h1 ER) as [[? Hm]|[d1 Hd1]]; [eauto| |].
           { by rewrite lookup_empty in Hm. }
           destruct (readParts_keys _ _ _ h2 ER) as [[? Hm]|[d2 Hd2]]; [eauto| |].
           { by rewrite lookup_empty in Hm. }
           clear -Hnd Hd1 Hd2 Heq Hne.
           induction parts as [|q parts IH]; [by apply elem_of_nil in Hd1|].
           unfold part_ids in Hnd. apply elem_of_cons in Hd1, Hd2.
           destruct Hd1 as [E1|Hd1], Hd2 as [E2|Hd2]; subst.
           ++ congruence.
           ++ cbn in Hnd. apply NoDup_cons in Hnd as [Hnot _]. apply Hnot.
              apply list_elem_of_omap. exists (PartOf h2 (Some d2)). cbn. by rewrite Heq.
           ++ cbn in Hnd. apply NoDup_cons in Hnd as [Hnot _]. apply Hnot.
              apply list_elem_of_omap. exists (PartOf h1 (Some d1)). cbn. by rewrite Heq.
           ++ apply IH; [|done|done]. destruct q; cbn in Hnd; [done|].
              by apply NoDup_cons in Hnd as [_ ?].
        -- assert (Hk := NoDup_range_with_keys order pkgs).
           clear -Hk. induction (range_with order pkgs) as [|[h q] l IH]; [constructor|].
           cbn in Hk. apply NoDup_cons in Hk as [Hnot Hk].
           constructor; [|by apply IH]. intros Hin. apply Hnot.
           apply list_elem_of_fmap. by exists (h, q).
      * apply elem_of_range_with. eapply readParts_lookup; eauto.
    + right. split; [discriminate|reflexivity].
  - intros Hbad. destruct (readParts_bad parts ∅ Hbad) as [reason ->]. cbn. auto.
Qed.

Lemma send_all_or_nothing_witness :
  let parts := [PartOf hexbox0 (Some [x61]);
                PartOf "ffeeddccbbaa99887766554433221100" (Some [x62; x62])] in
  NoDup (part_ids parts)
  /\ status (sendMultiplePackagesHandler (Some parts) [] [] true server0).1 = 200
  /\ dropboxes (sendMultiplePackagesHandler (Some parts) [] [] true server0).2 !! box0
     = Some [x61].
Proof.
  cbn zeta.
  assert (Hnd : NoDup (part_ids
            [PartOf hexbox0 (Some [x61]);
             PartOf "ffeeddccbbaa99887766554433221100" (Some [x62; x62])])).
  { vm_compute (part_ids _). apply NoDup_cons. split; [|apply NoDup_singleton].
    intros H%list_elem_of_singleton. discriminate H. }
  split; [exact Hnd|].
  destruct (send_all_or_nothing _ [] [] true server0 Hnd) as [[(H200 & _ & Hall)|[Hn _]] _].
  - split; [exact H200|].
    apply Forall_cons in Hall as [(name & data & [= <- <-] & Hl) _]. exact Hl.
  - exfalso. apply Hn. vm_compute. reflexivity.
Defined.

(** C4, as stated, fails for a batch that names one box twice: the
    answer is 200 and the store changed, yet the first of the two
    (box id, package) pairs was never written. *)
Lemma send_duplicate_part_not_written :
  let parts := [PartOf hexbox0 (Some [x61]); PartOf hexbox0 (Some [x62])] in
  let out := sendMultiplePackagesHandler (Some parts) [] [] true server0 in
  status out.1 = 200
  /\ hex.DecodeString hexbox0 = (box0, true)
  /\ dropboxes out.2 !! box0 <> Some [x61]
  /\ dropboxes out.2 !! box0 <> dropboxes server0 !! box0.
Proof.
  vm_compute. repeat split; discriminate.
Qed.

(** A failed store transaction is answered 500 by the PUT handler and 400
    by the multipart handler, whatever the request. *)
Lemma PUT_store_failure box_id boxID pkg commit srv :
  parseDropBoxID box_id = inr (boxID, box_id) ->
  (bolt.Update commit (bolt.Put boxID pkg) (dropboxes srv)).1 = false ->
  status (handle (PUT box_id (Some pkg) commit) srv).1 = 500.
Proof.
  intros HP Hfail. cbn. unfold dropPackageHandler. rewrite HP.
  destruct (bolt.Update _ _ _) as [ok b]. cbn in Hfail. subst ok. reflexivity.
Qed.

Lemma POST_store_failure parts pkgs order pub_order commit srv :
  readParts parts ∅ = inr pkgs ->
  (bolt.Update commit (putAll (range_with order pkgs)) (dropboxes srv)).1 = false ->
  status (handle (POST_send (Some parts) order pub_order commit) srv).1 = 400.
Proof.
  intros HR Hfail. cbn. unfold sendMultiplePackagesHandler. rewrite HR.
  destruct (bolt.Update _ _ _) as [ok b]. cbn in Hfail. subst ok. reflexivity.
Qed.

(** C5 at the failing input.  When the store refuses the transaction, the
    PUT handler answers 500, and the multipart handler answers 400. *)
Theorem store_failure_status :
  status (handle (PUT hexbox0 (Some [x41]) false) server0).1 = 500
  /\ status (handle (POST_send (Some [PartOf hexbox0 (Some [x41])]) [] [] false) server0).1
     = 400.
Proof.
  split; vm_compute; reflexivity.
Qed.

(** ** The socket handshakes *)

(** C3 (amended).  On /sockets, an upgrade request whose token (the
    Sec-Websocket-Protocol header, the empty string when it is missing)
    resolves to user id 0 is answered 401 and not upgraded; one whose
    verification fails is answered 500 and not upgraded; and a session is
    started only for a token that resolves to a non-zero user id. *)
Theorem socket_handshake_gate (verifyAccessToken : string -> option Z)
    (req : upgradeRequest) (store : gmap bytes bytes) :
  let token := Header_Get (Sec_Websocket_Protocol req) in
  let h := createSocketHandler verifyAccessToken req store in
  (verifyAccessToken token = Some 0 -> status (answer h) = 401 /\ upgraded h = false)
  /\ (verifyAccessToken token = None -> status (answer h) = 500 /\ upgraded h = false)
  /\ (upgraded h = true ->
      exists userID, verifyAccessToken token = Some userID /\ userID <> 0
                     /\ h = Upgraded (socketServer.session userID store)).
Proof.
  cbn zeta. unfold createSocketHandler.
  destruct (verifyAccessToken _) as [userID|]; [|cbn; repeat split; congruence].
  destruct (Z.eqb_spec userID 0) as [->|Hne].
  - cbn. repeat split; congruence.
  - destruct (handshake_ok req); cbn.
    + repeat split; try congruence. intros _. eauto.
    + repeat split; congruence.
Qed.

Lemma socket_handshake_gate_witness :
  let verify := fun token : string => if bool_decide (token = "tok") then Some 7 else Some 0 in
  let missing := {| Sec_Websocket_Protocol := None; handshake_ok := true |} in
  status (answer (createSocketHandler verify missing ∅)) = 401
  /\ upgraded (createSocketHandler verify missing ∅) = false.
Proof.
  cbn zeta.
  apply (socket_handshake_gate
           (fun token : string => if bool_decide (token = "tok") then Some 7 else Some 0)
           {| Sec_Websocket_Protocol := None; handshake_ok := true |} ∅).
  reflexivity.
Defined.

(** C3, as stated, fails on the drop-box watch endpoint: a request with
    no Sec-Websocket-Protocol header is upgraded, not answered 401. *)
Lemma watch_handshake_without_token :
  let missing := {| Sec_Websocket_Protocol := None; handshake_ok := true |} in
  upgraded (createPackageWatcherHandler missing server0) = true
  /\ status (answer (createPackageWatcherHandler missing server0)) <> 401.
Proof.
  cbn. split; [reflexivity|discriminate].
Qed.

(** ** Frames that change nothing *)

Lemma opcode_unknown op :
  3 <= Z_of_byte op ->
  op <> socketCmdNop /\ op <> socketCmdWatch /\ op <> socketCmdIgnore.
Proof.
  intros H. repeat split; intros ->; vm_compute in H; apply H; reflexivity.
Qed.

(** C7.  In both socket code paths, a binary frame that is a NOP, a WATCH
    for a box the session already watches, an IGNORE for a box it does not
    watch, or a frame with an opcode of 3 or more, leaves the whole
    session state as it was: the subscription set is unchanged and the
    reading goroutine goes on. *)
Theorem noop_frames_change_nothing :
  (forall (s : packageListener.state) (frame : bytes),
     packageListener.reading s = true -> packageListener.panicked s = false ->
     noop_frame (fun h => is_Some (packageListener.subs s !! h)) frame ->
     packageListener.step (packageListener.Read (ReadMsg true frame)) s = Some s)
  /\ (forall (s : socketServer.state) (frame : bytes) (kv_ok : bool),
     socketServer.reading s = true -> socketServer.panicked s = false ->
     noop_frame (fun h => is_Some (socketServer.pkgSubs s !! h)) frame ->
     socketServer.step (socketServer.Read (ReadMsg true frame) kv_ok) s = Some s).
Proof.
  split.
  - intros s frame Hr Hp Hf. unfold packageListener.step. rewrite Hp, Hr. f_equal.
    destruct Hf as [payload|box [sr Hw]|box Hw|op payload Hop]; cbn.
    + reflexivity.
    + unfold packageListener.watch. rewrite Hw. by destruct (negb _).
    + unfold packageListener.ignore.
      destruct (packageListener.subs s !! hex.EncodeToString box) eqn:E.
      * exfalso. apply Hw. eauto.
      * by destruct (negb _).
    + destruct (opcode_unknown _ Hop) as (H0 & H1 & H2).
      rewrite !bool_decide_eq_false_2 by done. reflexivity.
  - intros s frame kv_ok Hr Hp Hf. unfold socketServer.step. rewrite Hp, Hr. f_equal.
    destruct Hf as [payload|box [sr Hw]|box Hw|op payload Hop]; cbn.
    + reflexivity.
    + unfold socketServer.watchBox. rewrite Hw. by destruct (negb _).
    + unfold socketServer.ignoreBox.
      destruct (socketServer.pkgSubs s !! hex.EncodeToString box) eqn:E.
      * exfalso. apply Hw. eauto.
      * reflexivity.
    + destruct (opcode_unknown _ Hop) as (H0 & H1 & H2).
      rewrite !bool_decide_eq_false_2 by done. reflexivity.
Qed.

(** ** Socket sessions *)

Ltac ss_proj :=
  cbn [socketServer.kvs socketServer.chans socketServer.dropBoxPubSub
       socketServer.messagesPubSub socketServer.userID socketServer.closed
       socketServer.messages socketServer.pkgs socketServer.pkgSubs
       socketServer.reading socketServer.writing socketServer.stopping
       socketServer.forwarders socketServer.conn_closed socketServer.wire
       socketServer.panicked socketServer.hexID socketServer.boxID
       socketServer.sub socketServer.at_ buf chan_closed].

Ltac ss_unfold :=
  unfold socketServer.set_at, socketServer.write_or_return,
    socketServer.set_kvs, socketServer.set_chans, socketServer.set_closed,
    socketServer.set_pkgs, socketServer.set_reading,
    socketServer.set_writing, socketServer.set_forwarders,
    socketServer.set_wire, socketServer.set_panicked;
  ss_proj.

Lemma ss_run_app es1 : forall es2 s,
  socketServer.run (es1 ++ es2) s
  = match socketServer.run es1 s with
    | Some s' => socketServer.run es2 s'
    | None => None
    end.
Proof.
  induction es1 as [|e es1 IH]; intros es2 s; [reflexivity|].
  cbn. destruct (socketServer.step e s); [apply IH|reflexivity].
Qed.

(** The writer empties [ss.pkgs] onto the wire. *)
Lemma ss_drain (n : nat) : forall s,
  socketServer.writing s = true -> socketServer.panicked s = false ->
  length (buf (socketServer.pkgs s)) = n ->
  exists s', socketServer.run (repeat (socketServer.WrPkg true) n) s = Some s'
    /\ socketServer.wire s' = socketServer.wire s ++ buf (socketServer.pkgs s)
    /\ socketServer.pkgs s' = {| buf := []; chan_closed := chan_closed (socketServer.pkgs s) |}
    /\ socketServer.chans s' = socketServer.chans s
    /\ socketServer.forwarders s' = socketServer.forwarders s
    /\ socketServer.writing s' = true
    /\ socketServer.panicked s' = false.
Proof.
  induction n as [|n IH]; intros s Hw Hp Hlen.
  - exists s. destruct (socketServer.pkgs s) as [b c] eqn:E. cbn in *.
    destruct b; [|discriminate]. rewrite app_nil_r. auto 10.
  - destruct (socketServer.pkgs s) as [b c] eqn:E. cbn in Hlen.
    destruct b as [|x b]; [discriminate|]. injection Hlen as Hlen.
    cbn [repeat socketServer.run]. unfold socketServer.step.
    rewrite Hp, Hw. unfold socketServer.writeConn_pkgs. rewrite E. cbn [recv buf].
    cbn [socketServer.write_or_return].
    edestruct IH as (s' & Hrun & Hwire & Hpk & Hch & Hfw & Hw' & Hp'); [..|exists s'; rewrite Hrun].
    + cbn. exact Hw.
    + cbn. exact Hp.
    + cbn. exact Hlen.
    + cbn in *. rewrite Hwire, Hpk, Hch, Hfw, <- app_assoc. auto 10.
Qed.

Lemma ss_watchBox_new (s : socketServer.state) (B p : bytes) :
  length B = dropBoxIDSize ->
  socketServer.kvs s !! B = Some p -> p <> [] ->
  socketServer.pkgSubs s !! hex.EncodeToString B = None ->
  let c := length (socketServer.chans s) in
  let h := hex.EncodeToString B in
  socketServer.watchBox B true s
  = {| socketServer.kvs := socketServer.kvs s;
       socketServer.chans :=
         socketServer.chans s ++ [{| buf := [p]; chan_closed := false |}];
       socketServer.dropBoxPubSub :=
         <[h := default [] (socketServer.dropBoxPubSub s !! h) ++ [c]]>
           (socketServer.dropBoxPubSub s);
       socketServer.messagesPubSub := socketServer.messagesPubSub s;
       socketServer.userID := socketServer.userID s;
       socketServer.closed := socketServer.closed s;
       socketServer.messages := socketServer.messages s;
       socketServer.pkgs := socketServer.pkgs s;
       socketServer.pkgSubs := <[h := c]> (socketServer.pkgSubs s);
       socketServer.reading := socketServer.reading s;
       socketServer.writing := socketServer.writing s;
       socketServer.stopping := socketServer.stopping s;
       socketServer.forwarders :=
         socketServer.forwarders s
         ++ [{| socketServer.hexID := h; socketServer.boxID := B;
                socketServer.sub := c; socketServer.at_ := Select |}];
       socketServer.conn_closed := socketServer.conn_closed s;
       socketServer.wire := socketServer.wire s;
       socketServer.panicked := socketServer.panicked s |}.
Proof.
  intros HL Hkv Hp Hsub. cbn zeta. unfold socketServer.watchBox.
  rewrite HL, Nat.eqb_refl. cbn [negb]. rewrite Hsub.
  unfold pubsub.Sub, socketServer.PickUpPackage. rewrite Hkv. cbn [default].
  destruct p as [|b p]; [done|]. cbn [length Nat.ltb Nat.leb].
  rewrite lookup_app_r by lia. rewrite Nat.sub_diag.
  cbn [lookup list_lookup fmap option_fmap option_map send make buf chan_closed
       length Nat.ltb Nat.leb pubsub.queueCap app].
  rewrite insert_app_r_alt by lia. rewrite Nat.sub_diag. reflexivity.
Qed.

Lemma ss_watch_path (s : socketServer.state) (B p : bytes) :
  socketServer.reading s = true -> socketServer.writing s = true ->
  socketServer.panicked s = false -> chan_closed (socketServer.pkgs s) = false ->
  length B = dropBoxIDSize ->
  socketServer.kvs s !! B = Some p -> p <> [] ->
  socketServer.pkgSubs s !! hex.EncodeToString B = None ->
  exists s1 c,
    socketServer.step (socketServer.Read (ReadMsg true (socketCmdWatch :: B)) true) s = Some s1
    /\ socketServer.pkgSubs s1 !! hex.EncodeToString B = Some c
    /\ c ∈ default [] (socketServer.dropBoxPubSub s1 !! hex.EncodeToString B)
    /\ exists es s2,
         forallb socketServer.internal es = true
         /\ socketServer.run es s1 = Some s2
         /\ socketServer.wire s2
            = socketServer.wire s ++ buf (socketServer.pkgs s) ++ [socketCmdWatch :: B ++ p].
Proof.
  intros Hr Hw Hp Hopen HL Hkv Hne Hsub.
  eexists _, (length (socketServer.chans s)). split.
  { unfold socketServer.step. rewrite Hp, Hr. cbn [socketServer.readConn].
    rewrite bool_decide_eq_false_2 by discriminate.
    rewrite bool_decide_eq_true_2 by reflexivity.
    rewrite (ss_watchBox_new s B p HL Hkv Hne Hsub). reflexivity. }
  split; [ss_proj; apply lookup_insert_eq|].
  split; [ss_proj; rewrite lookup_insert_eq; cbn [default]; set_solver|].
  match goal with |- context [socketServer.run _ ?t] => set (s1 := t) end.
  destruct (ss_drain (length (buf (socketServer.pkgs s))) s1) as
    (s' & Hrun & Hwire & Hpk & Hch & Hfw & Hw' & Hp'); [exact Hw|exact Hp|reflexivity|].
  set (i := length (socketServer.forwarders s)).
  exists (repeat (socketServer.WrPkg true) (length (buf (socketServer.pkgs s)))
          ++ [socketServer.FwdSub i; socketServer.FwdSend i; socketServer.WrPkg true]).
  cbn in Hwire, Hpk, Hch, Hfw. rewrite Hopen in Hpk.
  rewrite ss_run_app, Hrun. clear Hrun. subst s1.
  destruct s' as [kv ch bb mb u cl m pk ps rd wr st fw cc wi pa].
  cbn in Hwire, Hpk, Hch, Hfw, Hw', Hp'. subst ch fw pk wr pa wi.
  cbn [socketServer.run].
  (* the forwarder takes the package off its queue *)
  unfold socketServer.step at 1, socketServer.forward_sub. ss_proj. unfold i.
  rewrite lookup_app_r by lia. rewrite Nat.sub_diag. cbn [lookup list_lookup]. ss_proj.
  rewrite lookup_app_r by lia. rewrite Nat.sub_diag.
  cbn [lookup list_lookup recv buf chan_closed]. ss_unfold.
  (* and sends the frame to the writer *)
  unfold socketServer.step at 1, socketServer.forward_send. ss_proj.
  rewrite list_lookup_alter_eq, lookup_app_r by lia. rewrite Nat.sub_diag.
  cbn [lookup list_lookup fmap option_fmap option_map]. ss_proj.
  cbn [send buf chan_closed length Nat.ltb Nat.leb socketServer.pkgsCap app]. ss_unfold.
  (* the writer writes it *)
  unfold socketServer.step at 1, socketServer.writeConn_pkgs. ss_proj.
  cbn [recv buf chan_closed]. ss_unfold.
  eexists. split; [|split; [reflexivity|]].
  - rewrite forallb_app. apply andb_true_intro. split; [|reflexivity].
    clear. induction (length _); [reflexivity|assumption].
  - ss_proj. rewrite <- app_assoc. reflexivity.
Qed.

Ltac pl_proj :=
  cbn [packageListener.srv packageListener.chans packageListener.dropBoxPubSub
       packageListener.closed packageListener.pkgs_closed packageListener.subs
       packageListener.waitGroup packageListener.reading packageListener.writing
       packageListener.stopping packageListener.forwarders
       packageListener.conn_closed packageListener.wire packageListener.panicked
       packageListener.topic packageListener.boxID packageListener.sub
       packageListener.at_ packageListener.sr_sub packageListener.sr_closed
       buf chan_closed].

Ltac pl_unfold :=
  unfold packageListener.set_at, packageListener.set_srv,
    packageListener.set_chans, packageListener.set_closed,
    packageListener.set_pkgs_closed, packageListener.set_subs,
    packageListener.set_reading, packageListener.set_writing,
    packageListener.set_stopping, packageListener.set_forwarders,
    packageListener.set_conn_closed, packageListener.set_wire,
    packageListener.set_panicked;
  pl_proj.

Lemma pl_watch_new (s : packageListener.state) (B p : bytes) :
  length B = dropBoxIDSize ->
  dropboxes (packageListener.srv s) !! B = Some p -> p <> [] ->
  packageListener.subs s !! hex.EncodeToString B = None ->
  let c := length (packageListener.chans s) in
  let h := hex.EncodeToString B in
  packageListener.watch B s
  = {| packageListener.srv := (pickUpPackage B (packageListener.srv s)).2;
       packageListener.chans :=
         packageListener.chans s ++ [{| buf := [p]; chan_closed := false |}];
       packageListener.dropBoxPubSub :=
         <[h := default [] (packageListener.dropBoxPubSub s !! h) ++ [c]]>
           (packageListener.dropBoxPubSub s);
       packageListener.closed := packageListener.closed s;
       packageListener.pkgs_closed := packageListener.pkgs_closed s;
       packageListener.subs :=
         <[h := {| packageListener.sr_sub := c; packageListener.sr_closed := false |}]>
           (packageListener.subs s);
       packageListener.waitGroup := S (packageListener.waitGroup s);
       packageListener.reading := packageListener.reading s;
       packageListener.writing := packageListener.writing s;
       packageListener.stopping := packageListener.stopping s;
       packageListener.forwarders :=
         packageListener.forwarders s
         ++ [{| packageListener.topic := h; packageListener.boxID := B;
                packageListener.sub := c; packageListener.at_ := Select |}];
       packageListener.conn_closed := packageListener.conn_closed s;
       packageListener.wire := packageListener.wire s;
       packageListener.panicked := packageListener.panicked s |}.
Proof.
  intros HL Hkv Hp Hsub. cbn zeta. unfold packageListener.watch.
  rewrite HL, Nat.eqb_refl. cbn [negb]. rewrite Hsub.
  unfold pubsub.Sub, pickUpPackage, bolt.Get. rewrite Hkv. cbn [default snd].
  destruct p as [|b p]; [done|]. cbn [length Nat.ltb Nat.leb].
  rewrite lookup_app_r by lia. rewrite Nat.sub_diag.
  cbn [lookup list_lookup fmap option_fmap option_map send make buf chan_closed
       length Nat.ltb Nat.leb pubsub.queueCap app].
  rewrite insert_app_r_alt by lia. rewrite Nat.sub_diag. reflexivity.
Qed.

Lemma pl_watch_path (s : packageListener.state) (B p : bytes) :
  packageListener.reading s = true -> packageListener.writing s = true ->
  packageListener.panicked s = false -> packageListener.pkgs_closed s = false ->
  length B = dropBoxIDSize ->
  dropboxes (packageListener.srv s) !! B = Some p -> p <> [] ->
  packageListener.subs s !! hex.EncodeToString B = None ->
  exists s1 c,
    packageListener.step (packageListener.Read (ReadMsg true (socketCmdWatch :: B))) s = Some s1
    /\ packageListener.sr_sub <$> packageListener.subs s1 !! hex.EncodeToString B = Some c
    /\ c ∈ default [] (packageListener.dropBoxPubSub s1 !! hex.EncodeToString B)
    /\ exists es s2,
         forallb packageListener.internal es = true
         /\ packageListener.run es s1 = Some s2
         /\ packageListener.wire s2 = packageListener.wire s ++ [socketCmdWatch :: B ++ p].
Proof.
  intros Hr Hw Hp Hopen HL Hkv Hne Hsub.
  eexists _, (length (packageListener.chans s)). split.
  { unfold packageListener.step. rewrite Hp, Hr. cbn [packageListener.read].
    rewrite bool_decide_eq_false_2 by discriminate.
    rewrite bool_decide_eq_true_2 by reflexivity.
    rewrite (pl_watch_new s B p HL Hkv Hne Hsub). reflexivity. }
  split; [pl_proj; rewrite lookup_insert_eq; reflexivity|].
  split; [pl_proj; rewrite lookup_insert_eq; cbn [default]; set_solver|].
  set (i := length (packageListener.forwarders s)).
  exists [packageListener.FwdSub i; packageListener.FwdSend i true].
  destruct s as [sv ch bb cl pc sb wg rd wr st fw cc wi pa].
  cbn in Hr, Hw, Hp, Hopen, Hkv, Hsub, i. subst rd wr pa pc.
  pl_unfold. cbn [packageListener.run].
  unfold packageListener.step at 1, packageListener.forward_sub. pl_proj. unfold i.
  rewrite lookup_app_r by lia. rewrite Nat.sub_diag. cbn [lookup list_lookup]. pl_proj.
  rewrite lookup_app_r by lia. rewrite Nat.sub_diag.
  cbn [lookup list_lookup recv buf chan_closed app]. pl_unfold.
  unfold packageListener.step at 1, packageListener.forward_send. pl_proj.
  rewrite list_lookup_alter_eq, lookup_app_r by lia. rewrite Nat.sub_diag.
  cbn [lookup list_lookup fmap option_fmap option_map]. pl_unfold.
  eexists. split; [reflexivity|]. split; reflexivity.
Qed.

(** C6 (amended).  In both socket code paths, for a session in state
    Running and a WATCH for a 16-byte box [B] that the session does not
    watch yet and whose box holds a non-empty package [p] (read without a
    store error): the frame is accepted, the session is subscribed to
    topic hex([B]), and without any publish the forwarding and writing
    goroutines can run until the frame 0x01 || [B] || [p] is written to the
    socket, after the frames already queued for writing. *)
Theorem watch_delivers_current_package :
  (forall (s : socketServer.state) (B p : bytes),
     socketServer.running s -> length B = dropBoxIDSize ->
     socketServer.kvs s !! B = Some p -> p <> [] ->
     socketServer.pkgSubs s !! hex.EncodeToString B = None ->
     exists s1 c,
       socketServer.step (socketServer.Read (ReadMsg true (socketCmdWatch :: B)) true) s
       = Some s1
       /\ socketServer.pkgSubs s1 !! hex.EncodeToString B = Some c
       /\ c ∈ default [] (socketServer.dropBoxPubSub s1 !! hex.EncodeToString B)
       /\ exists es s2,
            forallb socketServer.internal es = true
            /\ socketServer.run es s1 = Some s2
            /\ socketServer.wire s2
               = socketServer.wire s ++ buf (socketServer.pkgs s)
                 ++ [socketCmdWatch :: B ++ p])
  /\ (forall (s : packageListener.state) (B p : bytes),
     packageListener.running s -> length B = dropBoxIDSize ->
     dropboxes (packageListener.srv s) !! B = Some p -> p <> [] ->
     packageListener.subs s !! hex.EncodeToString B = None ->
     exists s1 c,
       packageListener.step (packageListener.Read (ReadMsg true (socketCmdWatch :: B))) s
       = Some s1
       /\ packageListener.sr_sub <$> packageListener.subs s1 !! hex.EncodeToString B = Some c
       /\ c ∈ default [] (packageListener.dropBoxPubSub s1 !! hex.EncodeToString B)
       /\ exists es s2,
            forallb packageListener.internal es = true
            /\ packageListener.run es s1 = Some s2
            /\ packageListener.wire s2
               = packageListener.wire s ++ [socketCmdWatch :: B ++ p]).
Proof.
  split.
  - intros s B p (Hr & Hw & Hp & Hopen). by apply ss_watch_path.
  - intros s B p (Hr & Hw & Hp & Hopen). by apply pl_watch_path.
Qed.

Lemma watch_delivers_current_package_witness :
  exists s1 c,
    socketServer.step (socketServer.Read (ReadMsg true (socketCmdWatch :: box0)) true)
      (socketServer.session 7 store0) = Some s1
    /\ socketServer.pkgSubs s1 !! hexbox0 = Some c
    /\ c ∈ default [] (socketServer.dropBoxPubSub s1 !! hexbox0)
    /\ exists es s2,
         forallb socketServer.internal es = true
         /\ socketServer.run es s1 = Some s2
         /\ socketServer.wire s2 = [socketCmdWatch :: box0 ++ [x58]].
Proof.
  apply (proj1 watch_delivers_current_package (socketServer.session 7 store0) box0 [x58]).
  - repeat split; reflexivity.
  - reflexivity.
  - reflexivity.
  - discriminate.
  - reflexivity.
Defined.

(** C6, as stated, fails for a WATCH of a box the session watches
    already: the session is Running and the box holds the non-empty
    package "X", but the frame changes nothing, and no goroutine of the
    session can move, so that nothing is written until a publish. *)
Lemma duplicate_watch_delivers_nothing :
  socketServer.running watching0
  /\ socketServer.kvs watching0 !! box0 = Some [x58]
  /\ socketServer.step (socketServer.Read (ReadMsg true (socketCmdWatch :: box0)) true)
       watching0 = Some watching0
  /\ (forall e, socketServer.internal e = true -> socketServer.step e watching0 = None).
Proof.
  split; [repeat split; reflexivity|]. split; [reflexivity|]. split; [reflexivity|].
  intros [r k|i|i|i|ok|[|]| | | | |] He; try discriminate He.
  - destruct i as [|i]; reflexivity.
  - destruct i as [|i]; reflexivity.
  - reflexivity.
Qed.

(** *** After an IGNORE in the socket server *)

Lemma focus_send i c q frame s :
  focus i c q (Sending frame) s ->
  exists s', socketServer.run [socketServer.FwdSend i; socketServer.WrPkg true] s = Some s'
             /\ focus i c q Select s'.
Proof.
  intros (Hw & Hp & Hpk & (f & Hf & Hc & Ha) & Hch).
  destruct s as [kv ch bb mb u cl m pk ps rd wr st fw cc wi pa].
  cbn in Hw, Hp, Hpk, Hf, Hch. subst wr pa pk.
  cbn [socketServer.run].
  unfold socketServer.step at 1, socketServer.forward_send. ss_proj.
  rewrite Hf, Ha. cbn [send buf chan_closed length Nat.ltb Nat.leb socketServer.pkgsCap app].
  ss_unfold.
  unfold socketServer.step at 1, socketServer.writeConn_pkgs. ss_proj.
  cbn [recv buf chan_closed]. ss_unfold.
  eexists. split; [reflexivity|]. unfold focus. ss_proj.
  repeat split; try reflexivity; [|exact Hch].
  rewrite list_lookup_alter_eq, Hf. cbn. eauto.
Qed.

Lemma focus_item i c x q s :
  focus i c (x :: q) Select s ->
  exists s' frame, socketServer.run [socketServer.FwdSub i] s = Some s'
             /\ focus i c q (Sending frame) s'.
Proof.
  intros (Hw & Hp & Hpk & (f & Hf & Hc & Ha) & Hch).
  destruct s as [kv ch bb mb u cl m pk ps rd wr st fw cc wi pa].
  cbn in Hw, Hp, Hpk, Hf, Hch. subst wr pa pk.
  cbn [socketServer.run].
  unfold socketServer.step at 1, socketServer.forward_sub. ss_proj.
  rewrite Hf, Ha, Hc, Hch. cbn [recv buf chan_closed]. ss_unfold.
  eexists _, _. split; [reflexivity|]. unfold focus. ss_proj.
  repeat split; try reflexivity.
  - rewrite list_lookup_alter_eq, Hf. cbn. eauto.
  - apply list_lookup_insert_eq. by eapply lookup_lt_Some.
Qed.

Lemma focus_end i c s :
  focus i c [] Select s ->
  exists s', socketServer.run [socketServer.FwdSub i; socketServer.WrPkg true] s = Some s'
             /\ socketServer.writing s' = false
             /\ chan_closed (socketServer.pkgs s') = true
             /\ (exists f, socketServer.forwarders s' !! i = Some f
                           /\ socketServer.sub f = c /\ socketServer.at_ f = Exited)
             /\ socketServer.wire s' = socketServer.wire s.
Proof.
  intros (Hw & Hp & Hpk & (f & Hf & Hc & Ha) & Hch).
  destruct s as [kv ch bb mb u cl m pk ps rd wr st fw cc wi pa].
  cbn in Hw, Hp, Hpk, Hf, Hch. subst wr pa pk.
  cbn [socketServer.run].
  unfold socketServer.step at 1, socketServer.forward_sub. ss_proj.
  rewrite Hf, Ha, Hc, Hch. cbn [recv close buf chan_closed]. ss_unfold.
  unfold socketServer.step at 1, socketServer.writeConn_pkgs. ss_proj.
  cbn [recv buf chan_closed]. ss_unfold.
  eexists. split; [reflexivity|]. ss_proj. repeat split.
  eexists. rewrite list_lookup_alter_eq, Hf. cbn. done.
Qed.

Lemma focus_flush i c q : forall s,
  focus i c q Select s ->
  exists es s', forallb socketServer.internal es = true
    /\ socketServer.run es s = Some s'
    /\ socketServer.writing s' = false
    /\ chan_closed (socketServer.pkgs s') = true
    /\ (exists f, socketServer.forwarders s' !! i = Some f
                  /\ socketServer.sub f = c /\ socketServer.at_ f = Exited).
Proof.
  induction q as [|x q IH]; intros s Hf.
  - destruct (focus_end _ _ _ Hf) as (s' & Hrun & Hw & Hc & Ha & _).
    exists [socketServer.FwdSub i; socketServer.WrPkg true], s'. auto.
  - destruct (focus_item _ _ _ _ _ Hf) as (s1 & frame & Hrun1 & Hf1).
    destruct (focus_send _ _ _ _ _ Hf1) as (s2 & Hrun2 & Hf2).
    destruct (IH _ Hf2) as (es & s' & Hint & Hrun & Hrest).
    exists ([socketServer.FwdSub i] ++ [socketServer.FwdSend i; socketServer.WrPkg true] ++ es), s'.
    split; [cbn; exact Hint|]. split; [|exact Hrest].
    rewrite ss_run_app, Hrun1, ss_run_app, Hrun2. exact Hrun.
Qed.

(** Once [writeConn] has returned, nothing is written any more. *)
Lemma ss_watchBox_keeps box kv_ok s :
  socketServer.writing (socketServer.watchBox box kv_ok s) = socketServer.writing s
  /\ socketServer.wire (socketServer.watchBox box kv_ok s) = socketServer.wire s.
Proof.
  unfold socketServer.watchBox. repeat case_match; auto.
Qed.

Lemma ss_ignoreBox_keeps box s :
  socketServer.writing (socketServer.ignoreBox box s) = socketServer.writing s
  /\ socketServer.wire (socketServer.ignoreBox box s) = socketServer.wire s.
Proof.
  unfold socketServer.ignoreBox. repeat case_match; auto.
Qed.

Lemma ss_writer_gone_step e s s' :
  socketServer.writing s = false -> socketServer.step e s = Some s' ->
  socketServer.writing s' = false /\ socketServer.wire s' = socketServer.wire s.
Proof.
  intros Hw. unfold socketServer.step.
  destruct (socketServer.panicked s); [discriminate|].
  destruct e as [r k|i|i|i|ok|ok| | |item t|item u|b p]; rewrite ?Hw; try discriminate.
  - destruct (socketServer.reading s); [|discriminate]. intros [= <-].
    unfold socketServer.readConn.
    pose proof (ss_watchBox_keeps) as HW. pose proof (ss_ignoreBox_keeps) as HI.
    repeat case_match; ss_unfold; auto; rewrite <- Hw.
    + apply HW.
    + apply HI.
  - unfold socketServer.forward_closed. repeat case_match; intros [= <-]; ss_unfold; auto.
  - unfold socketServer.forward_sub. repeat case_match; intros [= <-]; ss_unfold; auto.
  - unfold socketServer.forward_send. repeat case_match; intros [= <-]; ss_unfold; auto.
  - destruct (_ && _); [|discriminate]. intros [= <-]. unfold socketServer.stop.
    repeat case_match; ss_proj; auto.
  - destruct (pubsub.Pub _ _ _ _); intros [= <-]. ss_unfold; auto.
  - destruct (pubsub.Pub _ _ _ _); intros [= <-]. ss_unfold; auto.
  - intros [= <-]. ss_unfold; auto.
Qed.

Lemma ss_writer_gone es : forall s s',
  socketServer.writing s = false -> socketServer.run es s = Some s' ->
  socketServer.writing s' = false /\ socketServer.wire s' = socketServer.wire s.
Proof.
  induction es as [|e es IH]; intros s s' Hw Hrun.
  - cbn in Hrun. injection Hrun as <-. auto.
  - cbn in Hrun. destruct (socketServer.step e s) as [s1|] eqn:E; [|discriminate].
    destruct (ss_writer_gone_step _ _ _ Hw E) as [Hw1 Hwire1].
    destruct (IH _ _ Hw1 Hrun) as [Hw' Hwire']. split; congruence.
Qed.




Lemma open_at_lt queues c : open_at queues c -> (c < length queues)%nat.
Proof.
  unfold open_at. intros H. destruct (queues !! c) eqn:E; [|discriminate].
  by eapply lookup_lt_Some.
Qed.

Lemma open_at_app queues extra c :
  open_at queues c -> open_at (queues ++ extra) c.
Proof.
  intros H. pose proof (open_at_lt _ _ H). unfold open_at in *.
  by rewrite lookup_app_l.
Qed.

Lemma open_at_insert queues k ch ch' c :
  queues !! k = Some ch -> chan_closed ch' = chan_closed ch ->
  open_at queues c -> open_at (<[k := ch']> queues) c.
Proof.
  unfold open_at. intros Hk Hcl H. destruct (decide (k = c)) as [->|Hne].
  - rewrite list_lookup_insert_eq by (by eapply lookup_lt_Some).
    rewrite Hk in H. cbn in *. congruence.
  - by rewrite list_lookup_insert_ne.
Qed.

Lemma open_at_alter_ne queues f k c :
  k <> c -> open_at queues c -> open_at (alter f k queues) c.
Proof.
  unfold open_at. intros Hne H. by rewrite list_lookup_alter_ne.
Qed.

Section bus_facts.
Context `{Countable K}.

Lemma deliver_closed item subscribers : forall queues queues' c,
  pubsub.deliver item subscribers queues = Some queues' ->
  chan_closed <$> queues' !! c = chan_closed <$> queues !! c.
Proof.
  induction subscribers as [|k subscribers IH]; intros queues queues' c Hd.
  - cbn in Hd. by injection Hd as <-.
  - cbn in Hd. destruct (queues !! k) as [ch|] eqn:Ek; [|discriminate].
    unfold send in Hd. destruct (chan_closed ch) eqn:Ecl; [discriminate|].
    destruct (_ <? _)%nat; [|discriminate].
    rewrite (IH _ _ c Hd). destruct (decide (k = c)) as [->|Hne].
    + rewrite list_lookup_insert_eq by (by eapply lookup_lt_Some).
      rewrite Ek. cbn. by rewrite Ecl.
    + by rewrite list_lookup_insert_ne.
Qed.

Lemma Pub_open item (topic : K) queues bus queues' c :
  pubsub.Pub item topic queues bus = Some queues' ->
  open_at queues c -> open_at queues' c.
Proof.
  unfold pubsub.Pub, open_at. intros Hd. by rewrite (deliver_closed _ _ _ _ c Hd).
Qed.

Lemma Unsub_open sub (topic : K) queues bus c :
  c <> sub -> open_at queues c -> open_at (pubsub.Unsub sub topic queues bus).1 c.
Proof.
  intros Hne Ho. unfold pubsub.Unsub. case_bool_decide; cbn [fst]; [|done].
  by apply open_at_alter_ne.
Qed.

Lemma Unsub_bus_ne sub (topic t : K) queues bus :
  t <> topic -> (pubsub.Unsub sub topic queues bus).2 !! t = bus !! t.
Proof.
  intros Hne. unfold pubsub.Unsub. case_bool_decide; cbn [snd]; [|done].
  by rewrite lookup_insert_ne.
Qed.

Lemma Unsub_subscribed sub (topic : K) queues bus ch :
  sub ∈ default [] (bus !! topic) -> queues !! sub = Some ch ->
  (pubsub.Unsub sub topic queues bus).1 !! sub
  = Some {| buf := buf ch; chan_closed := true |}
  /\ sub ∉ default [] ((pubsub.Unsub sub topic queues bus).2 !! topic).
Proof.
  intros Hin Hch. unfold pubsub.Unsub. rewrite bool_decide_eq_true_2 by done.
  cbn [fst snd]. split.
  - by rewrite list_lookup_alter_eq, Hch.
  - rewrite lookup_insert_eq. cbn. intros [? _]%list_elem_of_filter. done.
Qed.

End bus_facts.

Lemma ss_inv_start user store queues boxBus msgBus :
  ss_inv (socketServer.start user store queues boxBus msgBus).
Proof.
  unfold socketServer.start, pubsub.Sub.
  split; ss_proj.
  - done.
  - done.
  - unfold open_at. rewrite lookup_app_r by lia. by rewrite Nat.sub_diag.
  - rewrite lookup_insert_eq. cbn [default]. set_solver.
  - intros h c Hl. by rewrite lookup_empty in Hl.
  - intros h1 h2 c Hl. by rewrite lookup_empty in Hl.
  - intros _ h c Hl. by rewrite lookup_empty in Hl.
Qed.

Lemma watch_queue (tmp : bytes) (queues : list chan) :
  exists ch0, chan_closed ch0 = false
    /\ (if (0 <? length tmp)%nat
        then match send pubsub.queueCap tmp <$> (queues ++ [make]) !! length queues with
             | Some (Sent ch) => <[length queues := ch]> (queues ++ [make])
             | _ => queues ++ [make]
             end
        else queues ++ [make]) = queues ++ [ch0].
Proof.
  destruct (0 <? length tmp)%nat; [|by exists make].
  rewrite lookup_app_r by lia. rewrite Nat.sub_diag.
  cbn [lookup list_lookup fmap option_fmap option_map send make buf chan_closed
       length Nat.ltb Nat.leb pubsub.queueCap app].
  eexists. split; [|rewrite insert_app_r_alt by lia; rewrite Nat.sub_diag; reflexivity].
  reflexivity.
Qed.

Lemma ss_inv_watchBox box kv_ok s : ss_inv s -> ss_inv (socketServer.watchBox box kv_ok s).
Proof.
  intros I. unfold socketServer.watchBox.
  destruct (negb _); [done|].
  destruct (socketServer.pkgSubs s !! hex.EncodeToString box) eqn:Esub; [done|].
  unfold pubsub.Sub.
  destruct (watch_queue (socketServer.PickUpPackage kv_ok box s) (socketServer.chans s))
    as (ch0 & Hch0 & ->).
  set (h0 := hex.EncodeToString box) in *. set (c0 := length (socketServer.chans s)).
  pose proof (open_at_lt _ _ (inv_messages_open s I)) as Hm.
  assert (Hold : forall h c, socketServer.pkgSubs s !! h = Some c -> (c < c0)%nat).
  { intros h c Hl. apply (inv_subs s I) in Hl as (_ & Ho & _). by apply open_at_lt. }
  split; ss_proj.
  - apply (inv_closed s I).
  - apply (inv_stopping s I).
  - apply open_at_app, (inv_messages_open s I).
  - apply (inv_messages_sub s I).
  - intros h c Hl. destruct (decide (h = h0)) as [->|Hne].
    + rewrite lookup_insert_eq in Hl. injection Hl as <-.
      split; [lia|]. split.
      * unfold open_at. rewrite lookup_app_r by lia. rewrite Nat.sub_diag. cbn. by rewrite Hch0.
      * rewrite lookup_insert_eq. cbn. set_solver.
    + rewrite lookup_insert_ne in Hl by done.
      destruct (inv_subs s I _ _ Hl) as (H1 & H2 & H3).
      split; [done|]. split; [by apply open_at_app|]. by rewrite lookup_insert_ne.
  - intros h1 h2 c H1 H2.
    destruct (decide (h1 = h0)) as [->|Hn1], (decide (h2 = h0)) as [->|Hn2]; [done|..].
    + rewrite lookup_insert_eq in H1. injection H1 as <-.
      rewrite lookup_insert_ne in H2 by done. apply Hold in H2. lia.
    + rewrite lookup_insert_eq in H2. injection H2 as <-.
      rewrite lookup_insert_ne in H1 by done. apply Hold in H1. lia.
    + rewrite lookup_insert_ne in H1, H2 by done. by eapply (inv_inj s I).
  - intros Hcl h c Hl. destruct (decide (h = h0)) as [->|Hne].
    + rewrite lookup_insert_eq in Hl. injection Hl as <-.
      exists (length (socketServer.forwarders s)). eexists.
      rewrite lookup_app_r by lia. rewrite Nat.sub_diag. cbn. done.
    + rewrite lookup_insert_ne in Hl by done.
      destruct (inv_alive s I Hcl _ _ Hl) as (i & f & Hf & Hs & Ha).
      exists i, f. split; [|done]. rewrite lookup_app_l; [done|]. by eapply lookup_lt_Some.
Qed.

Lemma ss_inv_ignoreBox box s : ss_inv s -> ss_inv (socketServer.ignoreBox box s).
Proof.
  intros I. unfold socketServer.ignoreBox.
  set (h0 := hex.EncodeToString box).
  destruct (socketServer.pkgSubs s !! h0) as [c0|] eqn:Esub; [|done].
  destruct (pubsub.Unsub c0 h0 _ _) as [queues bus] eqn:EU.
  assert (Hq : queues = (pubsub.Unsub c0 h0 (socketServer.chans s)
                           (socketServer.dropBoxPubSub s)).1) by (by rewrite EU).
  assert (Hb : bus = (pubsub.Unsub c0 h0 (socketServer.chans s)
                           (socketServer.dropBoxPubSub s)).2) by (by rewrite EU).
  clear EU. destruct (inv_subs s I _ _ Esub) as (Hm0 & _ & _).
  split; ss_proj.
  - apply (inv_closed s I).
  - apply (inv_stopping s I).
  - subst queues. apply Unsub_open; [done|]. apply (inv_messages_open s I).
  - apply (inv_messages_sub s I).
  - intros h c Hl. apply lookup_delete_Some in Hl as [Hne Hl].
    destruct (inv_subs s I _ _ Hl) as (H1 & H2 & H3).
    split; [done|]. split.
    + subst queues. apply Unsub_open; [|done]. intros ->. apply Hne.
      by eapply (inv_inj s I).
    + subst bus. by rewrite Unsub_bus_ne.
  - intros h1 h2 c [_ H1]%lookup_delete_Some [_ H2]%lookup_delete_Some.
    by eapply (inv_inj s I).
  - intros Hcl h c [_ Hl]%lookup_delete_Some. by eapply (inv_alive s I).
Qed.

Lemma ss_inv_step e s s' : ss_inv s -> socketServer.step e s = Some s' -> ss_inv s'.
Proof.
  intros I. unfold socketServer.step.
  destruct (socketServer.panicked s); [discriminate|].
  destruct e as [r k|i|i|i|ok|ok| | |item t|item u|b p].
  - (* readConn *)
    destruct (socketServer.reading s); [|discriminate]. intros [= <-].
    assert (Hend : ss_inv (socketServer.set_closed true (socketServer.set_reading false s))).
    { destruct I. split; ss_unfold; try done. }
    unfold socketServer.readConn. repeat case_match; try done.
    + by apply ss_inv_watchBox.
    + by apply ss_inv_ignoreBox.
  - (* a forwarder sees ss.closed *)
    unfold socketServer.forward_closed.
    destruct (socketServer.forwarders s !! i) as [f|]; [|discriminate].
    destruct (socketServer.at_ f); try discriminate.
    destruct (socketServer.closed s) eqn:Ecl; [|discriminate]. intros [= <-].
    destruct I. split; ss_unfold; try done. rewrite Ecl. discriminate.
  - (* a forwarder receives from its queue *)
    unfold socketServer.forward_sub.
    destruct (socketServer.forwarders s !! i) as [f|] eqn:Ef; [|discriminate].
    destruct (socketServer.at_ f) eqn:Ea; try discriminate.
    destruct (socketServer.chans s !! socketServer.sub f) as [ch|] eqn:Ech; [|discriminate].
    unfold recv. destruct (buf ch) as [|x rest] eqn:Eb.
    + destruct (chan_closed ch) eqn:Ecl; [|discriminate].
      assert (Halive : socketServer.closed s = false ->
        forall h c, socketServer.pkgSubs s !! h = Some c ->
        exists i' f', alter (fun f0 => {| socketServer.hexID := socketServer.hexID f0;
                                         socketServer.boxID := socketServer.boxID f0;
                                         socketServer.sub := socketServer.sub f0;
                                         socketServer.at_ := Exited |}) i
                        (socketServer.forwarders s) !! i' = Some f'
                      /\ socketServer.sub f' = c /\ socketServer.at_ f' <> Exited).
      { intros Hc h c Hl. destruct (inv_alive s I Hc _ _ Hl) as (i' & f' & Hf' & Hs & Ha).
        exists i', f'. split; [|done]. rewrite list_lookup_alter_ne; [done|].
        intros ->. rewrite Ef in Hf'. injection Hf' as <-.
        destruct (inv_subs s I _ _ Hl) as (_ & Ho & _). unfold open_at in Ho.
        rewrite <- Hs, Ech in Ho. cbn in Ho. congruence. }
      destruct (close (socketServer.pkgs s)); intros [= <-].
      * destruct I. split; ss_unfold; done.
      * destruct I. split; ss_unfold; done.
    + intros [= <-].
      assert (Hopen : forall c, open_at (socketServer.chans s) c ->
                open_at (<[socketServer.sub f :=
                            {| buf := rest; chan_closed := chan_closed ch |}]>
                           (socketServer.chans s)) c).
      { intros c. by apply (open_at_insert _ _ ch). }
      split; ss_unfold.
      * apply (inv_closed s I).
      * apply (inv_stopping s I).
      * apply Hopen, (inv_messages_open s I).
      * apply (inv_messages_sub s I).
      * intros h c Hl. destruct (inv_subs s I _ _ Hl) as (H1 & H2 & H3). auto.
      * apply (inv_inj s I).
      * intros Hc h c Hl. destruct (inv_alive s I Hc _ _ Hl) as (i' & f' & Hf' & Hs & Ha).
        destruct (decide (i = i')) as [<-|Hne].
        -- eexists i, _. rewrite list_lookup_alter_eq, Hf'. cbn. done.
        -- exists i', f'. by rewrite list_lookup_alter_ne.
  - (* a forwarder sends to the writer *)
    unfold socketServer.forward_send.
    destruct (socketServer.forwarders s !! i) as [f|] eqn:Ef; [|discriminate].
    destruct (socketServer.at_ f) eqn:Ea; try discriminate.
    assert (Halive : socketServer.closed s = false ->
      forall h c, socketServer.pkgSubs s !! h = Some c ->
      exists i' f', alter (fun f0 => {| socketServer.hexID := socketServer.hexID f0;
                                       socketServer.boxID := socketServer.boxID f0;
                                       socketServer.sub := socketServer.sub f0;
                                       socketServer.at_ := Select |}) i
                      (socketServer.forwarders s) !! i' = Some f'
                    /\ socketServer.sub f' = c /\ socketServer.at_ f' <> Exited).
    { intros Hc h c Hl. destruct (inv_alive s I Hc _ _ Hl) as (i' & f' & Hf' & Hs & Ha').
      destruct (decide (i = i')) as [<-|Hne].
      - eexists i, _. rewrite list_lookup_alter_eq, Hf'. cbn. done.
      - exists i', f'. by rewrite list_lookup_alter_ne. }
    destruct (send _ _ _); try discriminate; intros [= <-];
      destruct I; split; ss_unfold; done.
  - (* the writer takes a user message *)
    destruct (socketServer.writing s); [|discriminate].
    unfold socketServer.writeConn_messages.
    destruct (socketServer.chans s !! socketServer.messages s) as [ch|] eqn:Ech;
      [|discriminate].
    unfold recv. destruct (buf ch) as [|x rest] eqn:Eb.
    + destruct (chan_closed ch); [|discriminate]. intros [= <-].
      destruct I. split; ss_unfold; done.
    + intros [= <-].
      assert (Hopen : forall c, open_at (socketServer.chans s) c ->
                open_at (<[socketServer.messages s :=
                            {| buf := rest; chan_closed := chan_closed ch |}]>
                           (socketServer.chans s)) c).
      { intros c. by apply (open_at_insert _ _ ch). }
      destruct ok; split; ss_unfold;
        try apply (inv_closed s I); try apply (inv_stopping s I);
        try apply Hopen, (inv_messages_open s I); try apply (inv_messages_sub s I);
        try apply (inv_inj s I); try apply (inv_alive s I);
        intros h c Hl; destruct (inv_subs s I _ _ Hl) as (H1 & H2 & H3); auto.
  - (* the writer takes a package *)
    destruct (socketServer.writing s); [|discriminate].
    unfold socketServer.writeConn_pkgs, recv.
    destruct (buf (socketServer.pkgs s)).
    + destruct (chan_closed _); [|discriminate]. intros [= <-].
      destruct I. split; ss_unfold; done.
    + intros [= <-]. destruct ok; destruct I; split; ss_unfold; done.
  - (* the writer sees ss.closed *)
    destruct (socketServer.writing s); [|discriminate].
    unfold socketServer.writeConn_closed.
    destruct (socketServer.closed s); [|discriminate]. intros [= <-].
    destruct I. split; ss_unfold; done.
  - (* stop is never running *)
    rewrite (inv_stopping s I). discriminate.
  - (* a package is published *)
    destruct (pubsub.Pub _ _ _ _) as [queues|] eqn:EP; [|discriminate]. intros [= <-].
    pose proof (fun c => Pub_open _ _ _ _ _ c EP) as Hopen.
    split; ss_unfold;
      try apply (inv_closed s I); try apply (inv_stopping s I);
      try apply Hopen, (inv_messages_open s I); try apply (inv_messages_sub s I);
      try apply (inv_inj s I); try apply (inv_alive s I);
      intros h c Hl; destruct (inv_subs s I _ _ Hl) as (H1 & H2 & H3); auto.
  - (* a user message is published *)
    destruct (pubsub.Pub _ _ _ _) as [queues|] eqn:EP; [|discriminate]. intros [= <-].
    pose proof (fun c => Pub_open _ _ _ _ _ c EP) as Hopen.
    split; ss_unfold;
      try apply (inv_closed s I); try apply (inv_stopping s I);
      try apply Hopen, (inv_messages_open s I); try apply (inv_messages_sub s I);
      try apply (inv_inj s I); try apply (inv_alive s I);
      intros h c Hl; destruct (inv_subs s I _ _ Hl) as (H1 & H2 & H3); auto.
  - (* the store changes *)
    intros [= <-]. destruct I. split; ss_unfold; done.
Qed.

Lemma ss_inv_run es : forall s s',
  ss_inv s -> socketServer.run es s = Some s' -> ss_inv s'.
Proof.
  induction es as [|e es IH]; intros s s' I Hrun.
  - cbn in Hrun. by injection Hrun as <-.
  - cbn in Hrun. destruct (socketServer.step e s) as [s1|] eqn:E; [|discriminate].
    eapply IH; [|exact Hrun]. by eapply ss_inv_step.
Qed.

Lemma ss_inv_reachable s : socketServer.reachable s -> ss_inv s.
Proof.
  intros (user & store & queues & boxBus & msgBus & es & Hrun).
  eapply ss_inv_run; [apply ss_inv_start|exact Hrun].
Qed.

Lemma internal_WrPkg n :
  forallb socketServer.internal (repeat (socketServer.WrPkg true) n) = true.
Proof. induction n; [reflexivity|assumption]. Qed.

Lemma ss_ignoreBox_watched (s : socketServer.state) (B : bytes) (c : nat) (ch : chan) :
  socketServer.pkgSubs s !! hex.EncodeToString B = Some c ->
  c ∈ default [] (socketServer.dropBoxPubSub s !! hex.EncodeToString B) ->
  socketServer.chans s !! c = Some ch ->
  let s1 := socketServer.ignoreBox B s in
  socketServer.pkgSubs s1 !! hex.EncodeToString B = None
  /\ (c ∉ default [] (socketServer.dropBoxPubSub s1 !! hex.EncodeToString B))
  /\ socketServer.chans s1 !! c = Some {| buf := buf ch; chan_closed := true |}
  /\ socketServer.forwarders s1 = socketServer.forwarders s
  /\ socketServer.pkgs s1 = socketServer.pkgs s
  /\ socketServer.writing s1 = socketServer.writing s
  /\ socketServer.panicked s1 = socketServer.panicked s
  /\ socketServer.wire s1 = socketServer.wire s.
Proof.
  intros Hsub Hin Hch. cbn zeta. unfold socketServer.ignoreBox. rewrite Hsub.
  destruct (Unsub_subscribed c (hex.EncodeToString B) _ _ ch Hin Hch) as [H1 H2].
  destruct (pubsub.Unsub _ _ _ _) as [queues bus]. cbn [fst snd] in H1, H2. ss_proj.
  rewrite lookup_delete_eq. auto 10.
Qed.

(** *** What the forwarder and the writer still do after an IGNORE *)

Lemma closed_chan_eta ch :
  chan_closed ch = true -> {| buf := buf ch; chan_closed := true |} = ch.
Proof. destruct ch as [b c]. cbn. by intros ->. Qed.

Section bus_closed.
Context `{Countable K}.

Lemma deliver_closed_same item subscribers : forall queues queues' c ch,
  pubsub.deliver item subscribers queues = Some queues' ->
  queues !! c = Some ch -> chan_closed ch = true ->
  queues' !! c = Some ch.
Proof.
  induction subscribers as [|k subscribers IH]; intros queues queues' c ch Hd Hc Hcl.
  - cbn in Hd. by injection Hd as <-.
  - cbn in Hd. destruct (queues !! k) as [chk|] eqn:Ek; [|discriminate].
    destruct (decide (k = c)) as [->|Hne].
    + rewrite Hc in Ek. injection Ek as <-. unfold send in Hd. rewrite Hcl in Hd.
      discriminate.
    + destruct (send _ _ _) as [ch'| |]; try discriminate.
      eapply IH; [exact Hd| |exact Hcl]. by rewrite list_lookup_insert_ne.
Qed.

Lemma Unsub_closed_same sub (topic : K) queues bus c ch :
  queues !! c = Some ch -> chan_closed ch = true ->
  (pubsub.Unsub sub topic queues bus).1 !! c = Some ch.
Proof.
  intros Hc Hcl. unfold pubsub.Unsub. case_bool_decide; cbn [fst]; [|done].
  destruct (decide (sub = c)) as [->|Hne].
  - rewrite list_lookup_alter_eq, Hc. cbn. by rewrite closed_chan_eta.
  - by rewrite list_lookup_alter_ne.
Qed.

End bus_closed.

Lemma receives_left_keep i c (s s' : socketServer.state) :
  socketServer.forwarders s' !! i = socketServer.forwarders s !! i ->
  socketServer.chans s' !! c = socketServer.chans s !! c ->
  socketServer.panicked s = false ->
  (socketServer.tracked i c s -> socketServer.tracked i c s')
  /\ (socketServer.receives_left i c s' <= socketServer.receives_left i c s)%nat.
Proof.
  intros Hf Hc Hp. unfold socketServer.tracked, socketServer.receives_left. rewrite Hf, Hc, Hp.
  split; [auto|]. destruct (socketServer.panicked s'); lia.
Qed.

Lemma watchBox_keep i c box kv_ok (s : socketServer.state) :
  socketServer.tracked i c s ->
  socketServer.forwarders (socketServer.watchBox box kv_ok s) !! i
  = socketServer.forwarders s !! i
  /\ socketServer.chans (socketServer.watchBox box kv_ok s) !! c
     = socketServer.chans s !! c.
Proof.
  intros [(f & Hf & _) Hc]. unfold socketServer.watchBox.
  destruct (negb _); [done|]. destruct (socketServer.pkgSubs s !! _); [done|].
  unfold pubsub.Sub.
  destruct (watch_queue (socketServer.PickUpPackage kv_ok box s) (socketServer.chans s))
    as (ch0 & _ & ->). ss_proj.
  split; (rewrite lookup_app_l; [done|]).
  - by eapply lookup_lt_Some.
  - destruct (socketServer.chans s !! c) eqn:E; [|discriminate]. by eapply lookup_lt_Some.
Qed.

Lemma ignoreBox_keep i c box (s : socketServer.state) :
  socketServer.tracked i c s ->
  socketServer.forwarders (socketServer.ignoreBox box s) !! i
  = socketServer.forwarders s !! i
  /\ socketServer.chans (socketServer.ignoreBox box s) !! c
     = socketServer.chans s !! c.
Proof.
  intros [_ Hc]. unfold socketServer.ignoreBox.
  destruct (socketServer.pkgSubs s !! _) as [c0|]; [|done].
  destruct (socketServer.chans s !! c) as [ch|] eqn:Ech; [|discriminate].
  cbn in Hc. injection Hc as Hcl.
  pose proof (Unsub_closed_same c0 (hex.EncodeToString box) _
                (socketServer.dropBoxPubSub s) c ch Ech Hcl) as HU.
  destruct (pubsub.Unsub _ _ _ _) as [queues bus]. cbn [fst] in HU. ss_proj. done.
Qed.

Lemma stop_keep i c (s : socketServer.state) :
  socketServer.tracked i c s ->
  socketServer.forwarders (socketServer.stop s) !! i = socketServer.forwarders s !! i
  /\ socketServer.chans (socketServer.stop s) !! c = socketServer.chans s !! c.
Proof.
  intros [_ Hc]. unfold socketServer.stop.
  destruct (socketServer.chans s !! c) as [ch|] eqn:Ech; [|discriminate].
  cbn in Hc. injection Hc as Hcl.
  assert (HF : forall l,
    (foldr (fun kv qb => pubsub.Unsub kv.2 kv.1 qb.1 qb.2)
       (socketServer.chans s, socketServer.dropBoxPubSub s) l).1 !! c = Some ch).
  { induction l as [|[h c0] l IH]; [done|]. cbn [foldr fst snd].
    by apply Unsub_closed_same. }
  specialize (HF (map_to_list (socketServer.pkgSubs s))).
  destruct (foldr _ _ _) as [queues bus]. cbn [fst] in HF.
  pose proof (Unsub_closed_same (socketServer.messages s) (socketServer.userID s) queues
                (socketServer.messagesPubSub s) c ch HF Hcl) as HU.
  destruct (pubsub.Unsub _ _ _ _) as [queues' msgBus]. cbn [fst] in HU. ss_proj. done.
Qed.

Lemma variant_close i c (s s' : socketServer.state) f ch f' ch' (n : nat) :
  socketServer.panicked s = false ->
  socketServer.forwarders s !! i = Some f -> socketServer.chans s !! c = Some ch ->
  socketServer.forwarders s' !! i = Some f' -> socketServer.sub f' = c ->
  socketServer.chans s' !! c = Some ch' -> chan_closed ch' = true ->
  (n + match socketServer.at_ f' with Exited => 0 | _ => S (length (buf ch')) end
   <= match socketServer.at_ f with Exited => 0 | _ => S (length (buf ch)) end)%nat ->
  socketServer.tracked i c s' /\ (n + socketServer.receives_left i c s'
      <= socketServer.receives_left i c s)%nat.
Proof.
  intros Hp Hf Hc Hf' Hs' Hc' Hcl' Hle. unfold socketServer.tracked, socketServer.receives_left.
  rewrite Hp, Hf, Hc, Hf', Hc'. cbn. rewrite Hcl'. split; [eauto|].
  destruct (socketServer.panicked s'); [|exact Hle].
  destruct (socketServer.at_ f'), (socketServer.at_ f); lia.
Qed.

Lemma fwd_variant_step i c e (s s' : socketServer.state) :
  socketServer.tracked i c s -> socketServer.step e s = Some s' ->
  socketServer.tracked i c s'
  /\ ((if socketServer.is_FwdSub i e then 1 else 0) + socketServer.receives_left i c s'
      <= socketServer.receives_left i c s)%nat.
Proof.
  intros T. unfold socketServer.step.
  destruct (socketServer.panicked s) eqn:Hp; [discriminate|].
  assert (Keep : forall s1 : socketServer.state,
    socketServer.forwarders s1 !! i = socketServer.forwarders s !! i ->
    socketServer.chans s1 !! c = socketServer.chans s !! c ->
    socketServer.tracked i c s1 /\ (0 + socketServer.receives_left i c s1
        <= socketServer.receives_left i c s)%nat).
  { intros s1 Hf Hc. destruct (receives_left_keep i c s s1 Hf Hc Hp) as [HT Hle]. auto. }
  destruct T as [(f & Hf & Hs) Hc].
  destruct (socketServer.chans s !! c) as [ch|] eqn:Ech; [|discriminate].
  cbn in Hc. injection Hc as Hcl.
  assert (T : socketServer.tracked i c s)
    by (unfold socketServer.tracked; rewrite Ech; cbn; rewrite Hcl; eauto).
  pose proof (fun s' f' ch' n => variant_close i c s s' f ch f' ch' n Hp Hf Ech) as Close.
  destruct e as [r k|j|j|j|ok|ok| | |item t|item u|b p]; cbn [socketServer.is_FwdSub].
  - clear Close. destruct (socketServer.reading s); [|discriminate]. intros [= <-].
    unfold socketServer.readConn. repeat case_match; try (by apply Keep).
    + destruct (watchBox_keep i c l k s T) as [H5 H6]. apply Keep; congruence.
    + destruct (ignoreBox_keep i c l s T) as [H5 H6]. apply Keep; congruence.
  - unfold socketServer.forward_closed.
    destruct (socketServer.forwarders s !! j) as [fj|] eqn:Efj; [|discriminate].
    destruct (socketServer.at_ fj); try discriminate.
    destruct (socketServer.closed s); [|discriminate]. intros [= <-].
    destruct (decide (j = i)) as [->|Hne].
    + eapply Close;
        [ss_unfold; rewrite list_lookup_alter_eq, Hf; reflexivity
        |exact Hs|ss_unfold; exact Ech|exact Hcl|cbn; lia].
    + apply Keep; ss_unfold; [by rewrite list_lookup_alter_ne|done].
  - unfold socketServer.forward_sub.
    destruct (socketServer.forwarders s !! j) as [fj|] eqn:Efj; [|discriminate].
    destruct (socketServer.at_ fj) eqn:Eaj; try discriminate.
    destruct (socketServer.chans s !! socketServer.sub fj) as [chj|] eqn:Echj;
      [|discriminate].
    unfold recv. destruct (buf chj) as [|x rest] eqn:Eb.
    + destruct (chan_closed chj); [|discriminate].
      destruct (Nat.eqb_spec j i) as [->|Hne].
      * rewrite Efj in Hf. injection Hf as ->.
        destruct (close _); intros [= <-].
        -- eapply Close;
             [ss_unfold; rewrite list_lookup_alter_eq, Efj; reflexivity
             |exact Hs|ss_unfold; exact Ech|exact Hcl|cbn; rewrite Eaj; lia].
        -- unfold socketServer.tracked, socketServer.receives_left. ss_unfold.
        rewrite Efj, Ech. cbn.
           rewrite Hcl, Hp, Eaj. split; [eauto|lia].
      * destruct (close _); intros [= <-].
        -- apply Keep; ss_unfold; [by rewrite list_lookup_alter_ne|done].
        -- by apply Keep.
    + intros [= <-].
      assert (Hch' : exists ch', <[socketServer.sub fj :=
                         {| buf := rest; chan_closed := chan_closed chj |}]>
                        (socketServer.chans s) !! c = Some ch'
                /\ chan_closed ch' = true
                /\ (socketServer.sub fj = c -> S (length (buf ch')) = length (buf ch))
                /\ (length (buf ch') <= length (buf ch))%nat).
      { destruct (decide (socketServer.sub fj = c)) as [Hsc|Hsc].
        - rewrite Hsc in *. rewrite Ech in Echj. injection Echj as <-.
          eexists. rewrite list_lookup_insert_eq by (by eapply lookup_lt_Some).
          split; [reflexivity|]. cbn. rewrite Eb. cbn. repeat split; auto; lia.
        - exists ch. rewrite list_lookup_insert_ne by done. repeat split; auto; done. }
      destruct Hch' as (ch' & Hl' & Hcl' & Hlen1 & Hlen2).
      destruct (Nat.eqb_spec j i) as [->|Hne].
      * rewrite Efj in Hf. injection Hf as ->.
        eapply Close;
          [ss_unfold; rewrite list_lookup_alter_eq, Efj; reflexivity
          |exact Hs|ss_unfold; exact Hl'|exact Hcl'
          |cbn; rewrite Eaj; specialize (Hlen1 Hs); lia].
      * eapply Close;
          [ss_unfold; rewrite list_lookup_alter_ne by done; exact Hf
          |exact Hs|ss_unfold; exact Hl'|exact Hcl'
          |destruct (socketServer.at_ f); lia].
  - unfold socketServer.forward_send.
    destruct (socketServer.forwarders s !! j) as [fj|] eqn:Efj; [|discriminate].
    destruct (socketServer.at_ fj) eqn:Eaj; try discriminate.
    destruct (send _ _ _); try discriminate; intros [= <-].
    + destruct (decide (j = i)) as [->|Hne].
      * rewrite Efj in Hf. injection Hf as ->.
        eapply Close;
          [ss_unfold; rewrite list_lookup_alter_eq, Efj; reflexivity
          |exact Hs|ss_unfold; exact Ech|exact Hcl|cbn; rewrite Eaj; lia].
      * apply Keep; ss_unfold; [by rewrite list_lookup_alter_ne|done].
    + by apply Keep.
  - destruct (socketServer.writing s); [|discriminate].
    unfold socketServer.writeConn_messages.
    destruct (socketServer.chans s !! socketServer.messages s) as [chm|] eqn:Echm;
      [|discriminate].
    unfold recv. destruct (buf chm) as [|x rest] eqn:Eb.
    + destruct (chan_closed chm); [|discriminate]. intros [= <-]. by apply Keep.
    + intros [= <-].
      assert (Hch' : exists ch', <[socketServer.messages s :=
                         {| buf := rest; chan_closed := chan_closed chm |}]>
                        (socketServer.chans s) !! c = Some ch'
                /\ chan_closed ch' = true
                /\ (length (buf ch') <= length (buf ch))%nat).
      { destruct (decide (socketServer.messages s = c)) as [Hsc|Hsc].
        - rewrite Hsc in *. rewrite Ech in Echm. injection Echm as <-.
          eexists. rewrite list_lookup_insert_eq by (by eapply lookup_lt_Some).
          split; [reflexivity|]. cbn. rewrite Eb. cbn. repeat split; auto; lia.
        - exists ch. rewrite list_lookup_insert_ne by done. auto. }
      destruct Hch' as (ch' & Hl' & Hcl' & Hlen).
      eapply Close;
        [destruct ok; ss_unfold; exact Hf|exact Hs
        |destruct ok; ss_unfold; exact Hl'|exact Hcl'
        |destruct (socketServer.at_ f); lia].
  - destruct (socketServer.writing s); [|discriminate].
    unfold socketServer.writeConn_pkgs, recv.
    destruct (buf (socketServer.pkgs s)).
    + destruct (chan_closed (socketServer.pkgs s)); [|discriminate].
      intros [= <-]. by apply Keep.
    + intros [= <-]. destruct ok; by apply Keep.
  - destruct (socketServer.writing s); [|discriminate].
    unfold socketServer.writeConn_closed.
    destruct (socketServer.closed s); [|discriminate]. intros [= <-]. by apply Keep.
  - destruct (_ && _); [|discriminate]. intros [= <-].
    destruct (stop_keep i c s T) as [H5 H6]. apply Keep; congruence.
  - destruct (pubsub.Pub _ _ _ _) as [queues|] eqn:EP; [|discriminate]. intros [= <-].
    apply Keep; [done|]. ss_unfold. unfold pubsub.Pub in EP.
    by eapply deliver_closed_same.
  - destruct (pubsub.Pub _ _ _ _) as [queues|] eqn:EP; [|discriminate]. intros [= <-].
    apply Keep; [done|]. ss_unfold. unfold pubsub.Pub in EP.
    by eapply deliver_closed_same.
  - intros [= <-]. by apply Keep.
Qed.

Lemma closing_step e (s s' : socketServer.state) :
  socketServer.closing s -> socketServer.step e s = Some s' -> socketServer.closing s'.
Proof.
  unfold socketServer.closing, socketServer.step.
  destruct (socketServer.panicked s) eqn:Hp; [discriminate|].
  intros [Hpk|[Hcl|?]]; [| |discriminate].
  - (* ss.pkgs is closed *)
    destruct e as [r k|j|j|j|ok|ok| | |item t|item u|b p].
    + destruct (socketServer.reading s); [|discriminate]. intros [= <-]. left.
      unfold socketServer.readConn, socketServer.watchBox, socketServer.ignoreBox.
      repeat case_match; ss_unfold; done.
    + unfold socketServer.forward_closed. repeat case_match; try discriminate.
      intros [= <-]. left. ss_unfold. done.
    + unfold socketServer.forward_sub, close. rewrite Hpk.
      repeat case_match; try discriminate; intros [= <-]; ss_unfold; auto.
    + unfold socketServer.forward_send, send. rewrite Hpk.
      repeat case_match; try discriminate; intros [= <-]; ss_unfold; auto.
    + destruct (socketServer.writing s); [|discriminate].
      unfold socketServer.writeConn_messages.
      destruct ok; repeat case_match; try discriminate; intros [= <-]; left;
        ss_unfold; done.
    + destruct (socketServer.writing s); [|discriminate].
      unfold socketServer.writeConn_pkgs, recv.
      destruct (buf (socketServer.pkgs s)).
      * rewrite Hpk. intros [= <-]. left. ss_unfold. done.
      * intros [= <-]. left. destruct ok; ss_unfold; done.
    + destruct (socketServer.writing s); [|discriminate].
      unfold socketServer.writeConn_closed. repeat case_match; try discriminate.
      intros [= <-]. left. ss_unfold. done.
    + destruct (_ && _); [|discriminate]. intros [= <-]. left.
      unfold socketServer.stop. repeat case_match. ss_proj. done.
    + destruct (pubsub.Pub _ _ _ _); intros [= <-]. left. ss_unfold. done.
    + destruct (pubsub.Pub _ _ _ _); intros [= <-]. left. ss_unfold. done.
    + intros [= <-]. left. ss_unfold. done.
  - (* ss.closed is closed *)
    destruct e as [r k|j|j|j|ok|ok| | |item t|item u|b p].
    + destruct (socketServer.reading s); [|discriminate]. intros [= <-]. right. left.
      unfold socketServer.readConn, socketServer.watchBox, socketServer.ignoreBox.
      repeat case_match; ss_unfold; done.
    + unfold socketServer.forward_closed. repeat case_match; try discriminate.
      intros [= <-]. right. left. ss_unfold. done.
    + unfold socketServer.forward_sub.
      repeat case_match; try discriminate; intros [= <-]; right; left; ss_unfold; done.
    + unfold socketServer.forward_send.
      repeat case_match; try discriminate; intros [= <-]; right; left; ss_unfold; done.
    + destruct (socketServer.writing s); [|discriminate].
      unfold socketServer.writeConn_messages.
      destruct ok; repeat case_match; try discriminate; intros [= <-]; right; left;
        ss_unfold; done.
    + destruct (socketServer.writing s); [|discriminate].
      unfold socketServer.writeConn_pkgs.
      destruct ok; repeat case_match; try discriminate; intros [= <-]; right; left;
        ss_unfold; done.
    + destruct (socketServer.writing s); [|discriminate].
      unfold socketServer.writeConn_closed. repeat case_match; try discriminate.
      intros [= <-]. right. left. ss_unfold. done.
    + destruct (_ && _); [|discriminate]. intros [= <-]. right. left.
      unfold socketServer.stop. repeat case_match. ss_proj. done.
    + destruct (pubsub.Pub _ _ _ _); intros [= <-]. right. left. ss_unfold. done.
    + destruct (pubsub.Pub _ _ _ _); intros [= <-]. right. left. ss_unfold. done.
    + intros [= <-]. right. left. ss_unfold. done.
Qed.

(** What a step can do to forwarder [i]: leave it where it stands, move
    it somewhere else than to its return, or bring the session down. *)
Lemma at_step i e (s s' : socketServer.state) f :
  socketServer.forwarders s !! i = Some f -> socketServer.step e s = Some s' ->
  socketServer.at_ <$> socketServer.forwarders s' !! i = Some (socketServer.at_ f)
  \/ socketServer.at_ <$> socketServer.forwarders s' !! i <> Some Exited
  \/ socketServer.closing s'.
Proof.
  intros Hf. unfold socketServer.step.
  destruct (socketServer.panicked s) eqn:Hp; [discriminate|].
  assert (Same : forall s1 : socketServer.state,
    socketServer.forwarders s1 = socketServer.forwarders s ->
    socketServer.at_ <$> socketServer.forwarders s1 !! i = Some (socketServer.at_ f)
    \/ socketServer.at_ <$> socketServer.forwarders s1 !! i <> Some Exited
    \/ socketServer.closing s1).
  { intros s1 ->. left. by rewrite Hf. }
  assert (Alter : forall (s1 : socketServer.state) j p,
    socketServer.forwarders s1
    = alter (fun f0 => {| socketServer.hexID := socketServer.hexID f0;
                          socketServer.boxID := socketServer.boxID f0;
                          socketServer.sub := socketServer.sub f0;
                          socketServer.at_ := p |}) j (socketServer.forwarders s) ->
    (j = i -> p = Exited -> socketServer.closing s1) ->
    socketServer.at_ <$> socketServer.forwarders s1 !! i = Some (socketServer.at_ f)
    \/ socketServer.at_ <$> socketServer.forwarders s1 !! i <> Some Exited
    \/ socketServer.closing s1).
  { intros s1 j p -> Hcl. destruct (decide (j = i)) as [->|Hne].
    - rewrite list_lookup_alter_eq, Hf. cbn.
      destruct p; [right; left; discriminate..|]. right. right. by apply Hcl.
    - left. by rewrite list_lookup_alter_ne, Hf. }
  destruct e as [r k|j|j|j|ok|ok| | |item t|item u|b p].
  - destruct (socketServer.reading s); [|discriminate]. intros [= <-].
    unfold socketServer.readConn. repeat case_match; try (by apply Same).
    + unfold socketServer.watchBox.
      repeat case_match; try (by apply Same); left; ss_proj;
        (rewrite lookup_app_l, Hf; [done|]); by eapply lookup_lt_Some.
    + unfold socketServer.ignoreBox. repeat case_match; by apply Same.
  - unfold socketServer.forward_closed.
    destruct (socketServer.forwarders s !! j) as [fj|]; [|discriminate].
    destruct (socketServer.at_ fj); try discriminate.
    destruct (socketServer.closed s) eqn:Hcl; [|discriminate]. intros [= <-].
    eapply Alter; [reflexivity|]. intros _ _. right. left. ss_unfold. done.
  - unfold socketServer.forward_sub.
    destruct (socketServer.forwarders s !! j) as [fj|]; [|discriminate].
    destruct (socketServer.at_ fj); try discriminate.
    destruct (socketServer.chans s !! socketServer.sub fj) as [chj|]; [|discriminate].
    unfold recv. destruct (buf chj) as [|x rest].
    + destruct (chan_closed chj); [|discriminate].
      unfold close. destruct (chan_closed (socketServer.pkgs s)); intros [= <-].
      * right. right. right. right. ss_unfold. done.
      * eapply Alter; [reflexivity|]. intros _ _. left. ss_unfold. done.
    + intros [= <-]. eapply Alter; [reflexivity|]. discriminate.
  - unfold socketServer.forward_send.
    destruct (socketServer.forwarders s !! j) as [fj|]; [|discriminate].
    destruct (socketServer.at_ fj); try discriminate.
    destruct (send _ _ _); try discriminate; intros [= <-].
    + eapply Alter; [reflexivity|]. discriminate.
    + by apply Same.
  - destruct (socketServer.writing s); [|discriminate].
    unfold socketServer.writeConn_messages.
    destruct ok; repeat case_match; try discriminate; intros [= <-]; by apply Same.
  - destruct (socketServer.writing s); [|discriminate].
    unfold socketServer.writeConn_pkgs.
    destruct ok; repeat case_match; try discriminate; intros [= <-]; by apply Same.
  - destruct (socketServer.writing s); [|discriminate].
    unfold socketServer.writeConn_closed. repeat case_match; try discriminate.
    intros [= <-]. by apply Same.
  - destruct (_ && _); [|discriminate]. intros [= <-]. apply Same.
    unfold socketServer.stop. by repeat case_match.
  - destruct (pubsub.Pub _ _ _ _); intros [= <-]. by apply Same.
  - destruct (pubsub.Pub _ _ _ _); intros [= <-]. by apply Same.
  - intros [= <-]. by apply Same.
Qed.

Lemma wr_variant_step e (s s' : socketServer.state) :
  chan_closed (socketServer.pkgs s) = true -> socketServer.step e s = Some s' ->
  chan_closed (socketServer.pkgs s') = true
  /\ ((if socketServer.is_WrPkg e then 1 else 0) + socketServer.writes_left s'
      <= socketServer.writes_left s)%nat.
Proof.
  intros Hpk. unfold socketServer.step.
  destruct (socketServer.panicked s) eqn:Hp; [discriminate|].
  assert (Same : forall s1 : socketServer.state,
    socketServer.pkgs s1 = socketServer.pkgs s ->
    (socketServer.writing s1 = socketServer.writing s \/ socketServer.writing s1 = false) ->
    chan_closed (socketServer.pkgs s1) = true
    /\ (0 + socketServer.writes_left s1 <= socketServer.writes_left s)%nat).
  { intros s1 H1 H2. unfold socketServer.writes_left. rewrite H1, Hp. split; [done|].
    destruct (socketServer.panicked s1); [lia|].
    destruct H2 as [-> | ->]; [lia|]. destruct (socketServer.writing s); lia. }
  destruct e as [r k|j|j|j|ok|ok| | |item t|item u|b p]; cbn [socketServer.is_WrPkg].
  - destruct (socketServer.reading s); [|discriminate]. intros [= <-].
    unfold socketServer.readConn, socketServer.watchBox, socketServer.ignoreBox.
    repeat case_match; apply Same; ss_unfold; auto.
  - unfold socketServer.forward_closed. repeat case_match; try discriminate.
    intros [= <-]. apply Same; ss_unfold; auto.
  - unfold socketServer.forward_sub, close. rewrite Hpk.
    repeat case_match; try discriminate; intros [= <-]; apply Same; ss_unfold; auto.
  - unfold socketServer.forward_send, send. rewrite Hpk.
    repeat case_match; try discriminate; intros [= <-]; apply Same; ss_unfold; auto.
  - destruct (socketServer.writing s) eqn:Hw; [|discriminate].
    unfold socketServer.writeConn_messages.
    destruct ok; repeat case_match; try discriminate; intros [= <-]; apply Same;
      ss_unfold; auto.
  - destruct (socketServer.writing s) eqn:Hw; [|discriminate].
    unfold socketServer.writeConn_pkgs, recv, socketServer.writes_left. rewrite Hp, Hw.
    destruct (buf (socketServer.pkgs s)) as [|x rest].
    + rewrite Hpk. intros [= <-]. ss_unfold. rewrite Hp. split; [done|]. cbn. lia.
    + intros [= <-]. destruct ok; ss_unfold; rewrite Hp, ?Hw; split; try done; cbn; lia.
  - destruct (socketServer.writing s) eqn:Hw; [|discriminate].
    unfold socketServer.writeConn_closed. repeat case_match; try discriminate.
    intros [= <-]. apply Same; ss_unfold; auto.
  - destruct (_ && _); [|discriminate]. intros [= <-].
    unfold socketServer.stop. repeat case_match. apply Same; ss_proj; auto.
  - destruct (pubsub.Pub _ _ _ _); intros [= <-]. apply Same; ss_unfold; auto.
  - destruct (pubsub.Pub _ _ _ _); intros [= <-]. apply Same; ss_unfold; auto.
  - intros [= <-]. apply Same; ss_unfold; auto.
Qed.

Lemma fwd_variant_run i c es : forall s s' : socketServer.state,
  socketServer.tracked i c s -> socketServer.run es s = Some s' ->
  socketServer.tracked i c s'
  /\ (socketServer.count (socketServer.is_FwdSub i) es + socketServer.receives_left i c s'
      <= socketServer.receives_left i c s)%nat.
Proof.
  induction es as [|e es IH]; intros s s' T Hrun.
  - cbn in Hrun. injection Hrun as <-. cbn. auto.
  - cbn in Hrun. destruct (socketServer.step e s) as [s1|] eqn:E; [|discriminate].
    destruct (fwd_variant_step _ _ _ _ _ T E) as [T1 H1].
    destruct (IH _ _ T1 Hrun) as [T' H']. split; [done|].
    cbn [socketServer.count]. lia.
Qed.

Lemma exit_cause_run i c es : forall s s' : socketServer.state,
  socketServer.tracked i c s ->
  (socketServer.at_ <$> socketServer.forwarders s !! i = Some Exited -> socketServer.closing s) ->
  socketServer.run es s = Some s' ->
  socketServer.at_ <$> socketServer.forwarders s' !! i = Some Exited -> socketServer.closing s'.
Proof.
  induction es as [|e es IH]; intros s s' T EC Hrun.
  - cbn in Hrun. by injection Hrun as <-.
  - cbn in Hrun. destruct (socketServer.step e s) as [s1|] eqn:E; [|discriminate].
    destruct (fwd_variant_step _ _ _ _ _ T E) as [T1 _].
    apply (IH _ _ T1); [|exact Hrun]. intros Hex.
    destruct T as [(f & Hf & _) _].
    destruct (at_step _ _ _ _ _ Hf E) as [Hsame|[Hne|Hcl]]; [|done|done].
    eapply closing_step; [|exact E]. apply EC. rewrite Hf. cbn. congruence.
Qed.

Lemma wr_variant_run es : forall s s' : socketServer.state,
  chan_closed (socketServer.pkgs s) = true -> socketServer.run es s = Some s' ->
  chan_closed (socketServer.pkgs s') = true
  /\ (socketServer.count socketServer.is_WrPkg es + socketServer.writes_left s'
      <= socketServer.writes_left s)%nat.
Proof.
  induction es as [|e es IH]; intros s s' Hpk Hrun.
  - cbn in Hrun. injection Hrun as <-. cbn. auto.
  - cbn in Hrun. destruct (socketServer.step e s) as [s1|] eqn:E; [|discriminate].
    destruct (wr_variant_step _ _ _ Hpk E) as [Hpk1 H1].
    destruct (IH _ _ Hpk1 Hrun) as [Hpk' H']. split; [done|].
    cbn [socketServer.count]. lia.
Qed.

(** C9.  In the socket server, let a reachable session whose reader is
    alive process an IGNORE for a box it watches, with [q] the items left
    in the queue of that subscription and [i] its forwarding goroutine.
    The subscription is dropped and the queue closed.  Then:
    - the session's goroutines can run on their own until [writeConn] has
      returned; when the writer was alive and [ss.pkgs] open, this run has
      the forwarder drain its queue, close [ss.pkgs] and return, and the
      writer receive nil and return;
    - in every run, the forwarder makes at most [length q + 1] receives
      from its queue, and is found returned only with [ss.pkgs] closed,
      [ss.closed] closed, or the process panicked;
    - once [ss.pkgs] is closed, the writer makes at most one receive from
      it per item left and one more, after which it has returned;
    - once the writer has returned, nothing is ever written on the
      connection, whatever is published, stored or received. *)
Theorem ignore_ends_writer (s : socketServer.state) (B : bytes) (c : nat) (kv_ok : bool) :
  socketServer.reachable s ->
  socketServer.reading s = true -> socketServer.panicked s = false ->
  socketServer.pkgSubs s !! hex.EncodeToString B = Some c ->
  exists s1 i q,
    socketServer.step (socketServer.Read (ReadMsg true (socketCmdIgnore :: B)) kv_ok) s
    = Some s1
    /\ socketServer.pkgSubs s1 !! hex.EncodeToString B = None
    /\ socketServer.chans s1 !! c = Some {| buf := q; chan_closed := true |}
    /\ (exists f, socketServer.forwarders s1 !! i = Some f
                  /\ socketServer.sub f = c /\ socketServer.at_ f <> Exited)
    /\ (exists es s2,
          forallb socketServer.internal es = true
          /\ socketServer.run es s1 = Some s2
          /\ socketServer.writing s2 = false
          /\ (socketServer.writing s = true -> chan_closed (socketServer.pkgs s) = false ->
              chan_closed (socketServer.pkgs s2) = true
              /\ socketServer.at_ <$> socketServer.forwarders s2 !! i = Some Exited))
    /\ (forall es t, socketServer.run es s1 = Some t ->
          (socketServer.count (socketServer.is_FwdSub i) es + socketServer.receives_left i c t
              <= S (length q))%nat
          /\ (socketServer.at_ <$> socketServer.forwarders t !! i = Some Exited ->
              socketServer.closing t))
    /\ (forall t, chan_closed (socketServer.pkgs t) = true ->
        forall es u, socketServer.run es t = Some u ->
          (socketServer.count socketServer.is_WrPkg es + socketServer.writes_left u
              <= socketServer.writes_left t)%nat)
    /\ (forall t, socketServer.writing t = false ->
        forall es u, socketServer.run es t = Some u ->
          socketServer.writing u = false /\ socketServer.wire u = socketServer.wire t).
Proof.
  intros Hreach Hr Hp Hsub. pose proof (ss_inv_reachable _ Hreach) as I.
  pose proof (inv_closed s I Hr) as Hcl.
  destruct (inv_subs s I _ _ Hsub) as (_ & Ho & Hin).
  destruct (inv_alive s I Hcl _ _ Hsub) as (i & f & Hf & Hs & Ha).
  unfold open_at in Ho.
  destruct (socketServer.chans s !! c) as [ch|] eqn:Ech; [|discriminate].
  destruct (ss_ignoreBox_watched s B c ch Hsub Hin Ech)
    as (H1 & _ & H3 & H4 & H5 & H6 & H7 & _).
  exists (socketServer.ignoreBox B s), i, (buf ch). split.
  { unfold socketServer.step. rewrite Hp, Hr. cbn [socketServer.readConn].
    rewrite !bool_decide_eq_false_2 by discriminate.
    rewrite bool_decide_eq_true_2 by reflexivity. reflexivity. }
  split; [exact H1|]. split; [exact H3|].
  set (s1 := socketServer.ignoreBox B s) in *.
  split; [exists f; by rewrite H4|].
  assert (Hgone : forall t, socketServer.writing t = false ->
            forall es u, socketServer.run es t = Some u ->
            socketServer.writing u = false
            /\ socketServer.wire u = socketServer.wire t).
  { intros t Hw2 es u. by apply ss_writer_gone. }
  assert (T1 : socketServer.tracked i c s1).
  { unfold socketServer.tracked. rewrite H4, H3. eauto. }
  assert (Hrl : socketServer.receives_left i c s1 = S (length (buf ch))).
  { unfold socketServer.receives_left. rewrite H7, Hp, H4, Hf, H3.
  by destruct (socketServer.at_ f). }
  split; [|split; [|split; [|exact Hgone]]].
  2:{ intros es t Hrun. split.
      - rewrite <- Hrl. by apply (fwd_variant_run i c es s1 t T1).
      - apply (exit_cause_run i c es s1 t T1); [|exact Hrun].
        rewrite H4, Hf. cbn. congruence. }
  2:{ intros t Hpk es u Hrun. by apply (wr_variant_run es t u Hpk). }
  destruct (socketServer.writing s) eqn:Hw.
  2:{ exists [], s1. split; [reflexivity|]. split; [reflexivity|].
      split; [congruence|]. discriminate. }
  destruct (ss_drain (length (buf (socketServer.pkgs s1))) s1)
    as (s' & Hrun & _ & Hpk & Hch & Hfw & Hw' & Hp'); [congruence|congruence|reflexivity|].
  rewrite H5 in Hpk. rewrite H4 in Hfw.
  destruct (chan_closed (socketServer.pkgs s)) eqn:Hpc.
  - (* the package channel was closed before: the writer drains it and returns *)
    exists (repeat (socketServer.WrPkg true) (length (buf (socketServer.pkgs s1)))
            ++ [socketServer.WrPkg true]).
    eexists. split; [by rewrite forallb_app, internal_WrPkg|].
    split; [|split; [|discriminate]].
    + rewrite ss_run_app, Hrun. cbn [socketServer.run]. unfold socketServer.step.
      rewrite Hp', Hw'. unfold socketServer.writeConn_pkgs. rewrite Hpk.
      cbn [recv buf chan_closed]. reflexivity.
    + reflexivity.
  - (* the forwarder of the box drains its queue and closes the channel *)
    assert (Hfocus : focus i c (buf ch) (socketServer.at_ f) s').
    { unfold focus. rewrite Hfw, Hch, H3. eauto 10. }
    assert (exists es2 s2, forallb socketServer.internal es2 = true
              /\ socketServer.run es2 s' = Some s2
              /\ socketServer.writing s2 = false
              /\ chan_closed (socketServer.pkgs s2) = true
              /\ (exists f, socketServer.forwarders s2 !! i = Some f
                            /\ socketServer.sub f = c /\ socketServer.at_ f = Exited))
      as (es2 & s2 & Hint & Hrun2 & Hw2 & Hc2 & Hf2).
    { destruct (socketServer.at_ f) as [|frame|] eqn:Eat;
        [by apply (focus_flush i c (buf ch))| |done].
      destruct (focus_send _ _ _ _ _ Hfocus) as (sa & Hruna & Hfa).
      destruct (focus_flush i c (buf ch) _ Hfa) as (es & s2 & Hint & Hrun2 & Hrest).
      exists ([socketServer.FwdSend i; socketServer.WrPkg true] ++ es), s2.
      split; [exact Hint|]. split; [|exact Hrest]. by rewrite ss_run_app, Hruna. }
    exists (repeat (socketServer.WrPkg true) (length (buf (socketServer.pkgs s1))) ++ es2), s2.
    split; [by rewrite forallb_app, internal_WrPkg|].
    split; [by rewrite ss_run_app, Hrun|]. split; [exact Hw2|].
    intros _ _. split; [exact Hc2|].
    destruct Hf2 as (f2 & Hf2 & _ & Ha2). rewrite Hf2. cbn. by rewrite Ha2.
Qed.

Lemma ignore_ends_writer_witness :
  exists s1,
    socketServer.step (socketServer.Read (ReadMsg true (socketCmdIgnore :: box0)) true)
      watching0 = Some s1
    /\ exists es s2,
         forallb socketServer.internal es = true
         /\ socketServer.run es s1 = Some s2
         /\ socketServer.writing s2 = false
         /\ chan_closed (socketServer.pkgs s2) = true.
Proof.
  destruct (ignore_ends_writer watching0 box0 1 true)
    as (s1 & i & q & H1 & _ & _ & _ & (es & s2 & Hi & Hr & Hw & Hc) & _).
  - exists 7, store0, [], ∅, ∅,
      [socketServer.Read (ReadMsg true (socketCmdWatch :: box0)) true;
       socketServer.FwdSub 0; socketServer.FwdSend 0; socketServer.WrPkg true].
    vm_compute. reflexivity.
  - reflexivity.
  - reflexivity.
  - vm_compute. reflexivity.
  - exists s1. split; [exact H1|]. exists es, s2.
    split; [exact Hi|]. split; [exact Hr|]. split; [exact Hw|].
    apply Hc; reflexivity.
Defined.

Lemma noop_frames_change_nothing_witness :
  socketServer.step (socketServer.Read (ReadMsg true (socketCmdWatch :: box0)) true)
    watching0 = Some watching0
  /\ socketServer.step (socketServer.Read (ReadMsg true [x07; x00]) true) watching0
     = Some watching0.
Proof.
  split.
  - apply (proj2 noop_frames_change_nothing watching0 (socketCmdWatch :: box0) true).
    + reflexivity.
    + reflexivity.
    + apply noop_watch. exists 1%nat. vm_compute. reflexivity.
  - apply (proj2 noop_frames_change_nothing watching0 [x07; x00] true).
    + reflexivity.
    + reflexivity.
    + apply noop_unknown. vm_compute. discriminate.
Defined.

(** ** Closing a socket *)

(** In every state a socket-server session can reach -- before and after
    the connection closed -- the message subscription and every
    subscription of [ss.pkgSubs] are still registered on the bus, with an
    open queue: nothing ever releases them. *)
Lemma ss_subscriptions_persist (s : socketServer.state) :
  socketServer.reachable s ->
  (socketServer.messages s
     ∈ default [] (socketServer.messagesPubSub s !! socketServer.userID s)
   /\ open_at (socketServer.chans s) (socketServer.messages s))
  /\ forall h c, socketServer.pkgSubs s !! h = Some c ->
       c ∈ default [] (socketServer.dropBoxPubSub s !! h)
       /\ open_at (socketServer.chans s) c.
Proof.
  intros Hreach. pose proof (ss_inv_reachable _ Hreach) as I. split.
  - split; [apply (inv_messages_sub s I)|apply (inv_messages_open s I)].
  - intros h c Hl. destruct (inv_subs s I _ _ Hl) as (_ & H1 & H2). auto.
Qed.

(** C2 at the failing input.  A socket-server session of user 7 watches
    [box0], then its connection closes and all its goroutines return:
    the box subscription and the message subscription are still on the
    bus, and a later publish on the box is enqueued for the dead session.
    The package listener, on the same input, ends with the subscription
    removed and its queue closed, so that the publish reaches nobody. *)
Theorem closed_socket_server_stays_subscribed :
  (socketServer.run ss_close_trace (socketServer.session 7 store0) = Some ss_closed0
   /\ socketServer.closed ss_closed0 = true
   /\ socketServer.reading ss_closed0 = false
   /\ socketServer.writing ss_closed0 = false
   /\ socketServer.at_ <$> socketServer.forwarders ss_closed0 = [Exited]
   /\ socketServer.dropBoxPubSub ss_closed0 !! hexbox0 = Some [1%nat]
   /\ socketServer.messagesPubSub ss_closed0 !! 7 = Some [0%nat]
   /\ chan_closed <$> socketServer.chans ss_closed0 = [false; false]
   /\ (buf <$> socketServer.chans ss_closed0) !! 1%nat = Some [[x58]]
   /\ (fun s' => buf <$> socketServer.chans s')
        <$> socketServer.step (socketServer.PubPkg [x41] hexbox0) ss_closed0
      = Some [[]; [[x58]; [x41]]])
  /\ (packageListener.run pl_close_trace (packageListener.session server1)
      = Some pl_closed0
      /\ packageListener.reading pl_closed0 = false
      /\ packageListener.writing pl_closed0 = false
      /\ packageListener.stopping pl_closed0 = packageListener.StopDone
      /\ packageListener.at_ <$> packageListener.forwarders pl_closed0 = [Exited]
      /\ packageListener.dropBoxPubSub pl_closed0 !! hexbox0 = Some []
      /\ chan_closed <$> packageListener.chans pl_closed0 = [true]
      /\ packageListener.chans
           <$> packageListener.step (packageListener.PubPkg [x41] hexbox0) pl_closed0
         = Some (packageListener.chans pl_closed0)).
Proof.
  split.
  - split.
    { vm_compute. reflexivity. }
    repeat (match goal with |- _ /\ _ => split end); vm_compute; reflexivity.
  - split.
    { vm_compute. reflexivity. }
    repeat (match goal with |- _ /\ _ => split end); vm_compute; reflexivity.
Qed.

(** * Properties of the rest of the code *)

Lemma byte_of_Z_mod x b : x mod 256 = Z_of_byte b -> byte_of_Z x = b.
Proof.
  intros H. rewrite <- (byte_of_Z_of_byte b), <- H.
  unfold byte_of_Z. rewrite Z.mod_mod by lia. reflexivity.
Qed.

Lemma testbit_Z_of_byte b n :
  Z.testbit (Z_of_byte b) n = ((0 <=? n) && (n <? 8) && Z.testbit (Z_of_byte b) n)%bool.
Proof.
  rewrite <- (byte_of_Z_of_byte b) at 1. apply testbit_byte_of_Z.
Qed.

Lemma Uint64_slice b0 b1 b2 b3 b4 b5 b6 b7 k bk :
  [b0; b1; b2; b3; b4; b5; b6; b7] !! k = Some bk ->
  Z.shiftr (Uint64 b0 b1 b2 b3 b4 b5 b6 b7) (8 * Z.of_nat k) mod 256 = Z_of_byte bk.
Proof.
  intros Hk. change 256 with (2 ^ 8). apply Z.bits_inj'. intros n Hn.
  rewrite (testbit_Z_of_byte bk).
  destruct (Z.ltb_spec n 8) as [H8|H8].
  2:{ rewrite Z.mod_pow2_bits_high by lia. replace (0 <=? n) with true by lia.
      reflexivity. }
  rewrite Z.mod_pow2_bits_low by lia. rewrite Z.shiftr_spec by lia.
  replace (0 <=? n) with true by lia. cbn [andb].
  unfold Uint64. rewrite !Z.lor_spec, !Z.shiftl_spec by lia.
  rewrite (testbit_Z_of_byte b0 (n + _)), (testbit_Z_of_byte b1 (n + _ - _)),
    (testbit_Z_of_byte b2 (n + _ - _)), (testbit_Z_of_byte b3 (n + _ - _)),
    (testbit_Z_of_byte b4 (n + _ - _)), (testbit_Z_of_byte b5 (n + _ - _)),
    (testbit_Z_of_byte b6 (n + _ - _)), (testbit_Z_of_byte b7 (n + _ - _)).
  do 8 (destruct k as [|k];
    [injection Hk as <-;
     match goal with
     | |- context [8 * Z.of_nat ?k] =>
         let v := eval vm_compute in (8 * Z.of_nat k) in change (8 * Z.of_nat k) with v
     end;
     repeat match goal with
     | |- context [(?a <=? ?b)] => destruct (Z.leb_spec a b); try lia
     | |- context [(?a <? ?b)] => destruct (Z.ltb_spec a b); try lia
     end; cbn [andb orb]; rewrite ?orb_false_r; f_equal; lia|]).
  discriminate.
Qed.

Lemma PutUint64_Uint64 b0 b1 b2 b3 b4 b5 b6 b7 :
  PutUint64 (Uint64 b0 b1 b2 b3 b4 b5 b6 b7) = [b0; b1; b2; b3; b4; b5; b6; b7].
Proof.
  unfold PutUint64.
  pose proof (Uint64_slice b0 b1 b2 b3 b4 b5 b6 b7) as H.
  repeat f_equal; apply byte_of_Z_mod.
  - rewrite <- (H 0%nat b0) by reflexivity. rewrite Z.shiftr_0_r. reflexivity.
  - apply (H 1%nat). reflexivity.
  - apply (H 2%nat). reflexivity.
  - apply (H 3%nat). reflexivity.
  - apply (H 4%nat). reflexivity.
  - apply (H 5%nat). reflexivity.
  - apply (H 6%nat). reflexivity.
  - apply (H 7%nat). reflexivity.
Qed.

Lemma Uint64_range b0 b1 b2 b3 b4 b5 b6 b7 :
  Uint64 b0 b1 b2 b3 b4 b5 b6 b7 mod 2 ^ 64 = Uint64 b0 b1 b2 b3 b4 b5 b6 b7.
Proof.
  pose proof (Uint64_PutUint64 (Uint64 b0 b1 b2 b3 b4 b5 b6 b7)) as H.
  rewrite PutUint64_Uint64 in H. symmetry. exact H.
Qed.

Lemma to_int64_range u : is_int64 (to_int64 u).
Proof.
  unfold is_int64, int64_min, int64_max, to_int64.
  pose proof (Z.mod_pos_bound u (2 ^ 64) ltac:(lia)).
  destruct (Z.ltb_spec (u mod 2 ^ 64) (2 ^ 63)); lia.
Qed.

Lemma to_int64_mod_pattern u : to_int64 u mod 2 ^ 64 = u mod 2 ^ 64.
Proof.
  unfold to_int64.
  pose proof (Z.mod_pos_bound u (2 ^ 64) ltac:(lia)).
  destruct (Z.ltb_spec (u mod 2 ^ 64) (2 ^ 63)).
  - apply Z.mod_mod. lia.
  - symmetry. apply Z.mod_unique with (q := -1); lia.
Qed.

(** X1.  On every input of eight bytes or more [bytesToInt64]
    returns (it does not panic); the result is an int64 that depends on
    the first eight bytes only, and [int64ToBytes] maps it back to
    exactly those eight bytes. *)
Theorem bytesToInt64_reads_eight (b : bytes) :
  (8 <= length b)%nat ->
  exists i, bytesToInt64 b = Some i /\ is_int64 i
    /\ int64ToBytes i = take 8 b
    /\ forall rest, bytesToInt64 (take 8 b ++ rest) = Some i.
Proof.
  intros Hlen.
  do 8 (destruct b as [|? b]; [cbn [length] in Hlen; lia|]).
  eexists. split; [reflexivity|]. split; [apply to_int64_range|]. split.
  - unfold int64ToBytes. rewrite to_int64_mod_pattern, Uint64_range.
    apply PutUint64_Uint64.
  - intros rest. reflexivity.
Qed.

Lemma bytesToInt64_reads_eight_witness :
  exists i, bytesToInt64 [x01; x00; x00; x00; x00; x00; x00; x80; xff] = Some i
    /\ is_int64 i
    /\ int64ToBytes i = [x01; x00; x00; x00; x00; x00; x00; x80]
    /\ forall rest,
         bytesToInt64 ([x01; x00; x00; x00; x00; x00; x00; x80] ++ rest) = Some i.
Proof.
  apply (bytesToInt64_reads_eight [x01; x00; x00; x00; x00; x00; x00; x80; xff]).
  cbn. lia.
Defined.

(** ** Hex strings *)

Lemma string_pairs_ind (P : string -> Prop) :
  P EmptyString ->
  (forall a, P (String a EmptyString)) ->
  (forall a b rest, P rest -> P (String a (String b rest))) ->
  forall s, P s.
Proof.
  intros H0 H1 H2.
  assert (H : forall s, P s /\ forall a, P (String a s)).
  { induction s as [|b s [IH1 IH2]]; split; auto. }
  intros s. apply H.
Qed.

Lemma fromHexChar_range c x : hex.fromHexChar c = Some x -> 0 <= x < 16.
Proof.
  unfold hex.fromHexChar. cbn zeta.
  repeat case_match; intros [= <-]; lia.
Qed.

Lemma hexdigit_fromHexChar c x :
  hex.fromHexChar c = Some x -> (hex.hexdigit x = c <-> is_upper_hex c = false).
Proof.
  intros H. pose proof (fromHexChar_range _ _ H) as Hx. revert H.
  unfold hex.fromHexChar, is_upper_hex. cbn zeta.
  pose proof (N_ascii_embedding (N_of_ascii c)) as He.
  rewrite ascii_N_embedding in He.
  set (n := Z.of_N (N_of_ascii c)) in *.
  assert (Hc : c = ascii_of_N (Z.to_N n)).
  { unfold n. rewrite N2Z.id, ascii_N_embedding. reflexivity. }
  assert (Hn : 0 <= n < 256).
  { unfold n. pose proof (N_ascii_bounded c). lia. }
  unfold hex.hexdigit.
  repeat case_match; intros [= <-]; try lia.
  - split; [lia|intros _]. rewrite Hc. f_equal. lia.
  - split; [lia|intros _]. rewrite Hc. f_equal. lia.
  - split; [intros Heq|lia]. exfalso.
    assert (n = 87 + (n - 65 + 10)); [|lia].
    rewrite Hc in Heq. apply (f_equal N_of_ascii) in Heq.
    rewrite !N_ascii_embedding in Heq by lia. lia.
Qed.

Lemma fromHexChar_hexdigit x :
  0 <= x < 16 -> hex.fromHexChar (hex.hexdigit x) = Some x.
Proof.
  intros Hx.
  assert (Hc : x = 0 \/ x = 1 \/ x = 2 \/ x = 3 \/ x = 4 \/ x = 5 \/ x = 6 \/ x = 7 \/
               x = 8 \/ x = 9 \/ x = 10 \/ x = 11 \/ x = 12 \/ x = 13 \/ x = 14 \/ x = 15)
    by lia.
  repeat (destruct Hc as [->|Hc]; [reflexivity|]). subst. reflexivity.
Qed.

Lemma nibbles_of_byte x y :
  0 <= x < 16 -> 0 <= y < 16 ->
  Z.shiftr (Z_of_byte (byte_of_Z (Z.lor (Z.shiftl x 4) y))) 4 = x
  /\ Z.land (Z_of_byte (byte_of_Z (Z.lor (Z.shiftl x 4) y))) 15 = y.
Proof.
  intros Hx Hy.
  assert (Hcx : x = 0 \/ x = 1 \/ x = 2 \/ x = 3 \/ x = 4 \/ x = 5 \/ x = 6 \/ x = 7 \/
               x = 8 \/ x = 9 \/ x = 10 \/ x = 11 \/ x = 12 \/ x = 13 \/ x = 14 \/ x = 15)
    by lia.
  assert (Hcy : y = 0 \/ y = 1 \/ y = 2 \/ y = 3 \/ y = 4 \/ y = 5 \/ y = 6 \/ y = 7 \/
               y = 8 \/ y = 9 \/ y = 10 \/ y = 11 \/ y = 12 \/ y = 13 \/ y = 14 \/ y = 15)
    by lia.
  clear Hx Hy.
  repeat (destruct Hcx as [->|Hcx]); subst;
    repeat (destruct Hcy as [->|Hcy]; [split; reflexivity|]); subst; split; reflexivity.
Qed.

Lemma byte_of_nibbles b :
  byte_of_Z (Z.lor (Z.shiftl (Z.shiftr (Z_of_byte b) 4) 4) (Z.land (Z_of_byte b) 15)) = b.
Proof.
  destruct b; reflexivity.
Qed.

Lemma nibble_range b :
  0 <= Z.shiftr (Z_of_byte b) 4 < 16 /\ 0 <= Z.land (Z_of_byte b) 15 < 16.
Proof.
  pose proof (Z_of_byte_range b) as Hr. split.
  - rewrite Z.shiftr_div_pow2 by lia. change (2 ^ 4) with 16.
    split; [apply Z.div_pos; lia|apply Z.div_lt_upper_bound; lia].
  - change 15 with (Z.ones 4). rewrite Z.land_ones by lia.
    apply Z.mod_pos_bound. lia.
Qed.

Lemma DecodeString_EncodeToString b :
  hex.DecodeString (hex.EncodeToString b) = (b, true).
Proof.
  induction b as [|x b IH]; [reflexivity|].
  cbn [hex.EncodeToString hex.DecodeString].
  destruct (nibble_range x) as [Hh Hl].
  rewrite !fromHexChar_hexdigit by assumption. rewrite IH, byte_of_nibbles. reflexivity.
Qed.

Lemma DecodeString_ok s : forall b,
  hex.DecodeString s = (b, true) ->
  all_hex s = true /\ String.length s = (2 * length b)%nat
  /\ (hex.EncodeToString b = s <-> has_upper_hex s = false).
Proof.
  induction s as [| a | a c rest IH] using string_pairs_ind; intros b.
  - intros [= <-]. cbn. tauto.
  - discriminate.
  - cbn [hex.DecodeString].
    destruct (hex.fromHexChar a) as [x|] eqn:Ea; [|discriminate].
    destruct (hex.fromHexChar c) as [y|] eqn:Ec; [|discriminate].
    destruct (hex.DecodeString rest) as [l ok] eqn:E. intros [= <- ->].
    destruct (IH l eq_refl) as (Hall & Hlen & Hlow).
    cbn [all_hex String.length length has_upper_hex]. rewrite Ea, Ec, Hall.
    split; [reflexivity|]. split; [lia|].
    destruct (nibbles_of_byte x y (fromHexChar_range _ _ Ea) (fromHexChar_range _ _ Ec))
      as [Hx Hy].
    cbn [hex.EncodeToString]. rewrite Hx, Hy.
    pose proof (hexdigit_fromHexChar _ _ Ea) as Ha.
    pose proof (hexdigit_fromHexChar _ _ Ec) as Hc.
    rewrite !orb_false_iff. split.
    + intros [= H1 H2 H3]. tauto.
    + intros (H1 & H2 & H3). f_equal; [tauto|]. f_equal; tauto.
Qed.

Lemma DecodeString_all_hex s :
  all_hex s = true -> Nat.even (String.length s) = true ->
  exists b, hex.DecodeString s = (b, true).
Proof.
  induction s as [| a | a c rest IH] using string_pairs_ind.
  - eauto.
  - intros _ H. discriminate H.
  - cbn [all_hex String.length hex.DecodeString]. intros H He.
    apply andb_true_iff in H as [Ha H]. apply andb_true_iff in H as [Hc H].
    apply bool_decide_eq_true in Ha as [x ->]. apply bool_decide_eq_true in Hc as [y ->].
    destruct (IH H) as [b ->]; [exact He|]. eauto.
Qed.

(** X3.  [parseDropBoxID] accepts exactly the strings of 32 hex
    digits, in either case; every other string is answered with
    [sendBadReq "invalid drop box id"]. *)
Theorem parseDropBoxID_accepts (s : string) :
  (all_hex s = true /\ String.length s = 32%nat ->
     exists B, parseDropBoxID s = inr (B, s) /\ length B = dropBoxIDSize)
  /\ (~ (all_hex s = true /\ String.length s = 32%nat) ->
     parseDropBoxID s = inl (BadReq "invalid drop box id")).
Proof.
  split.
  - intros [Hall Hlen].
    destruct (DecodeString_all_hex s Hall) as [B HB]; [rewrite Hlen; reflexivity|].
    destruct (DecodeString_ok _ _ HB) as (_ & HL & _).
    assert (length B = dropBoxIDSize) by (unfold dropBoxIDSize; lia).
    exists B. split; [by apply parseDropBoxID_ok|done].
  - intros Hn. apply parseDropBoxID_inl.
    destruct (hex.DecodeString s) as [B ok] eqn:E. cbn [fst snd].
    destruct ok; [right|by left]. intros HL.
    destruct (DecodeString_ok _ _ E) as (Hall & Hlen & _).
    apply Hn. split; [exact Hall|]. unfold dropBoxIDSize in HL. lia.
Qed.

(** X4.  Every 16-byte box id has a spelling the handlers
    accept, the one [hex.EncodeToString] gives; it parses back to the same
    box. *)
Theorem parseDropBoxID_EncodeToString (B : bytes) :
  length B = dropBoxIDSize ->
  parseDropBoxID (hex.EncodeToString B) = inr (B, hex.EncodeToString B).
Proof.
  intros HL. apply parseDropBoxID_ok; [apply DecodeString_EncodeToString|exact HL].
Qed.

Lemma parseDropBoxID_EncodeToString_witness :
  parseDropBoxID (hex.EncodeToString box0) = inr (box0, hex.EncodeToString box0).
Proof.
  apply (parseDropBoxID_EncodeToString box0). reflexivity.
Defined.

(** ** More on the REST handlers *)

Lemma bolt_Put_box B pkg b :
  length B = dropBoxIDSize ->
  bolt.Put B pkg b
  = if Z.of_nat (length pkg) <=? bolt.MaxValueSize then Some (<[B := pkg]> b) else None.
Proof.
  intros HL. unfold bolt.Put.
  rewrite bool_decide_eq_false_2 by (intros ->; discriminate HL).
  rewrite HL. cbn [dropBoxIDSize]. change (bolt.MaxKeySize <? Z.of_nat 16) with false.
  cbn match. destruct (Z.leb_spec (Z.of_nat (length pkg)) bolt.MaxValueSize) as [H|H].
  - apply Z.ltb_ge in H. by rewrite H.
  - apply Z.ltb_lt in H. by rewrite H.
Qed.

(** X5.  The outcome of a PUT.  With a valid id and a readable body,
    the handler answers [sendSuccess] exactly when the package is within
    bolt's value size and the transaction commits: then the box holds the
    package and one notification (package, id as spelled) is published.
    Otherwise it answers [sendInternalErr], the store is as before and
    nothing is published.  A 16-byte key never makes bolt refuse the
    write. *)
Theorem dropPackageHandler_outcome (box_id : string) (B pkg : bytes) (commit : bool)
    (srv : server) :
  parseDropBoxID box_id = inr (B, box_id) ->
  dropPackageHandler box_id (Some pkg) commit srv
  = if commit && (Z.of_nat (length pkg) <=? bolt.MaxValueSize)
    then (Success,
          {| dropboxes := <[B := pkg]> (dropboxes srv); kvlog := kvlog srv ++ [Update];
             pubs := pubs srv ++ [(pkg, box_id)] |})
    else (InternalErr,
          {| dropboxes := dropboxes srv; kvlog := kvlog srv ++ [Update];
             pubs := pubs srv |}).
Proof.
  intros HP. unfold dropPackageHandler. rewrite HP.
  apply parseDropBoxID_inr in HP as (_ & HL & _).
  unfold bolt.Update. rewrite (bolt_Put_box _ _ _ HL).
  destruct (Z.of_nat (length pkg) <=? bolt.MaxValueSize), commit; reflexivity.
Qed.

Lemma dropPackageHandler_outcome_witness :
  dropPackageHandler hexbox0 (Some []) true server0
  = (Success,
     {| dropboxes := <[box0 := []]> ∅; kvlog := [Update]; pubs := [([], hexbox0)] |}).
Proof.
  apply (dropPackageHandler_outcome hexbox0 box0 [] true server0). reflexivity.
Defined.

Lemma putAll_result entries : forall b b' B,
  putAll entries b = Some b' ->
  (b' !! B = b !! B /\ forall h p, (h, p) ∈ entries -> (hex.DecodeString h).1 <> B)
  \/ (exists h p, (h, p) ∈ entries /\ (hex.DecodeString h).1 = B /\ b' !! B = Some p).
Proof.
  induction entries as [|[h0 p0] entries IH]; intros b b' B Hp.
  - cbn in Hp. injection Hp as <-. left. split; [done|]. intros h p Hin.
    by apply elem_of_nil in Hin.
  - cbn in Hp. destruct (bolt.Put _ p0 b) as [b1|] eqn:E; [|discriminate].
    apply bolt_Put_Some in E as ->.
    destruct (IH _ _ B Hp) as [[Heq Hno]|(h & p & Hin & HB & Hl)].
    + destruct (decide ((hex.DecodeString h0).1 = B)) as [HB|HB].
      * right. exists h0, p0. split; [left|]. split; [done|].
        rewrite Heq, <- HB. apply lookup_insert_eq.
      * left. split; [by rewrite Heq, lookup_insert_ne|].
        intros h p [[= -> ->]|Hin]%elem_of_cons; [done|by eapply Hno].
    + right. exists h, p. split; [by right|done].
Qed.

Lemma putAll_sizes entries : forall b b' h p,
  putAll entries b = Some b' -> (h, p) ∈ entries ->
  Z.of_nat (length p) <= bolt.MaxValueSize.
Proof.
  induction entries as [|[h0 p0] entries IH]; intros b b' h p Hp Hin.
  - by apply elem_of_nil in Hin.
  - cbn in Hp. destruct (bolt.Put _ p0 b) as [b1|] eqn:E; [|discriminate].
    apply elem_of_cons in Hin as [[= -> ->]|Hin]; [|by eapply IH].
    unfold bolt.Put in E. repeat case_match; try discriminate. lia.
Qed.

Lemma readParts_last parts : forall m pkgs name,
  readParts parts m = inr pkgs ->
  pkgs !! name = match last_part name parts with
                 | Some data => Some data
                 | None => m !! name
                 end.
Proof.
  induction parts as [|p parts IH]; intros m pkgs name Hr.
  - cbn in Hr. by injection Hr as <-.
  - destruct p as [|n [d|]]; cbn in Hr; try discriminate.
    destruct (hex.DecodeString n) as [b ok] eqn:E.
    destruct ok; cbn in Hr; [|discriminate].
    destruct (negb (length b =? dropBoxIDSize)%nat); [discriminate|].
    rewrite (IH _ _ name Hr). cbn [last_part].
    destruct (last_part name parts); [reflexivity|].
    case_bool_decide as Hn.
    + subst. apply lookup_insert_eq.
    + by apply lookup_insert_ne.
Qed.

Lemma last_part_valid parts : forall m pkgs name data,
  readParts parts m = inr pkgs -> last_part name parts = Some data ->
  (hex.DecodeString name).2 = true /\ length (hex.DecodeString name).1 = dropBoxIDSize.
Proof.
  intros m pkgs name data Hr Hl.
  pose proof (readParts_valid _ _ _ Hr) as Hv. clear Hr.
  induction parts as [|p parts IH]; [discriminate|].
  apply Forall_cons in Hv as [(n & d & -> & Hok & Hlen) Hv].
  cbn [last_part] in Hl. destruct (last_part name parts); [by apply IH|].
  case_bool_decide; [|discriminate]. subst. auto.
Qed.

Lemma readParts_inl parts : forall m r,
  readParts parts m = inl r -> exists reason, r = BadReq reason.
Proof.
  induction parts as [|q parts IH]; intros m r; cbn; [discriminate|].
  destruct q as [|name [data|]]; try (intros [= <-]; eauto).
  destruct (hex.DecodeString name) as [b ok].
  repeat case_match; try (intros [= <-]; eauto). apply IH.
Qed.

(** X6.  A multipart POST that is answered [sendSuccess] treats the
    parts as a map from form name to data: for every form name the last
    part with that name counts.  One notification is published per
    distinct form name, carrying that data; a box that no counted part
    names keeps its package, and every other box holds the data of a
    counted part that names it. *)
Theorem send_last_part_wins (parts : list partResult) (order pub_order : list string)
    (commit : bool) (srv : server) :
  (sendMultiplePackagesHandler (Some parts) order pub_order commit srv).1 = Success ->
  let srv' := (sendMultiplePackagesHandler (Some parts) order pub_order commit srv).2 in
  exists published,
    pubs srv' = pubs srv ++ published
    /\ NoDup published.*2
    /\ (forall name data, (data, name) ∈ published <-> last_part name parts = Some data)
    /\ (forall B,
          (dropboxes srv' !! B = dropboxes srv !! B
           /\ forall name data, last_part name parts = Some data ->
                (hex.DecodeString name).1 <> B)
          \/ (exists name data, last_part name parts = Some data
                /\ (hex.DecodeString name).1 = B /\ dropboxes srv' !! B = Some data)).
Proof.
  cbn zeta. unfold sendMultiplePackagesHandler.
  destruct (readParts parts ∅) as [r|pkgs] eqn:ER.
  { cbn. intros ->. apply readParts_inl in ER as [reason [=]]. }
  assert (Hpk : forall name data, pkgs !! name = Some data <-> last_part name parts = Some data).
  { intros name data. rewrite (readParts_last _ _ _ name ER), lookup_empty.
    destruct (last_part name parts); split; congruence. }
  destruct (bolt.Update _ _ _) as [ok b] eqn:EU.
  apply bolt_Update_spec in EU as [(-> & _ & HP)|[-> ->]]; cbn; [intros _|discriminate].
  eexists. split; [reflexivity|]. split; [|split].
  - rewrite <- list_fmap_compose.
    replace ((snd ∘ (fun kv : string * bytes => (kv.2, kv.1))) <$> range_with pub_order pkgs)
      with ((range_with pub_order pkgs).*1) by (apply list_fmap_ext; by intros ? [? ?]).
    apply NoDup_range_with_keys.
  - intros name data. rewrite <- Hpk, <- (elem_of_range_with pub_order). split.
    + intros ([h p] & [= -> ->] & Hin)%list_elem_of_fmap. exact Hin.
    + intros Hin. apply list_elem_of_fmap. by exists (name, data).
  - intros B. destruct (putAll_result _ _ _ B HP) as [[Heq Hno]|(h & p & Hin & HB & Hl)].
    + left. split; [exact Heq|]. intros name data Hl. apply (Hno name data).
      apply elem_of_range_with, Hpk, Hl.
    + right. exists h, p. split; [|done]. by apply Hpk, (elem_of_range_with order).
Qed.

Lemma send_last_part_wins_witness :
  let parts := [PartOf hexbox0 (Some [x61]); PartOf hexbox0 (Some [x62])] in
  exists published,
    pubs (sendMultiplePackagesHandler (Some parts) [] [] true server0).2 = [] ++ published
    /\ NoDup published.*2
    /\ (forall name data, (data, name) ∈ published <-> last_part name parts = Some data).
Proof.
  cbn zeta.
  destruct (send_last_part_wins
              [PartOf hexbox0 (Some [x61]); PartOf hexbox0 (Some [x62])] [] [] true server0)
    as (published & H1 & H2 & H3 & _); [reflexivity|].
  exists published. auto.
Defined.

Lemma handle_store_wf req srv : store_wf srv -> store_wf (handle req srv).2.
Proof.
  intros Hwf. destruct req as [id|id body commit|rdr order pub_order commit].
  - intros k v. rewrite GET_keeps_store. apply Hwf.
  - cbn [handle]. unfold dropPackageHandler.
    destruct (parseDropBoxID id) as [r|[B h]] eqn:EP; [exact Hwf|].
    destruct body as [pkg|]; [|exact Hwf].
    pose proof (parseDropBoxID_inr _ _ _ EP) as (_ & HL & _).
    unfold bolt.Update. rewrite (bolt_Put_box _ _ _ HL).
    destruct (Z.leb_spec (Z.of_nat (length pkg)) bolt.MaxValueSize); [|exact Hwf].
    destruct commit; [|exact Hwf]. intros k v. cbn [negb snd dropboxes].
    destruct (decide (k = B)) as [->|Hne].
    + rewrite lookup_insert_eq. intros [= <-]. auto.
    + rewrite lookup_insert_ne by done. apply Hwf.
  - cbn [handle]. unfold sendMultiplePackagesHandler.
    destruct rdr as [parts|]; [|exact Hwf].
    destruct (readParts parts ∅) as [r|pkgs] eqn:ER; [exact Hwf|].
    destruct (bolt.Update _ _ _) as [ok b] eqn:EU.
    apply bolt_Update_spec in EU as [(-> & _ & HP)|[-> ->]]; [|exact Hwf].
    intros k v Hk. cbn [negb snd dropboxes] in Hk.
    destruct (putAll_result _ _ _ k HP) as [[Heq _]|(h & p & Hin & HB & Hl)].
    + apply (Hwf k v). by rewrite <- Heq.
    + rewrite Hl in Hk. injection Hk as <-. split.
      * apply elem_of_range_with in Hin.
        rewrite (readParts_last _ _ _ h ER), lookup_empty in Hin.
        destruct (last_part h parts) as [d|] eqn:El; [|discriminate].
        rewrite <- HB. eapply last_part_valid; eauto.
      * eapply putAll_sizes; eauto.
Qed.

(** X7.  The REST surface keeps the store well formed: if every key
    is a 16-byte box id and every package is within bolt's value size,
    this is still so after any sequence of GET, PUT and multipart POST
    requests, whatever their outcome. *)
Theorem serve_keeps_store_wf (reqs : list request) (srv : server) :
  store_wf srv -> store_wf (serve reqs srv).
Proof.
  revert srv. induction reqs as [|req reqs IH]; intros srv Hwf; [exact Hwf|].
  cbn [serve]. apply IH, handle_store_wf, Hwf.
Qed.

Lemma serve_keeps_store_wf_witness :
  store_wf (serve [PUT hexbox0 (Some [x41]) true; GET "zz";
                   POST_send (Some [PartOf hexbox0 (Some [x42])]) [] [] true] server0).
Proof.
  apply (serve_keeps_store_wf _ server0).
  intros k v Hk. cbn in Hk. by rewrite lookup_empty in Hk.
Defined.

(** ** The log level *)

Lemma validLogLevel_range (lvl : Z) :
  validLogLevel lvl = true <-> logLevelDebug <= lvl <= logLevelError.
Proof.
  unfold validLogLevel, logLevelDebug, logLevelInfo, logLevelWarn, logLevelError.
  repeat (match goal with |- context [?a =? ?b] => destruct (Z.eqb_spec a b) end);
    split; intros; try done; lia.
Qed.

Lemma setLogLevels_default bodies : forall curr,
  setLogLevels bodies curr = default curr (last_valid bodies).
Proof.
  induction bodies as [|body bodies IH]; intros curr; [reflexivity|].
  cbn [setLogLevels last_valid]. rewrite IH.
  destruct (last_valid bodies); [reflexivity|].
  unfold setLogLevelHandler. destruct body as [lvl|]; [|reflexivity].
  destruct (validLogLevel lvl); reflexivity.
Qed.

Lemma last_valid_valid bodies : forall lvl,
  last_valid bodies = Some lvl -> validLogLevel lvl = true.
Proof.
  induction bodies as [|body bodies IH]; intros lvl; [discriminate|].
  cbn [last_valid]. destruct (last_valid bodies); [intros [= <-]; by apply IH|].
  destruct body as [l|]; [|discriminate].
  destruct (validLogLevel l) eqn:E; [|discriminate]. by intros [= <-].
Qed.

(** X9.  PUT /log-level accepts exactly the levels 1 to 4: it then
    sets the level and answers with it; any other body is answered with
    [sendBadReq] and the level stays.  So after any sequence of such
    requests the level is the last accepted one, or the initial one; a
    GET /log-level reports it; and a valid level stays valid. *)
Theorem setLogLevels_last_valid (bodies : list (option Z)) (currLogLevel : Z) :
  (forall lvl,
     if (logLevelDebug <=? lvl) && (lvl <=? logLevelError)
     then setLogLevelHandler (Some lvl) currLogLevel = (LogLevelSuccess lvl, lvl)
     else setLogLevelHandler (Some lvl) currLogLevel
          = (LogLevelBadReq "invalid log level", currLogLevel))
  /\ setLogLevels bodies currLogLevel = default currLogLevel (last_valid bodies)
  /\ logLevelHandler (setLogLevels bodies currLogLevel)
     = LogLevelSuccess (default currLogLevel (last_valid bodies))
  /\ (validLogLevel currLogLevel = true ->
      validLogLevel (setLogLevels bodies currLogLevel) = true).
Proof.
  split; [|split; [|split]].
  - intros lvl. unfold setLogLevelHandler.
    pose proof (validLogLevel_range lvl) as Hv.
    destruct (Z.leb_spec logLevelDebug lvl), (Z.leb_spec lvl logLevelError); cbn [andb];
      destruct (validLogLevel lvl); try reflexivity; lia.
  - apply setLogLevels_default.
  - unfold logLevelHandler. by rewrite setLogLevels_default.
  - intros Hc. rewrite setLogLevels_default.
    destruct (last_valid bodies) eqn:E; [by eapply last_valid_valid|exact Hc].
Qed.

(** X10.  The four logging predicates are nested: what is logged at
    a level is logged at every lower one.  At a valid level errors are
    always logged, and at the initial level, [logLevelError], nothing
    else is. *)
Theorem shouldLog_nested (currLogLevel : Z) :
  (shouldLogDebug currLogLevel = true -> shouldLogInfo currLogLevel = true)
  /\ (shouldLogInfo currLogLevel = true -> shouldLogWarn currLogLevel = true)
  /\ (shouldLogWarn currLogLevel = true -> shouldLogError currLogLevel = true)
  /\ (validLogLevel currLogLevel = true -> shouldLogError currLogLevel = true)
  /\ (currLogLevel = logLevelError ->
      shouldLogDebug currLogLevel = false /\ shouldLogInfo currLogLevel = false
      /\ shouldLogWarn currLogLevel = false).
Proof.
  unfold shouldLogDebug, shouldLogInfo, shouldLogWarn, shouldLogError.
  rewrite validLogLevel_range.
  unfold logLevelDebug, logLevelInfo, logLevelWarn, logLevelError.
  repeat split; intros; lia.
Qed.

(** ** Email verification *)

(** X11.  [disavowEmailHandler] always answers exactly once, and
    so does [verifyEmailHandler] unless the token is empty: then it
    answers "Missing verification token" and goes on, so that the token
    record is still looked up and a second answer is sent. *)
Theorem verifyEmailHandler_replies (rs : email.relstor) (body : option string)
    (token : string) :
  length (email.disavowEmailHandler rs token).1 = 1%nat
  /\ length (email.verifyEmailHandler rs body).1
     = (if bool_decide (body = Some EmptyString) then 2 else 1)%nat
  /\ (exists second calls,
       email.verifyEmailHandler rs (Some EmptyString)
       = ([email.sendBadReqCode "Missing verification token" email.errorBadRequest; second],
          email.EmailVerificationTokenRecord EmptyString :: calls)).
Proof.
  split; [|split].
  - unfold email.disavowEmailHandler. repeat case_match; reflexivity.
  - unfold email.verifyEmailHandler. destruct body as [t|]; [|reflexivity].
    destruct (decide (t = EmptyString)) as [->|Hne].
    + rewrite !bool_decide_eq_true_2 by done. repeat case_match; reflexivity.
    + rewrite !bool_decide_eq_false_2 by congruence. repeat case_match; reflexivity.
  - unfold email.verifyEmailHandler. rewrite bool_decide_eq_true_2 by done.
    repeat case_match; cbn [app]; eauto.
Qed.

(** X12.  [verifyEmailHandler] calls [VerifyEmail] only for the
    address and user of the record the store holds for the token of the
    request, never calls [DisavowEmail], and ends with [sendSuccess]
    exactly when that record exists and [VerifyEmail] returned no
    error. *)
Theorem verifyEmailHandler_verifies (rs : email.relstor) (body : option string) :
  let out := email.verifyEmailHandler rs body in
  (forall e u, email.VerifyEmail e u ∈ out.2 <->
     exists token evtr, body = Some token
       /\ email.tokenRecordOf rs token = Some (Some evtr)
       /\ e = email.Email evtr /\ u = email.UserID evtr)
  /\ (forall t, email.DisavowEmail t ∉ out.2)
  /\ (last out.1 = Some email.sendSuccess <->
     exists token evtr, body = Some token
       /\ email.tokenRecordOf rs token = Some (Some evtr)
       /\ email.verifyEmailOk rs (email.Email evtr) (email.UserID evtr) = true).
Proof.
  cbn zeta. unfold email.verifyEmailHandler.
  destruct body as [t|].
  2:{ cbn. split; [|split].
      - intros e u. split; [intros H; by apply elem_of_nil in H|].
        intros (? & ? & [=] & _).
      - intros t H. by apply elem_of_nil in H.
      - split; [discriminate|]. intros (? & ? & [=] & _). }
  set (missing := if bool_decide (t = EmptyString) then _ else _).
  assert (Hlast : forall r, last (missing ++ [r]) = Some r) by (intros; apply last_snoc).
  destruct (email.tokenRecordOf rs t) as [[evtr|]|] eqn:E.
  - destruct (email.verifyEmailOk rs _ _) eqn:Ev; cbn [negb fst snd].
    + split; [|split].
      * intros e u. rewrite !elem_of_cons, elem_of_nil. split.
        -- intros [[=]|[[= -> ->]|[]]]. eauto 10.
        -- intros (t' & r' & [= <-] & Hr & -> & ->). rewrite E in Hr.
           injection Hr as <-. auto.
      * intros t'. rewrite !elem_of_cons, elem_of_nil. intros [[=]|[[=]|[]]].
      * rewrite Hlast. split; [intros _; eauto 10|done].
    + split; [|split].
      * intros e u. rewrite !elem_of_cons, elem_of_nil. split.
        -- intros [[=]|[[= -> ->]|[]]]. eauto 10.
        -- intros (t' & r' & [= <-] & Hr & -> & ->). rewrite E in Hr.
           injection Hr as <-. auto.
      * intros t'. rewrite !elem_of_cons, elem_of_nil. intros [[=]|[[=]|[]]].
      * rewrite Hlast. split; [discriminate|].
        intros (t' & r' & [= <-] & Hr & Hok). rewrite E in Hr. injection Hr as <-.
        congruence.
  - cbn [fst snd]. split; [|split].
    + intros e u. rewrite !elem_of_cons, elem_of_nil. split; [intros [[=]|[]]|].
      intros (t' & r' & [= <-] & Hr & _). congruence.
    + intros t'. rewrite !elem_of_cons, elem_of_nil. intros [[=]|[]].
    + rewrite Hlast. split; [discriminate|].
      intros (t' & r' & [= <-] & Hr & _). congruence.
  - cbn [fst snd]. split; [|split].
    + intros e u. rewrite !elem_of_cons, elem_of_nil. split; [intros [[=]|[]]|].
      intros (t' & r' & [= <-] & Hr & _). congruence.
    + intros t'. rewrite !elem_of_cons, elem_of_nil. intros [[=]|[]].
    + rewrite Hlast. split; [discriminate|].
      intros (t' & r' & [= <-] & Hr & _). congruence.
Qed.

(** ** Random strings *)

Lemma gAlphaNums_lookup (idx : Z) :
  0 <= idx < 62 ->
  exists c, gAlphaNums !! Z.to_nat idx = Some (String c EmptyString) /\ is_alphanum c = true.
Proof.
  intros H.
  assert (Hn : (Z.to_nat idx < 62)%nat) by lia.
  revert Hn. generalize (Z.to_nat idx). intros n Hn.
  do 62 (destruct n as [|n]; [eexists; split; reflexivity|]). lia.
Qed.

Lemma length_append (s t : string) :
  String.length (String.append s t) = (String.length s + String.length t)%nat.
Proof.
  induction s as [|c s IH]; [reflexivity|].
  change (S (String.length (String.append s t)) = S (String.length s + String.length t)).
  by rewrite IH.
Qed.

Lemma string_forall_append p s t :
  string_forall p (String.append s t) = string_forall p s && string_forall p t.
Proof.
  induction s as [|c s IH]; [reflexivity|].
  change (p c && string_forall p (String.append s t)
          = p c && string_forall p s && string_forall p t).
  rewrite IH. by rewrite andb_assoc.
Qed.

Lemma randAlphaNum_loop_ok (rnd : nat -> entropy) :
  (forall i, 0 <= entropy_val (rnd i) < 62) ->
  forall count i s, string_forall is_alphanum s = true ->
  exists r, randAlphaNum_loop rnd i count s = Some r
    /\ String.length r = (String.length s + count)%nat
    /\ string_forall is_alphanum r = true.
Proof.
  intros Hrnd. induction count as [|count IH]; intros i s Hs.
  - exists s. cbn. split; [done|]. split; [lia|done].
  - cbn [randAlphaNum_loop].
    assert (Hd : crandUint64n (rnd i) (Z.of_nat (length gAlphaNums))
                 = Some (entropy_val (rnd i))).
    { specialize (Hrnd i). destruct (rnd i) as [v|v]; cbn in *;
        rewrite Z.mod_small by lia; reflexivity. }
    rewrite Hd. destruct (gAlphaNums_lookup _ (Hrnd i)) as (c & -> & Hc).
    destruct (IH (S i) (String.append s (String c EmptyString))) as (r & Hr & Hl & Ha).
    { rewrite string_forall_append, Hs. cbn. by rewrite Hc. }
    exists r. split; [exact Hr|]. split; [|exact Ha].
    rewrite Hl, length_append. cbn. lia.
Qed.

(** X2.  As long as the random sources keep their contract (a
    value below the bound), [randAlphaNum] does not panic and returns a
    string of exactly [length] characters (none for a negative
    [length]), each a letter or a digit. *)
Theorem randAlphaNum_alphanumeric (rnd : nat -> entropy) (length : Z) :
  (forall i, 0 <= entropy_val (rnd i) < 62) ->
  exists s, randAlphaNum rnd length = Some s
    /\ String.length s = Z.to_nat length
    /\ string_forall is_alphanum s = true.
Proof.
  intros Hrnd. unfold randAlphaNum.
  destruct (randAlphaNum_loop_ok rnd Hrnd (Z.to_nat length) 0 EmptyString eq_refl)
    as (r & Hr & Hl & Ha).
  exists r. auto.
Qed.

Lemma randAlphaNum_alphanumeric_witness :
  exists s, randAlphaNum (fun i => if Nat.even i then Crand 0 else Rand 61) 3 = Some s
    /\ String.length s = Z.to_nat 3
    /\ string_forall is_alphanum s = true.
Proof.
  apply (randAlphaNum_alphanumeric (fun i => if Nat.even i then Crand 0 else Rand 61) 3).
  intros i. destruct (Nat.even i); cbn; lia.
Defined.

(** ** Topics *)





Lemma pl_live_app fs gs : pl_live (fs ++ gs) = (pl_live fs + pl_live gs)%nat.
Proof.
  induction fs as [|f fs IH]; [reflexivity|]. cbn [app pl_live]. rewrite IH. lia.
Qed.

Lemma pl_live_alter g i fs f :
  fs !! i = Some f ->
  (pl_live (alter g i fs) + (if returned (packageListener.at_ f) then 0 else 1)
   = pl_live fs + (if returned (packageListener.at_ (g f)) then 0 else 1))%nat.
Proof.
  revert i. induction fs as [|f0 fs IH]; intros i Hi; [discriminate|].
  destruct i as [|i].
  - injection Hi as ->. cbn [alter list_alter pl_live]. lia.
  - cbn in Hi. cbn [alter list_alter pl_live]. specialize (IH i Hi).
    change (list_alter g i fs) with (alter g i fs). lia.
Qed.

Lemma pl_live_pos fs i f :
  fs !! i = Some f -> returned (packageListener.at_ f) = false -> (0 < pl_live fs)%nat.
Proof.
  revert i. induction fs as [|f0 fs IH]; intros i Hi Hf; [discriminate|].
  destruct i as [|i].
  - injection Hi as ->. cbn [pl_live]. rewrite Hf. lia.
  - cbn in Hi. cbn [pl_live]. specialize (IH i Hi Hf). lia.
Qed.

Lemma pl_live_exists fs :
  (0 < pl_live fs)%nat ->
  exists i f, fs !! i = Some f /\ returned (packageListener.at_ f) = false.
Proof.
  induction fs as [|f0 fs IH]; cbn [pl_live]; [lia|].
  destruct (returned (packageListener.at_ f0)) eqn:E.
  - intros H. destruct IH as (i & f & Hi & Hf); [lia|]. by exists (S i), f.
  - intros _. by exists 0%nat, f0.
Qed.

Lemma pl_live_zero fs i f :
  pl_live fs = 0%nat -> fs !! i = Some f -> packageListener.at_ f = Exited.
Proof.
  intros H0 Hi. destruct (returned (packageListener.at_ f)) eqn:E.
  - by destruct (packageListener.at_ f).
  - pose proof (pl_live_pos _ _ _ Hi E). lia.
Qed.

Lemma pl_ctl_start store queues boxBus :
  pl_ctl (packageListener.start store queues boxBus).
Proof.
  split; cbn; try done.
Qed.

Lemma stop_done_dec (p : packageListener.stop_pc) :
  p = packageListener.StopDone \/ p <> packageListener.StopDone.
Proof. destruct p; auto. Qed.

Lemma pl_ctl_watch box s :
  packageListener.reading s = true -> pl_ctl s -> pl_ctl (packageListener.watch box s).
Proof.
  intros Hr I. unfold packageListener.watch.
  destruct (negb _); [done|].
  destruct (packageListener.subs s !! _); [done|].
  unfold pubsub.Sub, pickUpPackage.
  pose proof (ctl_waiting s I (ctl_reading s I Hr)) as Hst.
  destruct I. split; pl_proj; try done.
  - rewrite Hst. discriminate.
  - rewrite pl_live_app. cbn. lia.
Qed.

Lemma pl_ctl_ignore box s : pl_ctl s -> pl_ctl (packageListener.ignore box s).
Proof.
  intros I. unfold packageListener.ignore.
  destruct (negb _); [done|].
  destruct (packageListener.subs s !! _); [|done].
  destruct I. split; pl_unfold; done.
Qed.

Lemma pl_ctl_return i f s :
  packageListener.forwarders s !! i = Some f ->
  returned (packageListener.at_ f) = false ->
  pl_ctl s -> pl_ctl (packageListener.forward_return i f s).
Proof.
  intros Hf Hlive I. unfold packageListener.forward_return.
  destruct (pubsub.Unsub _ _ _ _) as [queues bus].
  pose proof (pl_live_alter
    (fun f => {| packageListener.topic := packageListener.topic f;
                 packageListener.boxID := packageListener.boxID f;
                 packageListener.sub := packageListener.sub f;
                 packageListener.at_ := Exited |}) i _ f Hf) as Hl.
  rewrite Hlive in Hl. cbn [packageListener.at_ returned] in Hl.
  pose proof (ctl_wg s I) as Hwg.
  destruct I as [I1 I2 I3 I4 I5 I6]. split; pl_unfold; try done; try lia.
  intros Hd. destruct (I5 Hd) as (? & ? & H0). rewrite H0. auto.
Qed.

Lemma pl_ctl_step e s s' :
  pl_ctl s -> packageListener.step e s = Some s' -> pl_ctl s'.
Proof.
  intros I. unfold packageListener.step.
  destruct (packageListener.panicked s); [discriminate|].
  destruct e as [r|i|i|i ok| | | |item t|b p].
  - (* read *)
    destruct (packageListener.reading s) eqn:Hr; [|discriminate]. intros [= <-].
    assert (Hend : pl_ctl (packageListener.set_closed true
                             (packageListener.set_reading false s))).
    { pose proof (ctl_waiting s I (ctl_reading s I Hr)) as Hst.
      destruct I. split; pl_unfold; try done. }
    unfold packageListener.read. repeat case_match; try done.
    + by apply pl_ctl_watch.
    + by apply pl_ctl_ignore.
  - (* a forwarder sees pl.closed *)
    unfold packageListener.forward_closed.
    destruct (packageListener.forwarders s !! i) as [f|] eqn:Ef; [|discriminate].
    destruct (packageListener.at_ f) eqn:Ea; try discriminate.
    destruct (packageListener.closed s); [|discriminate]. intros [= <-].
    apply pl_ctl_return; [done| |done]. by rewrite Ea.
  - (* a forwarder receives from its queue *)
    unfold packageListener.forward_sub.
    destruct (packageListener.forwarders s !! i) as [f|] eqn:Ef; [|discriminate].
    destruct (packageListener.at_ f) eqn:Ea; try discriminate.
    destruct (packageListener.chans s !! packageListener.sub f) as [ch|]; [|discriminate].
    destruct (recv ch) as [[pkg|] ch'|]; [| |discriminate]; intros [= <-].
    + pose proof (pl_live_alter
        (fun f0 => {| packageListener.topic := packageListener.topic f0;
                      packageListener.boxID := packageListener.boxID f0;
                      packageListener.sub := packageListener.sub f0;
                      packageListener.at_ :=
                        Sending (x01 :: packageListener.boxID f ++ pkg) |}) i _ f Ef) as Hl.
      rewrite Ea in Hl. cbn [packageListener.at_ returned] in Hl.
      pose proof (ctl_wg s I) as Hwg.
      destruct I. split; pl_unfold; try done. lia.
    + apply pl_ctl_return; [done| |done]. by rewrite Ea.
  - (* a forwarder hands a frame to the writer *)
    unfold packageListener.forward_send.
    destruct (packageListener.forwarders s !! i) as [f|] eqn:Ef; [|discriminate].
    destruct (packageListener.at_ f) eqn:Ea; try discriminate.
    assert (Hlive : (0 < pl_live (packageListener.forwarders s))%nat).
    { eapply pl_live_pos; [exact Ef|]. by rewrite Ea. }
    destruct (packageListener.pkgs_closed s) eqn:Hpc.
    { exfalso. destruct (stop_done_dec (packageListener.stopping s)) as [Hd|Hd].
      - destruct (ctl_done s I Hd) as (_ & _ & H0). rewrite (ctl_wg s I) in H0. lia.
      - destruct (ctl_open s I Hd). congruence. }
    destruct (packageListener.writing s); [|discriminate]. intros [= <-].
    pose proof (pl_live_alter
      (fun f => {| packageListener.topic := packageListener.topic f;
                   packageListener.boxID := packageListener.boxID f;
                   packageListener.sub := packageListener.sub f;
                   packageListener.at_ := Select |}) i _ f Ef) as Hl.
    rewrite Ea in Hl. cbn [packageListener.at_ returned] in Hl.
    pose proof (ctl_wg s I) as Hwg.
    destruct ok; destruct I; split; pl_unfold; try done; lia.
  - (* the writer sees pl.pkgs closed *)
    unfold packageListener.write_end.
    destruct (_ && _); [|discriminate]. intros [= <-].
    destruct I. split; pl_unfold; done.
  - (* stop wakes up *)
    unfold packageListener.stop_wake.
    destruct (packageListener.stopping s) eqn:Est; try discriminate.
    destruct (packageListener.closed s) eqn:Ecl; [|discriminate]. intros [= <-].
    destruct I as [I1 I2 I3 I4 I5 I6]. rewrite Est in *.
    split; pl_unfold; try done; try (intros; congruence). intros _. by apply I4.
  - (* stop has waited for the wait group *)
    unfold packageListener.stop_join.
    destruct (packageListener.stopping s) eqn:Est; try discriminate.
    destruct (Nat.eqb_spec (packageListener.waitGroup s) 0) as [H0|]; [|discriminate].
    destruct I as [I1 I2 I3 I4 I5 I6]. rewrite Est in *.
    destruct I4 as [Hpc Hcc]; [done|]. rewrite Hpc. intros [= <-].
    split; pl_unfold; try done; try (intros; congruence).
    intros Hcl. specialize (I3 Hcl). discriminate.
  - (* a package is published *)
    destruct (pubsub.Pub _ _ _ _); [|discriminate]. intros [= <-].
    destruct I. split; pl_unfold; done.
  - (* the store changes *)
    intros [= <-]. destruct I. split; pl_unfold; done.
Qed.

Lemma pl_run_inv (P : packageListener.state -> Prop) :
  (forall e s s', P s -> packageListener.step e s = Some s' -> P s') ->
  forall es s s', P s -> packageListener.run es s = Some s' -> P s'.
Proof.
  intros Hstep. induction es as [|e es IH]; intros s s' HP Hrun.
  - cbn in Hrun. by injection Hrun as <-.
  - cbn in Hrun. destruct (packageListener.step e s) as [s1|] eqn:E; [|discriminate].
    eapply IH; [|exact Hrun]. by eapply Hstep.
Qed.

Lemma pl_ctl_reachable s : pl_reachable s -> pl_ctl s.
Proof.
  intros (store & queues & boxBus & es & _ & Hrun).
  eapply (pl_run_inv pl_ctl); [apply pl_ctl_step|apply pl_ctl_start|exact Hrun].
Qed.


(** *** What the forwarders hold *)

Lemma pl_alter_lookup p (i : nat) (fs : list packageListener.forwarder) (j : nat) f' :
  alter (with_at p) i fs !! j = Some f' ->
  exists f, fs !! j = Some f
    /\ packageListener.topic f' = packageListener.topic f
    /\ packageListener.boxID f' = packageListener.boxID f
    /\ packageListener.sub f' = packageListener.sub f
    /\ (j <> i -> f' = f)
    /\ (j = i -> packageListener.at_ f' = p).
Proof.
  destruct (decide (j = i)) as [->|Hne].
  - rewrite list_lookup_alter_eq. destruct (fs !! i) as [f|]; [|discriminate].
    intros [= <-]. exists f. by repeat split.
  - rewrite list_lookup_alter_ne by done. intros Hf. exists f'. by repeat split.
Qed.

Lemma pl_alter_boxIDs p (i : nat) (fs : list packageListener.forwarder) :
  packageListener.boxID <$> alter (with_at p) i fs = packageListener.boxID <$> fs.
Proof.
  revert i. induction fs as [|f fs IH]; intros i; [reflexivity|].
  destruct i as [|i]; cbn; [reflexivity|]. f_equal. apply IH.
Qed.

Lemma pl_fmt_set_at i p s :
  (forall f frame, packageListener.forwarders s !! i = Some f -> p = Sending frame ->
     framed (packageListener.boxID f) frame) ->
  pl_fmt s -> pl_fmt (packageListener.set_at i p s).
Proof.
  intros Hp [I1 I2]. split; pl_unfold.
  - intros j f' Hf'. change (alter _ i ?l) with (alter (with_at p) i l) in Hf'.
    apply pl_alter_lookup in Hf' as (f & Hf & Ht & Hb & Hs & Hne & Heq).
    destruct (I1 j f Hf) as (H1 & H2 & H3). rewrite Ht, Hb.
    split; [done|]. split; [done|]. intros frame Ha.
    destruct (decide (j = i)) as [->|Hn].
    + rewrite (Heq eq_refl) in Ha. by eapply Hp.
    + rewrite (Hne Hn) in Ha. by apply H3.
  - intros frame Hin. change (alter _ i ?l) with (alter (with_at p) i l).
    rewrite pl_alter_boxIDs. by apply I2.
Qed.

Lemma pl_fmt_step e s s' :
  pl_fmt s -> packageListener.step e s = Some s' -> pl_fmt s'.
Proof.
  intros I. unfold packageListener.step.
  destruct (packageListener.panicked s); [discriminate|].
  destruct e as [r|i|i|i ok| | | |item t|b p].
  - destruct (packageListener.reading s) eqn:Hr; [|discriminate]. intros [= <-].
    assert (Hend : pl_fmt (packageListener.set_closed true
                             (packageListener.set_reading false s))).
    { destruct I. split; pl_unfold; done. }
    unfold packageListener.read. repeat case_match; try done.
    + (* watch *)
      unfold packageListener.watch.
      destruct (Nat.eqb_spec (length l) dropBoxIDSize) as [HL|]; cbn [negb]; [|done].
      destruct (packageListener.subs s !! _); [done|].
      unfold pubsub.Sub, pickUpPackage. destruct I as [I1 I2]. split; pl_proj.
      * intros j f Hf. apply lookup_app_Some in Hf as [Hf|[_ Hf]]; [by apply (I1 _ _ Hf)|].
        destruct (j - _)%nat; [|discriminate]. injection Hf as <-. pl_proj.
        split; [done|]. split; [done|]. discriminate.
      * intros frame Hin. destruct (I2 frame Hin) as (B & HB & Hfr).
        exists B. split; [|done]. rewrite fmap_app. apply elem_of_app. by left.
    + (* ignore *)
      unfold packageListener.ignore. repeat case_match; try done.
      destruct I. split; pl_unfold; done.
  - unfold packageListener.forward_closed.
    destruct (packageListener.forwarders s !! i) as [f|] eqn:Ef; [|discriminate].
    destruct (packageListener.at_ f) eqn:Ea; try discriminate.
    destruct (packageListener.closed s); [|discriminate]. intros [= <-].
    unfold packageListener.forward_return. destruct (pubsub.Unsub _ _ _ _) as [queues bus].
    apply pl_fmt_set_at; [discriminate|]. destruct I. split; pl_proj; done.
  - unfold packageListener.forward_sub.
    destruct (packageListener.forwarders s !! i) as [f|] eqn:Ef; [|discriminate].
    destruct (packageListener.at_ f) eqn:Ea; try discriminate.
    destruct (packageListener.chans s !! packageListener.sub f) as [ch|]; [|discriminate].
    destruct (recv ch) as [[pkg|] ch'|]; [| |discriminate]; intros [= <-].
    + apply pl_fmt_set_at.
      * pl_unfold. intros f0 frame Hf0 [= <-]. rewrite Ef in Hf0. injection Hf0 as <-.
        by exists pkg.
      * destruct I. split; pl_unfold; done.
    + unfold packageListener.forward_return. destruct (pubsub.Unsub _ _ _ _) as [queues bus].
      apply pl_fmt_set_at; [discriminate|]. destruct I. split; pl_proj; done.
  - unfold packageListener.forward_send.
    destruct (packageListener.forwarders s !! i) as [f|] eqn:Ef; [|discriminate].
    destruct (packageListener.at_ f) eqn:Ea; try discriminate.
    destruct (packageListener.pkgs_closed s).
    { intros [= <-]. destruct I. split; pl_unfold; done. }
    destruct (packageListener.writing s); [|discriminate]. intros [= <-].
    apply pl_fmt_set_at; [discriminate|].
    destruct ok; [|destruct I; split; pl_unfold; done].
    destruct I as [I1 I2]. split; pl_unfold; [done|].
    intros fr [Hin|Heq%list_elem_of_singleton]%elem_of_app; [by apply I2|]. subst fr.
    exists (packageListener.boxID f). split.
    + apply list_elem_of_fmap. exists f. split; [done|]. by eapply list_elem_of_lookup_2.
    + destruct (I1 i f Ef) as (_ & _ & H3). by apply H3.
  - unfold packageListener.write_end.
    destruct (_ && _); [|discriminate]. intros [= <-].
    destruct I. split; pl_unfold; done.
  - unfold packageListener.stop_wake.
    destruct (packageListener.stopping s); try discriminate.
    destruct (packageListener.closed s); [|discriminate]. intros [= <-].
    destruct I. split; pl_unfold; done.
  - unfold packageListener.stop_join.
    destruct (packageListener.stopping s); try discriminate.
    destruct (_ =? _)%nat; [|discriminate].
    destruct (packageListener.pkgs_closed s); intros [= <-];
      destruct I; split; pl_unfold; done.
  - destruct (pubsub.Pub _ _ _ _); [|discriminate]. intros [= <-].
    destruct I. split; pl_unfold; done.
  - intros [= <-]. destruct I. split; pl_unfold; done.
Qed.

Lemma pl_fmt_start store queues boxBus :
  pl_fmt (packageListener.start store queues boxBus).
Proof.
  split; cbn.
  - intros i f Hf. by rewrite lookup_nil in Hf.
  - intros frame Hin. by apply elem_of_nil in Hin.
Qed.

Lemma pl_fmt_reachable s : pl_reachable s -> pl_fmt s.
Proof.
  intros (store & queues & boxBus & es & _ & Hrun).
  eapply (pl_run_inv pl_fmt); [apply pl_fmt_step|apply pl_fmt_start|exact Hrun].
Qed.

(** *** The bus *)

Section bus_more.
Context `{Countable K}.

Lemma Unsub_elem_of sub (topic t : K) queues bus c :
  c ∈ default [] ((pubsub.Unsub sub topic queues bus).2 !! t) <->
  c ∈ default [] (bus !! t) /\ ~ (t = topic /\ c = sub).
Proof.
  unfold pubsub.Unsub. case_bool_decide as Hin; cbn [snd].
  - destruct (decide (t = topic)) as [->|Hne].
    + rewrite lookup_insert_eq. cbn -[filter]. rewrite list_elem_of_filter.
      split; [intros [? ?]; split; [done|]; intros [_ ?]; done|].
      intros [? Hn]. split; [|done]. intros ->. by apply Hn.
    + rewrite lookup_insert_ne by done. tauto.
  - split; [|tauto]. intros Hc. split; [done|]. intros [-> ->]. done.
Qed.

Lemma Unsub_length sub (topic : K) queues bus :
  length (pubsub.Unsub sub topic queues bus).1 = length queues.
Proof.
  unfold pubsub.Unsub. case_bool_decide; cbn [fst]; [|done]. apply length_alter.
Qed.

Lemma Unsub_closed sub (topic : K) queues bus c :
  chan_closed <$> queues !! c = Some true ->
  chan_closed <$> (pubsub.Unsub sub topic queues bus).1 !! c = Some true.
Proof.
  unfold pubsub.Unsub. case_bool_decide; cbn [fst]; [|done].
  destruct (decide (c = sub)) as [->|Hne].
  - rewrite list_lookup_alter_eq. destruct (queues !! sub); [|discriminate]. done.
  - by rewrite list_lookup_alter_ne.
Qed.

Lemma Unsub_closes sub (topic : K) queues bus :
  sub ∈ default [] (bus !! topic) -> (sub < length queues)%nat ->
  chan_closed <$> (pubsub.Unsub sub topic queues bus).1 !! sub = Some true.
Proof.
  intros Hin Hlt. unfold pubsub.Unsub. rewrite bool_decide_eq_true_2 by done. cbn [fst].
  rewrite list_lookup_alter_eq. destruct (lookup_lt_is_Some_2 _ _ Hlt) as [ch ->]. done.
Qed.

Lemma deliver_length item subscribers : forall queues queues',
  pubsub.deliver item subscribers queues = Some queues' -> length queues' = length queues.
Proof.
  induction subscribers as [|k subscribers IH]; intros queues queues' Hd.
  - cbn in Hd. by injection Hd as <-.
  - cbn in Hd. destruct (queues !! k) as [ch|]; [|discriminate].
    destruct (send _ _ _); try discriminate.
    rewrite (IH _ _ Hd). apply length_insert.
Qed.

End bus_more.

Lemma pl_bus_start store queues boxBus :
  bus_wf queues boxBus -> pl_bus (packageListener.start store queues boxBus).
Proof.
  intros Hwf. split; cbn; try done.
Qed.

Lemma pl_bus_return i f s :
  packageListener.forwarders s !! i = Some f ->
  returned (packageListener.at_ f) = false ->
  pl_bus s -> pl_bus (packageListener.forward_return i f s).
Proof.
  intros Hf Hlive I. unfold packageListener.forward_return.
  destruct (pubsub.Unsub _ _ _ _) as [queues bus] eqn:EU.
  assert (Hq : queues = (pubsub.Unsub (packageListener.sub f) (packageListener.topic f)
                 (packageListener.chans s) (packageListener.dropBoxPubSub s)).1)
    by (by rewrite EU).
  assert (Hb : bus = (pubsub.Unsub (packageListener.sub f) (packageListener.topic f)
                 (packageListener.chans s) (packageListener.dropBoxPubSub s)).2)
    by (by rewrite EU).
  clear EU. destruct I as [I1 I2 I3 I4 I5].
  destruct (I4 i f Hf Hlive) as [Hsub Huniq]. pose proof (I2 i f Hf) as Hlt.
  split; pl_unfold; change (alter _ i ?l) with (alter (with_at Exited) i l).
  - intros t c Hc. subst. rewrite Unsub_length. apply Unsub_elem_of in Hc as [Hc _].
    by eapply I1.
  - intros j f' Hf'. apply pl_alter_lookup in Hf' as (f0 & Hf0 & _ & _ & -> & _).
    subst. rewrite Unsub_length. by eapply I2.
  - intros j k fj fk Hj Hk.
    apply pl_alter_lookup in Hj as (fj0 & Hj0 & _ & _ & -> & _).
    apply pl_alter_lookup in Hk as (fk0 & Hk0 & _ & _ & -> & _). by eapply I3.
  - intros j f' Hf' Hl.
    apply pl_alter_lookup in Hf' as (f0 & Hf0 & Ht & _ & Hs & Hne & Heq).
    destruct (decide (j = i)) as [->|Hn]; [rewrite (Heq eq_refl) in Hl; discriminate|].
    rewrite (Hne Hn) in *. clear Hne Heq Ht Hs.
    destruct (I4 j f0 Hf0 Hl) as [Hsub0 Huniq0].
    assert (Hdiff : packageListener.sub f0 <> packageListener.sub f).
    { intros Heq. apply Hn. by eapply I3. }
    subst bus. split.
    + apply Unsub_elem_of. split; [done|]. intros [_ ?]. done.
    + intros t [Hc _]%Unsub_elem_of. by apply Huniq0.
  - intros j f' Hf' Ha.
    apply pl_alter_lookup in Hf' as (f0 & Hf0 & Ht & _ & Hs & Hne & Heq).
    rewrite Hs. subst queues bus.
    destruct (decide (j = i)) as [->|Hn].
    + rewrite Hf in Hf0. injection Hf0 as <-. split.
      * intros t [Hc Hnot]%Unsub_elem_of. apply Hnot. split; [|done]. by apply Huniq.
      * by apply Unsub_closes.
    + rewrite (Hne Hn) in Ha. destruct (I5 j f0 Hf0 Ha) as [Hno Hcl]. split.
      * intros t [Hc _]%Unsub_elem_of. by eapply Hno.
      * by apply Unsub_closed.
Qed.

Lemma pl_bus_set_at i p s :
  (forall f, packageListener.forwarders s !! i = Some f ->
     returned (packageListener.at_ f) = false /\ returned p = false) ->
  pl_bus s -> pl_bus (packageListener.set_at i p s).
Proof.
  intros Hp [I1 I2 I3 I4 I5].
  split; pl_unfold; change (alter _ i ?l) with (alter (with_at p) i l).
  - done.
  - intros j f' Hf'. apply pl_alter_lookup in Hf' as (f0 & Hf0 & _ & _ & -> & _).
    by eapply I2.
  - intros j k fj fk Hj Hk.
    apply pl_alter_lookup in Hj as (fj0 & Hj0 & _ & _ & -> & _).
    apply pl_alter_lookup in Hk as (fk0 & Hk0 & _ & _ & -> & _). by eapply I3.
  - intros j f' Hf' Hl.
    apply pl_alter_lookup in Hf' as (f0 & Hf0 & Ht & _ & Hs & Hne & Heq).
    rewrite Ht, Hs. apply (I4 j f0 Hf0).
    destruct (decide (j = i)) as [->|Hn]; [by apply Hp|]. by rewrite <- (Hne Hn).
  - intros j f' Hf' Ha.
    apply pl_alter_lookup in Hf' as (f0 & Hf0 & Ht & _ & Hs & Hne & Heq).
    rewrite Hs. apply (I5 j f0 Hf0).
    destruct (decide (j = i)) as [->|Hn]; [|by rewrite <- (Hne Hn)].
    destruct (Hp f0 Hf0) as [_ Hr]. rewrite (Heq eq_refl) in Ha. subst p. discriminate.
Qed.

Lemma pl_bus_chans queues s :
  length queues = length (packageListener.chans s) ->
  (forall c, chan_closed <$> packageListener.chans s !! c = Some true ->
             chan_closed <$> queues !! c = Some true) ->
  pl_bus s -> pl_bus (packageListener.set_chans queues s).
Proof.
  intros Hlen Hcl [I1 I2 I3 I4 I5]. split; pl_unfold; try done.
  - intros t c Hc. rewrite Hlen. by eapply I1.
  - intros j f Hf. rewrite Hlen. by eapply I2.
  - intros j f Hf Ha. destruct (I5 j f Hf Ha). auto.
Qed.

Lemma pl_bus_watch box s : pl_bus s -> pl_bus (packageListener.watch box s).
Proof.
  intros I. unfold packageListener.watch.
  destruct (negb _); [done|].
  destruct (packageListener.subs s !! _); [done|].
  unfold pubsub.Sub, pickUpPackage. cbn [fst snd].
  destruct (watch_queue (bolt.Get box (dropboxes (packageListener.srv s)))
              (packageListener.chans s)) as (ch0 & Hch0 & ->).
  set (h0 := hex.EncodeToString box). set (c0 := length (packageListener.chans s)).
  destruct I as [I1 I2 I3 I4 I5].
  assert (Hbus : forall t c,
    c ∈ default [] (<[h0 := default [] (packageListener.dropBoxPubSub s !! h0) ++ [c0]]>
                      (packageListener.dropBoxPubSub s) !! t) <->
    c ∈ default [] (packageListener.dropBoxPubSub s !! t) \/ (t = h0 /\ c = c0)).
  { intros t c. destruct (decide (t = h0)) as [->|Hne].
    - rewrite lookup_insert_eq. cbn -[app]. rewrite elem_of_app, list_elem_of_singleton.
      tauto.
    - rewrite lookup_insert_ne by done. tauto. }
  split; pl_proj.
  - intros t c [Hc|[_ ->]]%Hbus; rewrite length_app; cbn; [|lia].
    specialize (I1 t c Hc). lia.
  - intros j f Hf. rewrite length_app. cbn.
    apply lookup_app_Some in Hf as [Hf|[_ Hf]]; [specialize (I2 j f Hf); lia|].
    destruct (j - _)%nat; [|discriminate]. injection Hf as <-. pl_proj. lia.
  - intros j k fj fk Hj Hk Heq.
    apply lookup_app_Some in Hj as [Hj|[Hjl Hj]], Hk as [Hk|[Hkl Hk]].
    + by eapply I3.
    + destruct (k - _)%nat; [|discriminate]. injection Hk as <-. cbn [packageListener.sub] in Heq.
      specialize (I2 j fj Hj). lia.
    + destruct (j - _)%nat; [|discriminate]. injection Hj as <-. cbn [packageListener.sub] in Heq.
      specialize (I2 k fk Hk). lia.
    + destruct (j - _)%nat eqn:Ej; [|discriminate].
      destruct (k - _)%nat eqn:Ek; [|discriminate]. lia.
  - intros j f Hf Hl. apply lookup_app_Some in Hf as [Hf|[_ Hf]].
    + destruct (I4 j f Hf Hl) as [Hsub Huniq]. pose proof (I2 j f Hf) as Hlt. split.
      * apply Hbus. by left.
      * intros t [Hc|[_ Hc]]%Hbus; [by apply Huniq|]. lia.
    + destruct (j - _)%nat; [|discriminate]. injection Hf as <-. pl_proj. split.
      * apply Hbus. by right.
      * intros t [Hc|[-> _]]%Hbus; [|done]. specialize (I1 t c0 Hc). lia.
  - intros j f Hf Ha. apply lookup_app_Some in Hf as [Hf|[_ Hf]].
    + destruct (I5 j f Hf Ha) as [Hno Hcl]. pose proof (I2 j f Hf) as Hlt. split.
      * intros t [Hc|[_ Hc]]%Hbus; [by eapply Hno|]. lia.
      * by rewrite lookup_app_l.
    + destruct (j - _)%nat; [|discriminate]. injection Hf as <-. discriminate Ha.
Qed.

Lemma pl_bus_step e s s' :
  pl_bus s -> packageListener.step e s = Some s' -> pl_bus s'.
Proof.
  intros I. unfold packageListener.step.
  destruct (packageListener.panicked s); [discriminate|].
  destruct e as [r|i|i|i ok| | | |item t|b p].
  - destruct (packageListener.reading s) eqn:Hr; [|discriminate]. intros [= <-].
    assert (Hend : pl_bus (packageListener.set_closed true
                             (packageListener.set_reading false s))).
    { destruct I. split; pl_unfold; done. }
    unfold packageListener.read. repeat case_match; try done.
    + by apply pl_bus_watch.
    + unfold packageListener.ignore. repeat case_match; try done.
      destruct I. split; pl_unfold; done.
  - unfold packageListener.forward_closed.
    destruct (packageListener.forwarders s !! i) as [f|] eqn:Ef; [|discriminate].
    destruct (packageListener.at_ f) eqn:Ea; try discriminate.
    destruct (packageListener.closed s); [|discriminate]. intros [= <-].
    apply pl_bus_return; [done| |done]. by rewrite Ea.
  - unfold packageListener.forward_sub.
    destruct (packageListener.forwarders s !! i) as [f|] eqn:Ef; [|discriminate].
    destruct (packageListener.at_ f) eqn:Ea; try discriminate.
    destruct (packageListener.chans s !! packageListener.sub f) as [ch|] eqn:Ech;
      [|discriminate].
    unfold recv. destruct (buf ch) as [|x rest] eqn:Eb.
    + destruct (chan_closed ch); [|discriminate]. intros [= <-].
      apply pl_bus_return; [done| |done]. by rewrite Ea.
    + intros [= <-]. apply pl_bus_set_at.
      * pl_unfold. intros f0 Hf0. rewrite Ef in Hf0. injection Hf0 as <-.
        by rewrite Ea.
      * apply pl_bus_chans; [apply length_insert| |done].
        intros c Hc. destruct (decide (c = packageListener.sub f)) as [->|Hne].
        -- rewrite list_lookup_insert_eq by (by eapply lookup_lt_Some).
           rewrite Ech in Hc. done.
        -- by rewrite list_lookup_insert_ne.
  - unfold packageListener.forward_send.
    destruct (packageListener.forwarders s !! i) as [f|] eqn:Ef; [|discriminate].
    destruct (packageListener.at_ f) eqn:Ea; try discriminate.
    destruct (packageListener.pkgs_closed s).
    { intros [= <-]. destruct I. split; pl_unfold; done. }
    destruct (packageListener.writing s); [|discriminate]. intros [= <-].
    apply pl_bus_set_at.
    + intros f0 Hf0.
      assert (Hf1 : packageListener.forwarders s !! i = Some f0) by (by destruct ok).
      rewrite Ef in Hf1. injection Hf1 as <-. by rewrite Ea.
    + destruct ok; destruct I; split; pl_unfold; done.
  - unfold packageListener.write_end.
    destruct (_ && _); [|discriminate]. intros [= <-].
    destruct I. split; pl_unfold; done.
  - unfold packageListener.stop_wake.
    destruct (packageListener.stopping s); try discriminate.
    destruct (packageListener.closed s); [|discriminate]. intros [= <-].
    destruct I. split; pl_unfold; done.
  - unfold packageListener.stop_join.
    destruct (packageListener.stopping s); try discriminate.
    destruct (_ =? _)%nat; [|discriminate].
    destruct (packageListener.pkgs_closed s); intros [= <-];
      destruct I; split; pl_unfold; done.
  - destruct (pubsub.Pub _ _ _ _) as [queues|] eqn:EP; [|discriminate]. intros [= <-].
    apply pl_bus_chans; [by eapply deliver_length| |done].
    intros c Hc. unfold pubsub.Pub in EP. by rewrite (deliver_closed _ _ _ _ c EP).
  - intros [= <-]. destruct I. split; pl_unfold; done.
Qed.

Lemma pl_bus_reachable s : pl_reachable s -> pl_bus s.
Proof.
  intros (store & queues & boxBus & es & Hwf & Hrun).
  eapply (pl_run_inv pl_bus); [apply pl_bus_step|by apply pl_bus_start|exact Hrun].
Qed.

Lemma pl_run_app es1 : forall es2 s,
  packageListener.run (es1 ++ es2) s
  = match packageListener.run es1 s with
    | Some s' => packageListener.run es2 s'
    | None => None
    end.
Proof.
  induction es1 as [|e es1 IH]; intros es2 s; [reflexivity|].
  cbn. destruct (packageListener.step e s); [apply IH|reflexivity].
Qed.

Lemma pl_reachable_run es s s' :
  pl_reachable s -> packageListener.run es s = Some s' -> pl_reachable s'.
Proof.
  intros (store & queues & boxBus & es0 & Hwf & Hrun0) Hrun.
  exists store, queues, boxBus, (es0 ++ es). split; [done|].
  by rewrite pl_run_app, Hrun0.
Qed.

(** X13.  A package listener never panics: the wait group counts
    exactly the forwarding goroutines that have not returned, so that
    [Done] never takes it below zero; and [pl.pkgs] and the connection are
    closed only by [stop], once, after the reader has returned and every
    forwarding goroutine has returned, so that no goroutine sends on the
    closed channel. *)
Theorem pl_never_panics (s : packageListener.state) :
  pl_reachable s ->
  packageListener.panicked s = false
  /\ packageListener.waitGroup s = pl_live (packageListener.forwarders s)
  /\ (packageListener.pkgs_closed s = true \/ packageListener.conn_closed s = true ->
      packageListener.stopping s = packageListener.StopDone
      /\ packageListener.reading s = false
      /\ forall i f, packageListener.forwarders s !! i = Some f ->
           packageListener.at_ f = Exited).
Proof.
  intros Hr. pose proof (pl_ctl_reachable s Hr) as I.
  split; [apply (ctl_panicked s I)|]. split; [apply (ctl_wg s I)|].
  intros Hc.
  assert (Hd : packageListener.stopping s = packageListener.StopDone).
  { destruct (stop_done_dec (packageListener.stopping s)) as [Hd|Hd]; [done|].
    destruct (ctl_open s I Hd). destruct Hc; congruence. }
  split; [done|]. split.
  - destruct (packageListener.reading s) eqn:E; [|done].
    rewrite (ctl_waiting s I (ctl_reading s I E)) in Hd. discriminate.
  - intros i f Hf. destruct (ctl_done s I Hd) as (_ & _ & H0).
    rewrite (ctl_wg s I) in H0. by eapply pl_live_zero.
Qed.

(** X14.  Once [stop] has returned, the session holds nothing
    any more: [pl.pkgs] and the connection are closed, every forwarding
    goroutine has returned, and each of their subscriptions is removed from
    the bus, under every topic, with its queue closed. *)
Theorem pl_stop_releases (s : packageListener.state) :
  pl_reachable s ->
  packageListener.stopping s = packageListener.StopDone ->
  packageListener.pkgs_closed s = true /\ packageListener.conn_closed s = true
  /\ forall i f, packageListener.forwarders s !! i = Some f ->
       packageListener.at_ f = Exited
       /\ (forall t, packageListener.sub f
                     ∉ default [] (packageListener.dropBoxPubSub s !! t))
       /\ chan_closed <$> packageListener.chans s !! packageListener.sub f = Some true.
Proof.
  intros Hr Hd. pose proof (pl_ctl_reachable s Hr) as I.
  pose proof (pl_bus_reachable s Hr) as J.
  destruct (ctl_done s I Hd) as (Hp & Hc & H0). rewrite (ctl_wg s I) in H0.
  split; [done|]. split; [done|]. intros i f Hf.
  pose proof (pl_live_zero _ _ _ H0 Hf) as Ha.
  split; [done|]. by apply (bus_returned s J i f).
Qed.

(** X15.  Every frame a package listener writes to the peer is
    the opcode 1, followed by the 16 bytes of a box the client asked to
    watch earlier in the session, followed by a package. *)
Theorem pl_wire_format (s : packageListener.state) (frame : bytes) :
  pl_reachable s -> frame ∈ packageListener.wire s ->
  exists B p, frame = clientCmdWatch :: B ++ p /\ length B = dropBoxIDSize
    /\ exists i f, packageListener.forwarders s !! i = Some f
                   /\ packageListener.boxID f = B
                   /\ packageListener.topic f = hex.EncodeToString B.
Proof.
  intros Hr Hin. pose proof (pl_fmt_reachable s Hr) as I.
  destruct (fmt_wire s I frame Hin) as (B & HB & p & ->).
  apply list_elem_of_fmap in HB as (f & -> & Hf).
  apply list_elem_of_lookup in Hf as [i Hf].
  destruct (fmt_forwarders s I i f Hf) as (HL & Ht & _).
  exists (packageListener.boxID f), p. split; [reflexivity|]. split; [done|].
  by exists i, f.
Qed.

(** *** After a failed write *)

Lemma pl_watch_keeps box s :
  packageListener.writing (packageListener.watch box s) = packageListener.writing s
  /\ forall i f, packageListener.forwarders s !! i = Some f ->
       packageListener.forwarders (packageListener.watch box s) !! i = Some f.
Proof.
  unfold packageListener.watch.
  destruct (negb _); [done|].
  destruct (packageListener.subs s !! _); [done|].
  unfold pubsub.Sub, pickUpPackage. pl_proj. split; [done|].
  intros i f Hf. rewrite lookup_app_l; [done|]. by eapply lookup_lt_Some.
Qed.

Lemma pl_ignore_keeps box s :
  packageListener.writing (packageListener.ignore box s) = packageListener.writing s
  /\ packageListener.forwarders (packageListener.ignore box s)
     = packageListener.forwarders s.
Proof.
  unfold packageListener.ignore. repeat case_match; done.
Qed.

Lemma pl_return_keeps j fj s :
  packageListener.writing (packageListener.forward_return j fj s)
  = packageListener.writing s
  /\ forall i f, i <> j -> packageListener.forwarders s !! i = Some f ->
       packageListener.forwarders (packageListener.forward_return j fj s) !! i = Some f.
Proof.
  unfold packageListener.forward_return. destruct (pubsub.Unsub _ _ _ _).
  pl_unfold. split; [done|]. intros i f Hne Hf. by rewrite list_lookup_alter_ne.
Qed.

Lemma pl_stranded_step e s s' i f frame :
  pl_ctl s -> packageListener.writing s = false ->
  packageListener.forwarders s !! i = Some f -> packageListener.at_ f = Sending frame ->
  packageListener.step e s = Some s' ->
  packageListener.writing s' = false /\ packageListener.forwarders s' !! i = Some f.
Proof.
  intros I Hw Hf Ha.
  assert (Hlive : (0 < pl_live (packageListener.forwarders s))%nat).
  { eapply pl_live_pos; [exact Hf|]. by rewrite Ha. }
  assert (Hopen : packageListener.pkgs_closed s = false).
  { destruct (stop_done_dec (packageListener.stopping s)) as [Hd|Hd].
    - destruct (ctl_done s I Hd) as (_ & _ & H0). rewrite (ctl_wg s I) in H0. lia.
    - by destruct (ctl_open s I Hd). }
  unfold packageListener.step.
  destruct (packageListener.panicked s); [discriminate|].
  destruct e as [r|j|j|j ok| | | |item t|b p].
  - destruct (packageListener.reading s); [|discriminate]. intros [= <-].
    unfold packageListener.read.
    repeat case_match; pl_unfold; auto.
    + destruct (pl_watch_keeps l s) as [-> Hk]. auto.
    + destruct (pl_ignore_keeps l s) as [-> ->]. auto.
  - unfold packageListener.forward_closed.
    destruct (packageListener.forwarders s !! j) as [fj|] eqn:Ej; [|discriminate].
    destruct (packageListener.at_ fj) eqn:Eaj; try discriminate.
    destruct (packageListener.closed s); [|discriminate]. intros [= <-].
    destruct (pl_return_keeps j fj s) as [-> Hk]. split; [done|]. apply Hk; [|done].
    intros ->. congruence.
  - unfold packageListener.forward_sub.
    destruct (packageListener.forwarders s !! j) as [fj|] eqn:Ej; [|discriminate].
    destruct (packageListener.at_ fj) eqn:Eaj; try discriminate.
    destruct (packageListener.chans s !! packageListener.sub fj) as [ch|]; [|discriminate].
    assert (Hne : i <> j) by (intros ->; congruence).
    destruct (recv ch) as [[pkg|] ch'|]; [| |discriminate]; intros [= <-].
    + pl_unfold. split; [done|]. by rewrite list_lookup_alter_ne.
    + destruct (pl_return_keeps j fj s) as [-> Hk]. split; [done|]. by apply Hk.
  - unfold packageListener.forward_send.
    destruct (packageListener.forwarders s !! j) as [fj|] eqn:Ej; [|discriminate].
    destruct (packageListener.at_ fj) eqn:Eaj; try discriminate.
    rewrite Hopen, Hw. discriminate.
  - unfold packageListener.write_end. rewrite Hw. discriminate.
  - unfold packageListener.stop_wake.
    destruct (packageListener.stopping s); try discriminate.
    destruct (packageListener.closed s); [|discriminate]. intros [= <-].
    pl_unfold. done.
  - unfold packageListener.stop_join.
    destruct (packageListener.stopping s); try discriminate.
    destruct (Nat.eqb_spec (packageListener.waitGroup s) 0) as [H0|]; [|discriminate].
    rewrite (ctl_wg s I) in H0. lia.
  - destruct (pubsub.Pub _ _ _ _); [|discriminate]. intros [= <-]. pl_unfold. done.
  - intros [= <-]. pl_unfold. done.
Qed.

(** X16.  After a failed write has ended [write], a
    forwarding goroutine that holds a frame for the writer never moves
    again: nobody receives from [pl.pkgs].  So the wait group never
    reaches zero, [stop] never returns, and neither the connection nor
    [pl.pkgs] is ever closed. *)
Theorem pl_write_error_strands (s s' : packageListener.state) (i : nat)
    (f : packageListener.forwarder) (frame : bytes) (es : list packageListener.event) :
  pl_reachable s ->
  packageListener.writing s = false ->
  packageListener.forwarders s !! i = Some f ->
  packageListener.at_ f = Sending frame ->
  packageListener.run es s = Some s' ->
  packageListener.forwarders s' !! i = Some f
  /\ packageListener.writing s' = false
  /\ packageListener.stopping s' <> packageListener.StopDone
  /\ (0 < packageListener.waitGroup s')%nat
  /\ packageListener.conn_closed s' = false
  /\ packageListener.pkgs_closed s' = false.
Proof.
  intros Hr Hw Hf Ha Hrun.
  assert (HK : pl_ctl s' /\ packageListener.writing s' = false
               /\ packageListener.forwarders s' !! i = Some f).
  { apply (pl_run_inv (fun s => pl_ctl s /\ packageListener.writing s = false
                                /\ packageListener.forwarders s !! i = Some f))
      with (es := es) (s := s); [|by split; [apply pl_ctl_reachable|]|done].
    intros e t t' (I & Hw' & Hf') Hstep. split; [by eapply pl_ctl_step|].
    by eapply pl_stranded_step. }
  destruct HK as (I & Hw' & Hf').
  assert (Hlive : (0 < pl_live (packageListener.forwarders s'))%nat).
  { eapply pl_live_pos; [exact Hf'|]. by rewrite Ha. }
  assert (Hd : packageListener.stopping s' <> packageListener.StopDone).
  { intros Hd. destruct (ctl_done s' I Hd) as (_ & _ & H0).
    rewrite (ctl_wg s' I) in H0. lia. }
  destruct (ctl_open s' I Hd) as [Hp Hc]. rewrite (ctl_wg s' I). auto 10.
Qed.

(** *** Winding down *)

Lemma pl_return_fields i f s :
  let s1 := packageListener.forward_return i f s in
  packageListener.closed s1 = packageListener.closed s
  /\ packageListener.writing s1 = packageListener.writing s
  /\ packageListener.stopping s1 = packageListener.stopping s
  /\ packageListener.waitGroup s1 = pred (packageListener.waitGroup s)
  /\ packageListener.wire s1 = packageListener.wire s.
Proof.
  cbn zeta. unfold packageListener.forward_return. destruct (pubsub.Unsub _ _ _ _).
  pl_unfold. auto.
Qed.

Lemma pl_leave i f s :
  pl_ctl s -> packageListener.closed s = true -> packageListener.writing s = true ->
  packageListener.forwarders s !! i = Some f ->
  returned (packageListener.at_ f) = false ->
  exists es s', forallb pl_winding_down es = true
    /\ packageListener.run es s = Some s'
    /\ packageListener.closed s' = true /\ packageListener.writing s' = true
    /\ packageListener.stopping s' = packageListener.stopping s
    /\ S (packageListener.waitGroup s') = packageListener.waitGroup s.
Proof.
  intros I Hcl Hw Hf Hlive.
  pose proof (ctl_panicked s I) as Hp.
  assert (Hpos : (0 < packageListener.waitGroup s)%nat).
  { rewrite (ctl_wg s I). by eapply pl_live_pos. }
  assert (Hopen : packageListener.pkgs_closed s = false).
  { destruct (stop_done_dec (packageListener.stopping s)) as [Hd|Hd].
    - destruct (ctl_done s I Hd) as (_ & _ & H0). lia.
    - by destruct (ctl_open s I Hd). }
  destruct (packageListener.at_ f) as [|frame|] eqn:Ea; [| |discriminate].
  - exists [packageListener.FwdClosed i], (packageListener.forward_return i f s).
    destruct (pl_return_fields i f s) as (H1 & H2 & H3 & H4 & _).
    split; [reflexivity|]. split.
    { cbn [packageListener.run]. unfold packageListener.step.
      rewrite Hp. unfold packageListener.forward_closed. rewrite Hf, Ea, Hcl. reflexivity. }
    rewrite H1, H2, H3, H4. repeat split; try done. lia.
  - set (s1 := packageListener.set_at i Select
                 (packageListener.set_wire (packageListener.wire s ++ [frame]) s)).
    exists [packageListener.FwdSend i true; packageListener.FwdClosed i],
      (packageListener.forward_return i (with_at Select f) s1).
    destruct (pl_return_fields i (with_at Select f) s1) as (H1 & H2 & H3 & H4 & _).
    split; [reflexivity|]. split.
    { cbn [packageListener.run]. unfold packageListener.step at 1.
      rewrite Hp. unfold packageListener.forward_send. rewrite Hf, Ea, Hopen, Hw.
      fold s1. unfold packageListener.step.
      assert (Hp1 : packageListener.panicked s1 = false) by (subst s1; pl_unfold; done).
      rewrite Hp1. unfold packageListener.forward_closed.
      assert (Hf1 : packageListener.forwarders s1 !! i = Some (with_at Select f)).
      { subst s1. pl_unfold. rewrite list_lookup_alter_eq, Hf. reflexivity. }
      rewrite Hf1. cbn [with_at packageListener.at_].
      assert (Hc1 : packageListener.closed s1 = true) by (subst s1; pl_unfold; done).
      rewrite Hc1. reflexivity. }
    rewrite H1, H2, H3, H4. subst s1. pl_unfold. repeat split; try done. lia.
Qed.

Lemma pl_drain n : forall s,
  pl_ctl s -> packageListener.closed s = true -> packageListener.writing s = true ->
  packageListener.waitGroup s = n ->
  exists es s', forallb pl_winding_down es = true
    /\ packageListener.run es s = Some s'
    /\ packageListener.closed s' = true /\ packageListener.writing s' = true
    /\ packageListener.stopping s' = packageListener.stopping s
    /\ packageListener.waitGroup s' = 0%nat.
Proof.
  induction n as [|n IH]; intros s I Hcl Hw Hn.
  - exists [], s. auto 10.
  - destruct (pl_live_exists (packageListener.forwarders s)) as (i & f & Hf & Hlive).
    { rewrite <- (ctl_wg s I). lia. }
    destruct (pl_leave i f s I Hcl Hw Hf Hlive)
      as (es1 & s1 & Hwd1 & Hrun1 & Hc1 & Hw1 & Hs1 & Hn1).
    assert (I1 : pl_ctl s1).
    { eapply (pl_run_inv pl_ctl); [apply pl_ctl_step|exact I|exact Hrun1]. }
    destruct (IH s1 I1 Hc1 Hw1) as (es2 & s2 & Hwd2 & Hrun2 & Hc2 & Hw2 & Hs2 & Hn2); [lia|].
    exists (es1 ++ es2), s2. split; [by rewrite forallb_app, Hwd1, Hwd2|].
    split; [by rewrite pl_run_app, Hrun1|]. split; [done|]. split; [done|].
    split; [congruence|done].
Qed.

Lemma pl_finish s :
  pl_ctl s -> packageListener.closed s = true -> packageListener.writing s = true ->
  packageListener.waitGroup s = 0%nat ->
  exists es s', forallb pl_winding_down es = true
    /\ packageListener.run es s = Some s'
    /\ packageListener.stopping s' = packageListener.StopDone
    /\ packageListener.writing s' = false.
Proof.
  intros I Hcl Hw H0. pose proof (ctl_panicked s I) as Hp.
  assert (Hjoin : forall t, packageListener.panicked t = false ->
    packageListener.stopping t = packageListener.StopJoining ->
    packageListener.waitGroup t = 0%nat -> packageListener.pkgs_closed t = false ->
    packageListener.step packageListener.StopJoin t
    = Some (packageListener.set_stopping packageListener.StopDone
              (packageListener.set_pkgs_closed true
                 (packageListener.set_conn_closed true t)))).
  { intros t Hpt Hst Hwt Hpc. unfold packageListener.step. rewrite Hpt.
    unfold packageListener.stop_join. rewrite Hst, Hwt, Hpc. reflexivity. }
  assert (Hend : forall t, packageListener.panicked t = false ->
    packageListener.writing t = true -> packageListener.pkgs_closed t = true ->
    packageListener.step packageListener.WrEnd t
    = Some (packageListener.set_writing false t)).
  { intros t Hpt Hwt Hpc. unfold packageListener.step. rewrite Hpt.
    unfold packageListener.write_end. rewrite Hwt, Hpc. reflexivity. }
  destruct (packageListener.stopping s) eqn:Est.
  - destruct (ctl_open s I) as [Hpc Hcc]; [by rewrite Est|].
    exists [packageListener.StopWake; packageListener.StopJoin; packageListener.WrEnd].
    eexists. split; [reflexivity|]. split.
    { cbn [packageListener.run].
      assert (E1 : packageListener.step packageListener.StopWake s
        = Some (packageListener.set_stopping packageListener.StopJoining
                  (packageListener.set_subs
                     ((fun sr => {| packageListener.sr_sub := packageListener.sr_sub sr;
                                    packageListener.sr_closed := true |})
                      <$> packageListener.subs s) s))).
      { unfold packageListener.step. rewrite Hp.
        unfold packageListener.stop_wake. by rewrite Est, Hcl. }
      rewrite E1, Hjoin, Hend; [reflexivity|..];
        first [exact Hp|exact H0|exact Hpc|exact Hw|reflexivity]. }
    split; reflexivity.
  - destruct (ctl_open s I) as [Hpc Hcc]; [by rewrite Est|].
    exists [packageListener.StopJoin; packageListener.WrEnd].
    eexists. split; [reflexivity|]. split.
    { cbn [packageListener.run]. rewrite Hjoin, Hend; [reflexivity|..];
        first [exact Hp|exact H0|exact Hpc|exact Hw|exact Est|reflexivity]. }
    split; reflexivity.
  - destruct (ctl_done s I Est) as (Hpc & _ & _).
    exists [packageListener.WrEnd]. eexists. split; [reflexivity|]. split.
    { cbn [packageListener.run]. rewrite Hend; [reflexivity|..]; done. }
    split; [exact Est|reflexivity].
Qed.

(** X17.  When the reader of a package listener has returned
    (the connection closed, or a frame that is not binary came in) and the
    writer is alive, the goroutines of the session can run to the end by
    themselves: every forwarder returns, writing out a frame it still
    holds, [stop] unsubscribes them all and closes the connection and
    [pl.pkgs], and the writer returns. *)
Theorem pl_close_cleans_up (s : packageListener.state) :
  pl_reachable s ->
  packageListener.closed s = true -> packageListener.writing s = true ->
  exists es s', forallb pl_winding_down es = true
    /\ packageListener.run es s = Some s'
    /\ packageListener.stopping s' = packageListener.StopDone
    /\ packageListener.reading s' = false /\ packageListener.writing s' = false
    /\ packageListener.conn_closed s' = true /\ packageListener.pkgs_closed s' = true
    /\ packageListener.panicked s' = false
    /\ forall i f, packageListener.forwarders s' !! i = Some f ->
         packageListener.at_ f = Exited
         /\ (forall t, packageListener.sub f
                       ∉ default [] (packageListener.dropBoxPubSub s' !! t)).
Proof.
  intros Hr Hcl Hw. pose proof (pl_ctl_reachable s Hr) as I.
  destruct (pl_drain _ s I Hcl Hw eq_refl) as (es1 & s1 & Hwd1 & Hrun1 & Hc1 & Hw1 & _ & H0).
  assert (I1 : pl_ctl s1).
  { eapply (pl_run_inv pl_ctl); [apply pl_ctl_step|exact I|exact Hrun1]. }
  destruct (pl_finish s1 I1 Hc1 Hw1 H0) as (es2 & s2 & Hwd2 & Hrun2 & Hd & Hw2).
  assert (Hrun : packageListener.run (es1 ++ es2) s = Some s2)
    by (by rewrite pl_run_app, Hrun1).
  pose proof (pl_reachable_run _ _ _ Hr Hrun) as Hr2.
  pose proof (pl_ctl_reachable s2 Hr2) as I2. pose proof (pl_bus_reachable s2 Hr2) as J2.
  destruct (ctl_done s2 I2 Hd) as (Hpc & Hcc & Hwg). rewrite (ctl_wg s2 I2) in Hwg.
  exists (es1 ++ es2), s2. split; [by rewrite forallb_app, Hwd1, Hwd2|].
  split; [done|]. split; [done|]. split.
  { destruct (packageListener.reading s2) eqn:E; [|done].
    rewrite (ctl_waiting s2 I2 (ctl_reading s2 I2 E)) in Hd. discriminate. }
  split; [done|]. split; [done|]. split; [done|]. split; [apply (ctl_panicked s2 I2)|].
  intros i f Hf. pose proof (pl_live_zero _ _ _ Hwg Hf) as Ha.
  split; [done|]. by apply (bus_returned s2 J2 i f).
Qed.

(** *** Delivery *)

Lemma pl_link_start store queues boxBus :
  pl_link (packageListener.start store queues boxBus).
Proof.
  split; cbn.
  - intros i f Hf. by rewrite lookup_nil in Hf.
  - intros _ i f Hf. by rewrite lookup_nil in Hf.
  - intros h sr Hs. by rewrite lookup_empty in Hs.
Qed.

Lemma pl_link_set_at i p s :
  (forall f, packageListener.forwarders s !! i = Some f ->
     returned (packageListener.at_ f) = false /\ returned p = false) ->
  pl_link s -> pl_link (packageListener.set_at i p s).
Proof.
  intros Hp [I1 I2 I3].
  split; pl_unfold; change (alter _ i ?l) with (alter (with_at p) i l).
  - intros j f' Hf' Hl.
    apply pl_alter_lookup in Hf' as (f0 & Hf0 & _ & _ & Hs & Hne & Heq).
    rewrite Hs. apply (I1 j f0 Hf0).
    destruct (decide (j = i)) as [->|Hn]; [by apply Hp|]. by rewrite <- (Hne Hn).
  - intros Hcl j f' Hf'.
    apply pl_alter_lookup in Hf' as (f0 & Hf0 & _ & _ & Hs & Hne & Heq).
    destruct (decide (j = i)) as [->|Hn].
    + rewrite (Heq eq_refl). by apply (Hp f0).
    + rewrite (Hne Hn). by apply (I2 Hcl j).
  - intros h sr Hsr. destruct (I3 h sr Hsr) as (j & f & Hf & Ht & Hs).
    exists j. destruct (decide (j = i)) as [->|Hn].
    + eexists. rewrite list_lookup_alter_eq, Hf. cbn. done.
    + exists f. by rewrite list_lookup_alter_ne.
Qed.

Lemma pl_link_return i f s :
  packageListener.closed s = true ->
  packageListener.forwarders s !! i = Some f ->
  returned (packageListener.at_ f) = false ->
  pl_bus s -> pl_link s -> pl_link (packageListener.forward_return i f s).
Proof.
  intros Hcl Hf Hlive J [I1 I2 I3]. unfold packageListener.forward_return.
  destruct (pubsub.Unsub _ _ _ _) as [queues bus] eqn:EU.
  assert (Hq : queues = (pubsub.Unsub (packageListener.sub f) (packageListener.topic f)
                 (packageListener.chans s) (packageListener.dropBoxPubSub s)).1)
    by (by rewrite EU).
  clear EU.
  split; pl_unfold; change (alter _ i ?l) with (alter (with_at Exited) i l).
  - intros j f' Hf' Hl.
    apply pl_alter_lookup in Hf' as (f0 & Hf0 & _ & _ & Hs & Hne & Heq).
    destruct (decide (j = i)) as [->|Hn]; [rewrite (Heq eq_refl) in Hl; discriminate|].
    rewrite (Hne Hn) in *.
    assert (Hdiff : packageListener.sub f0 <> packageListener.sub f).
    { intros Hsub. apply Hn. by eapply (bus_inj s J). }
    subst queues. unfold pubsub.Unsub. case_bool_decide; cbn [fst]; [|by eapply I1].
    rewrite list_lookup_alter_ne by done. by eapply I1.
  - rewrite Hcl. discriminate.
  - intros h sr Hsr. destruct (I3 h sr Hsr) as (j & f0 & Hf0 & Ht & Hs).
    exists j. destruct (decide (j = i)) as [->|Hn].
    + eexists. rewrite list_lookup_alter_eq, Hf0. cbn. done.
    + exists f0. by rewrite list_lookup_alter_ne.
Qed.

Lemma pl_link_chans queues s :
  (forall c, chan_closed <$> packageListener.chans s !! c = Some false ->
             chan_closed <$> queues !! c = Some false) ->
  pl_link s -> pl_link (packageListener.set_chans queues s).
Proof.
  intros Hcl [I1 I2 I3]. split; pl_unfold; try done.
  intros j f Hf Ha. apply Hcl. by eapply I1.
Qed.

Lemma pl_link_watch box s : pl_bus s -> pl_link s -> pl_link (packageListener.watch box s).
Proof.
  intros J I. unfold packageListener.watch.
  destruct (negb _); [done|].
  destruct (packageListener.subs s !! _) eqn:Esub; [done|].
  unfold pubsub.Sub, pickUpPackage. cbn [fst snd].
  destruct (watch_queue (bolt.Get box (dropboxes (packageListener.srv s)))
              (packageListener.chans s)) as (ch0 & Hch0 & ->).
  destruct I as [I1 I2 I3]. split; pl_proj.
  - intros j f Hf Hl. apply lookup_app_Some in Hf as [Hf|[_ Hf]].
    + rewrite lookup_app_l by (by eapply (bus_lt s J)). by eapply I1.
    + destruct (j - _)%nat; [|discriminate]. injection Hf as <-. pl_proj.
      rewrite lookup_app_r by lia. rewrite Nat.sub_diag. cbn. by rewrite Hch0.
  - intros Hcl j f Hf. apply lookup_app_Some in Hf as [Hf|[_ Hf]]; [by eapply I2|].
    destruct (j - _)%nat; [|discriminate]. by injection Hf as <-.
  - intros h sr Hsr. destruct (decide (h = hex.EncodeToString box)) as [->|Hne].
    + rewrite lookup_insert_eq in Hsr. injection Hsr as <-.
      exists (length (packageListener.forwarders s)). eexists.
      rewrite lookup_app_r by lia. rewrite Nat.sub_diag. cbn. done.
    + rewrite lookup_insert_ne in Hsr by done.
      destruct (I3 h sr Hsr) as (j & f & Hf & Ht & Hs). exists j, f.
      split; [|done]. rewrite lookup_app_l; [done|]. by eapply lookup_lt_Some.
Qed.

Lemma pl_link_step e s s' :
  pl_bus s -> pl_link s -> packageListener.step e s = Some s' -> pl_link s'.
Proof.
  intros J I. unfold packageListener.step.
  destruct (packageListener.panicked s); [discriminate|].
  destruct e as [r|i|i|i ok| | | |item t|b p].
  - destruct (packageListener.reading s) eqn:Hr; [|discriminate]. intros [= <-].
    assert (Hend : pl_link (packageListener.set_closed true
                              (packageListener.set_reading false s))).
    { destruct I. split; pl_unfold; done. }
    unfold packageListener.read. repeat case_match; try done.
    + by apply pl_link_watch.
    + unfold packageListener.ignore. repeat case_match; try done.
      destruct I as [I1 I2 I3]. split; pl_unfold; try done.
      intros h sr [Hne Hsr]%lookup_delete_Some.
      rewrite lookup_insert_ne in Hsr by done. by eapply I3.
  - unfold packageListener.forward_closed.
    destruct (packageListener.forwarders s !! i) as [f|] eqn:Ef; [|discriminate].
    destruct (packageListener.at_ f) eqn:Ea; try discriminate.
    destruct (packageListener.closed s) eqn:Ecl; [|discriminate]. intros [= <-].
    apply pl_link_return; try done. by rewrite Ea.
  - unfold packageListener.forward_sub.
    destruct (packageListener.forwarders s !! i) as [f|] eqn:Ef; [|discriminate].
    destruct (packageListener.at_ f) eqn:Ea; try discriminate.
    destruct (packageListener.chans s !! packageListener.sub f) as [ch|] eqn:Ech;
      [|discriminate].
    assert (Hopen : chan_closed ch = false).
    { pose proof (link_open s I i f Ef) as Ho. rewrite Ea, Ech in Ho.
      specialize (Ho eq_refl). by injection Ho. }
    unfold recv. rewrite Hopen. destruct (buf ch) as [|x rest] eqn:Eb; [discriminate|].
    intros [= <-]. apply pl_link_set_at.
    + pl_unfold. intros f0 Hf0. rewrite Ef in Hf0. injection Hf0 as <-. by rewrite Ea.
    + apply pl_link_chans; [|done].
      intros c Hc. destruct (decide (c = packageListener.sub f)) as [->|Hne].
      * rewrite list_lookup_insert_eq by (by eapply lookup_lt_Some). done.
      * by rewrite list_lookup_insert_ne.
  - unfold packageListener.forward_send.
    destruct (packageListener.forwarders s !! i) as [f|] eqn:Ef; [|discriminate].
    destruct (packageListener.at_ f) eqn:Ea; try discriminate.
    destruct (packageListener.pkgs_closed s).
    { intros [= <-]. destruct I. split; pl_unfold; done. }
    destruct (packageListener.writing s); [|discriminate]. intros [= <-].
    apply pl_link_set_at.
    + intros f0 Hf0.
      assert (Hf1 : packageListener.forwarders s !! i = Some f0) by (by destruct ok).
      rewrite Ef in Hf1. injection Hf1 as <-. by rewrite Ea.
    + destruct ok; destruct I; split; pl_unfold; done.
  - unfold packageListener.write_end.
    destruct (_ && _); [|discriminate]. intros [= <-].
    destruct I. split; pl_unfold; done.
  - unfold packageListener.stop_wake.
    destruct (packageListener.stopping s); try discriminate.
    destruct (packageListener.closed s) eqn:Ecl; [|discriminate]. intros [= <-].
    destruct I as [I1 I2 I3]. split; pl_unfold; try done; try (intros; congruence).
    intros h sr Hsr. rewrite lookup_fmap in Hsr.
    destruct (packageListener.subs s !! h) as [sr0|] eqn:E0; [|discriminate].
    injection Hsr as <-. pl_proj. by eapply I3.
  - unfold packageListener.stop_join.
    destruct (packageListener.stopping s); try discriminate.
    destruct (_ =? _)%nat; [|discriminate].
    destruct (packageListener.pkgs_closed s); intros [= <-];
      destruct I; split; pl_unfold; done.
  - destruct (pubsub.Pub _ _ _ _) as [queues|] eqn:EP; [|discriminate]. intros [= <-].
    apply pl_link_chans; [|done].
    intros c Hc. unfold pubsub.Pub in EP. by rewrite (deliver_closed _ _ _ _ c EP).
  - intros [= <-]. destruct I. split; pl_unfold; done.
Qed.

Lemma pl_link_reachable s : pl_reachable s -> pl_link s.
Proof.
  intros Hr. pose proof Hr as (store & queues & boxBus & es & Hwf & Hrun).
  assert (H : pl_bus s /\ pl_link s); [|tauto].
  eapply (pl_run_inv (fun s => pl_bus s /\ pl_link s));
    [|split; [by apply pl_bus_start|apply pl_link_start]|exact Hrun].
  intros e t t' [J I] Hstep. split; [by eapply pl_bus_step|by eapply pl_link_step].
Qed.

Lemma EncodeToString_inj b1 b2 :
  hex.EncodeToString b1 = hex.EncodeToString b2 -> b1 = b2.
Proof.
  intros Heq. pose proof (DecodeString_EncodeToString b1) as H1.
  rewrite Heq, DecodeString_EncodeToString in H1. by injection H1.
Qed.

Section bus_deliver.
Context `{Countable K}.

Lemma deliver_buf item subscribers : forall queues queues' c ch,
  pubsub.deliver item subscribers queues = Some queues' ->
  queues !! c = Some ch ->
  exists n, queues' !! c
            = Some {| buf := buf ch ++ repeat item n; chan_closed := chan_closed ch |}
    /\ (c ∈ subscribers -> (0 < n)%nat).
Proof.
  induction subscribers as [|k subscribers IH]; intros queues queues' c ch Hd Hc.
  - cbn in Hd. injection Hd as <-. exists 0%nat. cbn [repeat]. rewrite app_nil_r.
    split; [by destruct ch|]. intros Hin. by apply elem_of_nil in Hin.
  - cbn in Hd. destruct (queues !! k) as [chk|] eqn:Ek; [|discriminate].
    unfold send in Hd. destruct (chan_closed chk) eqn:Ecl; [discriminate|].
    destruct (_ <? _)%nat; [|discriminate].
    destruct (decide (c = k)) as [->|Hne].
    + rewrite Ek in Hc. injection Hc as <-.
      destruct (IH _ _ k _ Hd (list_lookup_insert_eq _ _ _ (lookup_lt_Some _ _ _ Ek)))
        as (n & Hn & _).
      exists (S n). cbn [buf chan_closed] in Hn. rewrite Hn, Ecl, <- app_assoc.
      split; [reflexivity|]. lia.
    + destruct (IH _ _ c ch Hd) as (n & Hn & Hpos).
      { by rewrite list_lookup_insert_ne. }
      exists n. split; [done|]. intros [?|Hin]%elem_of_cons; [done|by apply Hpos].
Qed.

End bus_deliver.

Lemma pl_focus_send i B c q frame s :
  pl_focus i B c q (Sending frame) s ->
  exists s', packageListener.run [packageListener.FwdSend i true] s = Some s'
    /\ pl_focus i B c q Select s'
    /\ packageListener.wire s' = packageListener.wire s ++ [frame].
Proof.
  intros (Hw & Hp & Hpc & (f & Hf & HB & Hc & Ha) & (b & Hch)).
  cbn [packageListener.run]. unfold packageListener.step.
  rewrite Hp. unfold packageListener.forward_send. rewrite Hf, Ha, Hpc, Hw.
  eexists. split; [reflexivity|]. split; [|reflexivity].
  unfold pl_focus. pl_unfold. repeat split; try done.
  - eexists. rewrite list_lookup_alter_eq, Hf. cbn. done.
  - by exists b.
Qed.

Lemma pl_focus_item i B c x q s :
  pl_focus i B c (x :: q) Select s ->
  exists s', packageListener.run [packageListener.FwdSub i; packageListener.FwdSend i true] s
             = Some s'
    /\ pl_focus i B c q Select s'
    /\ packageListener.wire s' = packageListener.wire s ++ [x01 :: B ++ x].
Proof.
  intros (Hw & Hp & Hpc & (f & Hf & HB & Hc & Ha) & (b & Hch)).
  assert (Hstep : exists s1,
    packageListener.step (packageListener.FwdSub i) s = Some s1
    /\ pl_focus i B c q (Sending (x01 :: B ++ x)) s1
    /\ packageListener.wire s1 = packageListener.wire s).
  { unfold packageListener.step. rewrite Hp. unfold packageListener.forward_sub.
    rewrite Hf, Ha, Hc, Hch. cbn [recv buf chan_closed].
    eexists. split; [reflexivity|]. split; [|reflexivity].
    unfold pl_focus. pl_unfold. repeat split; try done.
    - eexists. rewrite list_lookup_alter_eq, Hf. cbn. rewrite HB. done.
    - exists b. apply list_lookup_insert_eq. by eapply lookup_lt_Some. }
  destruct Hstep as (s1 & E1 & F1 & W1).
  destruct (pl_focus_send _ _ _ _ _ _ F1) as (s2 & E2 & F2 & W2).
  exists s2. cbn [packageListener.run] in *. rewrite E1. split; [exact E2|].
  split; [done|]. by rewrite W2, W1.
Qed.

Lemma pl_focus_flush i B c q : forall s,
  pl_focus i B c q Select s ->
  exists es s', forallb packageListener.internal es = true
    /\ packageListener.run es s = Some s'
    /\ pl_focus i B c [] Select s'
    /\ packageListener.wire s' = packageListener.wire s ++ ((fun p => x01 :: B ++ p) <$> q).
Proof.
  induction q as [|x q IH]; intros s F.
  - exists [], s. cbn. rewrite app_nil_r. auto.
  - destruct (pl_focus_item _ _ _ _ _ _ F) as (s1 & E1 & F1 & W1).
    destruct (IH _ F1) as (es & s' & Hint & Hrun & F' & W').
    exists ([packageListener.FwdSub i; packageListener.FwdSend i true] ++ es), s'.
    split; [cbn; exact Hint|]. split; [by rewrite pl_run_app, E1|]. split; [done|].
    rewrite W', W1, <- app_assoc. reflexivity.
Qed.

(** A publish on the topic of a forwarder that has not returned reaches
    the peer. *)
Lemma pl_forwarder_delivers s i f p :
  pl_ctl s -> pl_bus s -> pl_link s -> packageListener.running s ->
  packageListener.forwarders s !! i = Some f ->
  is_Some (pubsub.Pub p (packageListener.topic f) (packageListener.chans s)
             (packageListener.dropBoxPubSub s)) ->
  exists es s', forallb packageListener.internal es = true
    /\ packageListener.run (packageListener.PubPkg p (packageListener.topic f) :: es) s
       = Some s'
    /\ exists earlier,
         packageListener.wire s'
         = packageListener.wire s ++ earlier ++ [x01 :: packageListener.boxID f ++ p].
Proof.
  intros I J L (Hrd & Hw & Hp & Hpc) Hf [queues HP].
  pose proof (link_alive s L (ctl_reading s I Hrd) i f Hf) as Hlive.
  destruct (bus_live s J i f Hf Hlive) as [Hsub _].
  pose proof (bus_lt s J i f Hf) as Hlt.
  destruct (lookup_lt_is_Some_2 _ _ Hlt) as [ch Hch].
  unfold pubsub.Pub in HP.
  destruct (deliver_buf _ _ _ _ _ _ HP Hch) as (n & Hq & Hpos). specialize (Hpos Hsub).
  set (s1 := packageListener.set_chans queues s).
  assert (E1 : packageListener.step
                 (packageListener.PubPkg p (packageListener.topic f)) s = Some s1).
  { unfold packageListener.step. rewrite Hp. unfold pubsub.Pub. by rewrite HP. }
  assert (Hfl : exists es s', forallb packageListener.internal es = true
    /\ packageListener.run es s1 = Some s'
    /\ exists pre, packageListener.wire s'
         = packageListener.wire s ++ pre
           ++ ((fun x => x01 :: packageListener.boxID f ++ x) <$> (buf ch ++ repeat p n))).
  { destruct (packageListener.at_ f) as [|frame|] eqn:Ea; [| |discriminate].
    - destruct (pl_focus_flush i (packageListener.boxID f) (packageListener.sub f)
                  (buf ch ++ repeat p n) s1) as (es & s' & Hint & Hrun & _ & Hwire).
      { unfold pl_focus. subst s1. pl_unfold. repeat split; try done; eauto. }
      exists es, s'. split; [done|]. split; [done|]. exists []. exact Hwire.
    - destruct (pl_focus_send i (packageListener.boxID f) (packageListener.sub f)
                  (buf ch ++ repeat p n) frame s1) as (s2 & E2 & F2 & W2).
      { unfold pl_focus. subst s1. pl_unfold. repeat split; try done; eauto. }
      destruct (pl_focus_flush _ _ _ _ _ F2) as (es & s' & Hint & Hrun & _ & Hwire).
      exists (packageListener.FwdSend i true :: es), s'. split; [exact Hint|].
      split.
      { cbn [packageListener.run] in *.
        destruct (packageListener.step _ s1); [|discriminate]. injection E2 as ->.
        exact Hrun. }
      exists [frame]. rewrite Hwire, W2. subst s1. pl_unfold.
      by rewrite <- app_assoc. }
  destruct Hfl as (es & s' & Hint & Hrun & pre & Hwire).
  exists es, s'. split; [done|]. split; [cbn [packageListener.run]; by rewrite E1|].
  destruct n as [|n]; [lia|].
  exists (pre ++ ((fun x => x01 :: packageListener.boxID f ++ x) <$> (buf ch ++ repeat p n))).
  rewrite Hwire. f_equal. rewrite <- app_assoc. f_equal.
  replace (repeat p (S n)) with (repeat p n ++ [p]) by (symmetry; apply repeat_cons).
  rewrite app_assoc, fmap_app. reflexivity.
Qed.

(** X18.  In a running package listener that watches box [B],
    a package published on the topic of [B] reaches the peer: the session's
    goroutines can run by themselves until the frame 0x01 || [B] ||
    package is written, after the frames that were due before it. *)
Theorem pl_publish_delivered (s : packageListener.state) (B p : bytes)
    (sr : packageListener.subscriptionReader) :
  pl_reachable s -> packageListener.running s ->
  packageListener.subs s !! hex.EncodeToString B = Some sr ->
  is_Some (pubsub.Pub p (hex.EncodeToString B) (packageListener.chans s)
             (packageListener.dropBoxPubSub s)) ->
  exists es s', forallb packageListener.internal es = true
    /\ packageListener.run (packageListener.PubPkg p (hex.EncodeToString B) :: es) s
       = Some s'
    /\ exists earlier,
         packageListener.wire s' = packageListener.wire s ++ earlier ++ [x01 :: B ++ p].
Proof.
  intros Hr Hrun Hsr HP.
  pose proof (pl_link_reachable s Hr) as L. pose proof (pl_fmt_reachable s Hr) as F.
  destruct (link_subs s L _ _ Hsr) as (i & f & Hf & Ht & _).
  destruct (fmt_forwarders s F i f Hf) as (_ & Htopic & _).
  assert (HB : packageListener.boxID f = B).
  { apply EncodeToString_inj. by rewrite <- Htopic. }
  rewrite <- Ht, <- HB in *.
  eapply pl_forwarder_delivers; eauto using pl_ctl_reachable, pl_bus_reachable.
Qed.

(** X19.  In a package listener an IGNORE removes the entry of
    [pl.subs] and nothing else: the forwarding goroutine does not select on
    the channel that [ignore] closes, and stays subscribed.  A package
    published for the ignored box afterwards is still written to the
    peer. *)
Theorem pl_ignore_keeps_delivering (s : packageListener.state) (B p : bytes)
    (sr : packageListener.subscriptionReader) :
  pl_reachable s -> packageListener.running s ->
  length B = dropBoxIDSize ->
  packageListener.subs s !! hex.EncodeToString B = Some sr ->
  is_Some (pubsub.Pub p (hex.EncodeToString B) (packageListener.chans s)
             (packageListener.dropBoxPubSub s)) ->
  exists s1,
    packageListener.step (packageListener.Read (ReadMsg true (clientCmdIgnore :: B))) s
    = Some s1
    /\ packageListener.subs s1 !! hex.EncodeToString B = None
    /\ packageListener.sr_sub sr
         ∈ default [] (packageListener.dropBoxPubSub s1 !! hex.EncodeToString B)
    /\ exists es s', forallb packageListener.internal es = true
         /\ packageListener.run (packageListener.PubPkg p (hex.EncodeToString B) :: es) s1
            = Some s'
         /\ exists earlier,
              packageListener.wire s' = packageListener.wire s ++ earlier ++ [x01 :: B ++ p].
Proof.
  intros Hr Hrun HL Hsr HP.
  pose proof (pl_link_reachable s Hr) as L. pose proof (pl_fmt_reachable s Hr) as F.
  pose proof (pl_ctl_reachable s Hr) as I. pose proof (pl_bus_reachable s Hr) as J.
  destruct (link_subs s L _ _ Hsr) as (i & f & Hf & Ht & Hs).
  destruct (fmt_forwarders s F i f Hf) as (_ & Htopic & _).
  assert (HB : packageListener.boxID f = B).
  { apply EncodeToString_inj. by rewrite <- Htopic. }
  destruct Hrun as (Hrd & Hw & Hp & Hpc).
  pose proof (link_alive s L (ctl_reading s I Hrd) i f Hf) as Hlive.
  destruct (bus_live s J i f Hf Hlive) as [Hsub _].
  set (s1 := packageListener.set_subs
               (delete (hex.EncodeToString B)
                  (<[hex.EncodeToString B :=
                       {| packageListener.sr_sub := packageListener.sr_sub sr;
                          packageListener.sr_closed := true |}]>
                     (packageListener.subs s))) s).
  assert (E1 : packageListener.step
                 (packageListener.Read (ReadMsg true (clientCmdIgnore :: B))) s = Some s1).
  { unfold packageListener.step. rewrite Hp, Hrd. cbn [packageListener.read].
    rewrite bool_decide_eq_false_2 by discriminate.
    rewrite bool_decide_eq_false_2 by discriminate.
    rewrite bool_decide_eq_true_2 by reflexivity.
    unfold packageListener.ignore. rewrite HL, Nat.eqb_refl. cbn [negb].
    by rewrite Hsr. }
  exists s1. split; [exact E1|]. split; [subst s1; pl_unfold; apply lookup_delete_eq|].
  split; [subst s1; pl_unfold; by rewrite <- Hs, <- Ht|].
  assert (Hr1 : pl_reachable s1).
  { eapply (pl_reachable_run [_]); [exact Hr|]. cbn [packageListener.run]. by rewrite E1. }
  destruct (pl_forwarder_delivers s1 i f p (pl_ctl_reachable _ Hr1) (pl_bus_reachable _ Hr1)
              (pl_link_reachable _ Hr1))
    as (es & s' & Hint & Hrun' & earlier & Hwire).
  - subst s1. by repeat split.
  - subst s1. by pl_unfold.
  - subst s1. pl_unfold. by rewrite Ht.
  - exists es, s'. split; [done|]. rewrite Ht in Hrun'. split; [done|].
    exists earlier. rewrite Hwire, HB. subst s1. by pl_unfold.
Qed.

Lemma pl_inv_set_srv srv' s :
  pl_ctl s -> pl_bus s -> pl_link s ->
  pl_ctl (packageListener.set_srv srv' s) /\ pl_bus (packageListener.set_srv srv' s)
  /\ pl_link (packageListener.set_srv srv' s).
Proof.
  intros I J L. split; [|split].
  - destruct I. split; pl_unfold; done.
  - destruct J. split; pl_unfold; done.
  - destruct L. split; pl_unfold; done.
Qed.

(** X20.  A PUT to a box that a running package listener
    watches is pushed to the watcher: when the id is spelled as
    [hex.EncodeToString] spells it and the package is within bolt's value
    size, the handler stores the package, answers [sendSuccess] and
    publishes it, and the session's goroutines can run by themselves until
    the frame 0x01 || [B] || package is written to the peer. *)
Theorem put_reaches_watcher (s : packageListener.state) (B pkg : bytes)
    (sr : packageListener.subscriptionReader) :
  pl_reachable s -> packageListener.running s ->
  packageListener.subs s !! hex.EncodeToString B = Some sr ->
  Z.of_nat (length pkg) <= bolt.MaxValueSize ->
  is_Some (pubsub.Pub pkg (hex.EncodeToString B) (packageListener.chans s)
             (packageListener.dropBoxPubSub s)) ->
  exists s1,
    pl_PUT (hex.EncodeToString B) (Some pkg) true s = Some (Success, s1)
    /\ dropboxes (packageListener.srv s1) !! B = Some pkg
    /\ exists es s', forallb packageListener.internal es = true
         /\ packageListener.run es s1 = Some s'
         /\ exists earlier,
              packageListener.wire s' = packageListener.wire s ++ earlier ++ [x01 :: B ++ pkg].
Proof.
  intros Hr Hrun Hsr Hsize HP.
  pose proof (pl_link_reachable s Hr) as L. pose proof (pl_fmt_reachable s Hr) as F.
  pose proof (pl_ctl_reachable s Hr) as I. pose proof (pl_bus_reachable s Hr) as J.
  destruct (link_subs s L _ _ Hsr) as (i & f & Hf & Ht & _).
  destruct (fmt_forwarders s F i f Hf) as (HL & Htopic & _).
  assert (HB : packageListener.boxID f = B).
  { apply EncodeToString_inj. by rewrite <- Htopic. }
  rewrite HB in HL.
  unfold pl_PUT, dropPackageHandler.
  rewrite (parseDropBoxID_ok _ B (DecodeString_EncodeToString B) HL).
  unfold bolt.Update. rewrite (bolt_Put_box _ _ _ HL).
  apply Z.leb_le in Hsize. rewrite Hsize. cbn [negb].
  set (srv' := {| dropboxes := _ |}).
  destruct (pl_inv_set_srv srv' s I J L) as (I1 & J1 & L1).
  destruct (pl_forwarder_delivers (packageListener.set_srv srv' s) i f pkg I1 J1 L1)
    as (es & s' & Hint & Hrun' & earlier & Hwire).
  - destruct Hrun as (? & ? & ? & ?). by repeat split.
  - done.
  - pl_unfold. by rewrite Ht.
  - cbn [packageListener.run] in Hrun'. unfold packageListener.step in Hrun'.
    destruct Hrun as (_ & _ & Hp & _).
    assert (Hp1 : packageListener.panicked (packageListener.set_srv srv' s) = false)
      by (pl_unfold; done).
    rewrite Hp1, Ht in Hrun'. revert Hrun'. pl_unfold.
    destruct (pubsub.Pub _ _ _ _) as [queues|]; [|discriminate]. cbn [fmap option_fmap option_map].
    intros Hrun'. eexists. split; [reflexivity|]. split.
    { pl_unfold. subst srv'. cbn [dropboxes]. apply lookup_insert_eq. }
    exists es, s'. split; [done|]. split; [exact Hrun'|].
    exists earlier. rewrite Hwire, HB. by pl_unfold.
Qed.

Lemma ss_alter_lookup p (i : nat) (fs : list socketServer.forwarder) (j : nat) f' :
  alter (fun f => {| socketServer.hexID := socketServer.hexID f;
                     socketServer.boxID := socketServer.boxID f;
                     socketServer.sub := socketServer.sub f;
                     socketServer.at_ := p |}) i fs !! j = Some f' ->
  exists f, fs !! j = Some f
    /\ socketServer.hexID f' = socketServer.hexID f
    /\ socketServer.boxID f' = socketServer.boxID f
    /\ socketServer.sub f' = socketServer.sub f.
Proof.
  destruct (decide (j = i)) as [->|Hne].
  - rewrite list_lookup_alter_eq. destruct (fs !! i) as [f|]; [|discriminate].
    intros [= <-]. exists f. by repeat split.
  - rewrite list_lookup_alter_ne by done. intros Hf. exists f'. by repeat split.
Qed.

Lemma ss_fmt_set_at i p s : ss_fmt s -> ss_fmt (socketServer.set_at i p s).
Proof.
  intros [I1 I2]. split; ss_unfold.
  - intros j f' Hf'. apply ss_alter_lookup in Hf' as (f & Hf & -> & -> & ->).
    by eapply I1.
  - intros h c j f' Hh Hf'. apply ss_alter_lookup in Hf' as (f & Hf & -> & _ & ->).
    by eapply I2.
Qed.

Lemma ss_fmt_chans queues s :
  length queues = length (socketServer.chans s) ->
  ss_fmt s -> ss_fmt (socketServer.set_chans queues s).
Proof.
  intros Hlen [I1 I2]. split; ss_unfold; [|done].
  intros j f Hf. rewrite Hlen. by eapply I1.
Qed.

Lemma ss_fmt_start user store queues boxBus msgBus :
  ss_fmt (socketServer.start user store queues boxBus msgBus).
Proof.
  unfold socketServer.start, pubsub.Sub. split; ss_proj.
  - intros i f Hf. by rewrite lookup_nil in Hf.
  - intros h c i f Hh. by rewrite lookup_empty in Hh.
Qed.

Lemma ss_fmt_watchBox box kv_ok s :
  ss_inv s -> ss_fmt s -> ss_fmt (socketServer.watchBox box kv_ok s).
Proof.
  intros I F. unfold socketServer.watchBox.
  destruct (Nat.eqb_spec (length box) dropBoxIDSize) as [HL|]; cbn [negb]; [|done].
  destruct (socketServer.pkgSubs s !! hex.EncodeToString box) eqn:Esub; [done|].
  unfold pubsub.Sub.
  destruct (watch_queue (socketServer.PickUpPackage kv_ok box s) (socketServer.chans s))
    as (ch0 & Hch0 & ->).
  destruct F as [F1 F2]. split; ss_proj.
  - intros j f Hf. rewrite length_app. cbn [length].
    apply lookup_app_Some in Hf as [Hf|[_ Hf]].
    + destruct (F1 j f Hf) as (H1 & H2 & H3). repeat split; try done. lia.
    + destruct (j - _)%nat; [|discriminate]. injection Hf as <-. ss_proj.
      repeat split; try done. lia.
  - intros h c j f Hh Hf Hs.
    apply lookup_app_Some in Hf as [Hf|[_ Hf]].
    + destruct (decide (h = hex.EncodeToString box)) as [->|Hne].
      * rewrite lookup_insert_eq in Hh. injection Hh as <-.
        destruct (F1 j f Hf) as (_ & _ & H3). lia.
      * rewrite lookup_insert_ne in Hh by done. by eapply F2.
    + destruct (j - _)%nat; [|discriminate]. injection Hf as <-. ss_proj.
      cbn [socketServer.sub] in Hs. subst c.
      destruct (decide (h = hex.EncodeToString box)) as [->|Hne]; [done|].
      rewrite lookup_insert_ne in Hh by done.
      destruct (inv_subs s I _ _ Hh) as (_ & Ho & _). apply open_at_lt in Ho. lia.
Qed.

Lemma ss_fmt_ignoreBox box s : ss_fmt s -> ss_fmt (socketServer.ignoreBox box s).
Proof.
  intros [F1 F2]. unfold socketServer.ignoreBox.
  destruct (socketServer.pkgSubs s !! hex.EncodeToString box) as [c0|] eqn:Esub; [|done].
  destruct (pubsub.Unsub c0 _ _ _) as [queues bus] eqn:EU.
  assert (Hq : length queues = length (socketServer.chans s)).
  { replace queues with (pubsub.Unsub c0 (hex.EncodeToString box) (socketServer.chans s)
                           (socketServer.dropBoxPubSub s)).1 by (by rewrite EU).
    apply Unsub_length. }
  split; ss_proj.
  - intros j f Hf. rewrite Hq. by eapply F1.
  - intros h c j f [_ Hh]%lookup_delete_Some. by eapply F2.
Qed.

Lemma ss_fmt_step e s s' :
  ss_inv s -> ss_fmt s -> socketServer.step e s = Some s' -> ss_fmt s'.
Proof.
  intros I F. unfold socketServer.step.
  destruct (socketServer.panicked s); [discriminate|].
  destruct e as [r k|i|i|i|ok|ok| | |item t|item u|b p].
  - destruct (socketServer.reading s); [|discriminate]. intros [= <-].
    assert (Hend : ss_fmt (socketServer.set_closed true (socketServer.set_reading false s))).
    { destruct F. split; ss_unfold; done. }
    unfold socketServer.readConn. repeat case_match; try done.
    + by apply ss_fmt_watchBox.
    + by apply ss_fmt_ignoreBox.
  - unfold socketServer.forward_closed.
    destruct (socketServer.forwarders s !! i) as [f|]; [|discriminate].
    destruct (socketServer.at_ f); try discriminate.
    destruct (socketServer.closed s); [|discriminate]. intros [= <-].
    by apply ss_fmt_set_at.
  - unfold socketServer.forward_sub.
    destruct (socketServer.forwarders s !! i) as [f|]; [|discriminate].
    destruct (socketServer.at_ f); try discriminate.
    destruct (socketServer.chans s !! socketServer.sub f) as [ch|]; [|discriminate].
    destruct (recv ch) as [[pkg|] ch'|]; [| |discriminate].
    + intros [= <-]. apply ss_fmt_set_at, ss_fmt_chans; [apply length_insert|done].
    + destruct (close (socketServer.pkgs s)); intros [= <-].
      * apply ss_fmt_set_at. destruct F. split; ss_unfold; done.
      * destruct F. split; ss_unfold; done.
  - unfold socketServer.forward_send.
    destruct (socketServer.forwarders s !! i) as [f|]; [|discriminate].
    destruct (socketServer.at_ f); try discriminate.
    destruct (send _ _ _); try discriminate; intros [= <-].
    + apply ss_fmt_set_at. destruct F. split; ss_unfold; done.
    + destruct F. split; ss_unfold; done.
  - destruct (socketServer.writing s); [|discriminate].
    unfold socketServer.writeConn_messages.
    destruct (socketServer.chans s !! socketServer.messages s) as [ch|]; [|discriminate].
    destruct (recv ch) as [[msg|] ch'|]; [| |discriminate]; intros [= <-].
    + assert (F' : ss_fmt (socketServer.set_chans
                             (<[socketServer.messages s := ch']> (socketServer.chans s)) s)).
      { apply ss_fmt_chans; [apply length_insert|done]. }
      destruct ok; destruct F'; split; ss_unfold; done.
    + destruct F. split; ss_unfold; done.
  - destruct (socketServer.writing s); [|discriminate].
    unfold socketServer.writeConn_pkgs.
    destruct (recv _) as [[pkg|] ch'|]; [| |discriminate]; intros [= <-].
    + destruct ok; destruct F; split; ss_unfold; done.
    + destruct F. split; ss_unfold; done.
  - destruct (socketServer.writing s); [|discriminate].
    unfold socketServer.writeConn_closed.
    destruct (socketServer.closed s); [|discriminate]. intros [= <-].
    destruct F. split; ss_unfold; done.
  - rewrite (inv_stopping s I). discriminate.
  - destruct (pubsub.Pub _ _ _ _) as [queues|] eqn:EP; [|discriminate]. intros [= <-].
    apply ss_fmt_chans; [|done]. by eapply deliver_length.
  - destruct (pubsub.Pub _ _ _ _) as [queues|] eqn:EP; [|discriminate]. intros [= <-].
    apply ss_fmt_chans; [|done]. by eapply deliver_length.
  - intros [= <-]. destruct F. split; ss_unfold; done.
Qed.

Lemma ss_fmt_reachable s : socketServer.reachable s -> ss_fmt s.
Proof.
  intros (user & store & queues & boxBus & msgBus & es & Hrun).
  assert (H : ss_inv s /\ ss_fmt s); [|tauto].
  revert Hrun. generalize (socketServer.start user store queues boxBus msgBus)
    (conj (ss_inv_start user store queues boxBus msgBus)
          (ss_fmt_start user store queues boxBus msgBus)).
  induction es as [|e es IH]; intros t [I F] Hrun.
  - cbn in Hrun. by injection Hrun as <-.
  - cbn in Hrun. destruct (socketServer.step e t) as [t1|] eqn:E; [|discriminate].
    apply (IH t1); [|exact Hrun]. split; [by eapply ss_inv_step|by eapply ss_fmt_step].
Qed.

(** *** Delivery in the socket server *)

Lemma ss_frame_refl i c s : ss_frame i c s s.
Proof. by split. Qed.

Lemma ss_frame_trans i c s1 s2 s3 :
  ss_frame i c s1 s2 -> ss_frame i c s2 s3 -> ss_frame i c s1 s3.
Proof.
  intros [A1 A2] [B1 B2]. split; intros k Hk.
  - by rewrite B1, A1.
  - by rewrite B2, A2.
Qed.

Lemma ss_focus_send i B c b q frame s :
  ss_focus i B c b q (Sending frame) s ->
  exists s', socketServer.run [socketServer.FwdSend i; socketServer.WrPkg true] s = Some s'
    /\ ss_focus i B c b q Select s'
    /\ socketServer.wire s' = socketServer.wire s ++ [frame]
    /\ ss_frame i c s s'.
Proof.
  intros (Hw & Hp & Hpk & (f & Hf & HB & Hc & Ha) & Hch).
  destruct s as [kv ch bb mb u cl m pk ps rd wr st fw cc wi pa].
  cbn in Hw, Hp, Hpk, Hf, Hch. subst wr pa pk.
  cbn [socketServer.run].
  unfold socketServer.step at 1, socketServer.forward_send. ss_proj.
  rewrite Hf, Ha. cbn [send buf chan_closed length Nat.ltb Nat.leb socketServer.pkgsCap app].
  ss_unfold.
  unfold socketServer.step at 1, socketServer.writeConn_pkgs. ss_proj.
  cbn [recv buf chan_closed]. ss_unfold.
  eexists. split; [reflexivity|]. split; [|split; [reflexivity|]].
  - unfold ss_focus. ss_proj. repeat split; try done.
    eexists. rewrite list_lookup_alter_eq, Hf. cbn. done.
  - split; ss_proj; [|done]. intros j Hj. by rewrite list_lookup_alter_ne.
Qed.

Lemma ss_focus_item i B c b x q s :
  ss_focus i B c b (x :: q) Select s ->
  exists s', socketServer.run
               [socketServer.FwdSub i; socketServer.FwdSend i; socketServer.WrPkg true] s
             = Some s'
    /\ ss_focus i B c b q Select s'
    /\ socketServer.wire s' = socketServer.wire s ++ [socketCmdWatch :: B ++ x]
    /\ ss_frame i c s s'.
Proof.
  intros F.
  assert (Hstep : exists s1,
    socketServer.step (socketServer.FwdSub i) s = Some s1
    /\ ss_focus i B c b q (Sending (socketCmdWatch :: B ++ x)) s1
    /\ socketServer.wire s1 = socketServer.wire s /\ ss_frame i c s s1).
  { destruct F as (Hw & Hp & Hpk & (f & Hf & HB & Hc & Ha) & Hch).
    destruct s as [kv ch bb mb u cl m pk ps rd wr st fw cc wi pa].
    cbn in Hw, Hp, Hpk, Hf, Hch. subst wr pa pk.
    unfold socketServer.step, socketServer.forward_sub. ss_proj.
    rewrite Hf, Ha, Hc, Hch. cbn [recv buf chan_closed]. ss_unfold.
    eexists. split; [reflexivity|]. split; [|split; [reflexivity|]].
    - unfold ss_focus. ss_proj. repeat split; try done.
      + eexists. rewrite list_lookup_alter_eq, Hf. cbn. rewrite HB. done.
      + apply list_lookup_insert_eq. by eapply lookup_lt_Some.
    - split; ss_proj.
      + intros j Hj. by rewrite list_lookup_alter_ne.
      + intros c' Hc'. by rewrite list_lookup_insert_ne. }
  destruct Hstep as (s1 & E1 & F1 & W1 & R1).
  destruct (ss_focus_send _ _ _ _ _ _ _ F1) as (s2 & E2 & F2 & W2 & R2).
  exists s2. split.
  { change [socketServer.FwdSub i; socketServer.FwdSend i; socketServer.WrPkg true]
      with ([socketServer.FwdSub i] ++ [socketServer.FwdSend i; socketServer.WrPkg true]).
    rewrite ss_run_app. cbn [socketServer.run]. by rewrite E1. }
  split; [done|]. split; [by rewrite W2, W1|]. by eapply ss_frame_trans.
Qed.

Lemma ss_focus_flush i B c b q : forall s,
  ss_focus i B c b q Select s ->
  exists es s', forallb socketServer.internal es = true
    /\ socketServer.run es s = Some s'
    /\ ss_focus i B c b [] Select s'
    /\ socketServer.wire s'
       = socketServer.wire s ++ ((fun p => socketCmdWatch :: B ++ p) <$> q)
    /\ ss_frame i c s s'.
Proof.
  induction q as [|x q IH]; intros s F.
  - exists [], s. cbn. rewrite app_nil_r. split; [done|]. split; [done|]. split; [done|].
    split; [done|]. apply ss_frame_refl.
  - destruct (ss_focus_item _ _ _ _ _ _ _ F) as (s1 & E1 & F1 & W1 & R1).
    destruct (IH _ F1) as (es & s' & Hint & Hrun & F' & W' & R').
    exists ([socketServer.FwdSub i; socketServer.FwdSend i; socketServer.WrPkg true] ++ es), s'.
    split; [cbn; exact Hint|]. split; [by rewrite ss_run_app, E1|]. split; [done|].
    split; [|by eapply ss_frame_trans].
    rewrite W', W1, <- app_assoc. reflexivity.
Qed.

(** From any place of a forwarder that has not returned. *)
Lemma ss_focus_flush_any i B c b q a s :
  returned a = false -> ss_focus i B c b q a s ->
  exists es s', forallb socketServer.internal es = true
    /\ socketServer.run es s = Some s'
    /\ ss_focus i B c b [] Select s'
    /\ (exists pre, socketServer.wire s'
          = socketServer.wire s ++ pre ++ ((fun p => socketCmdWatch :: B ++ p) <$> q))
    /\ ss_frame i c s s'.
Proof.
  intros Ha F. destruct a as [|frame|]; [| |discriminate].
  - destruct (ss_focus_flush _ _ _ _ _ _ F) as (es & s' & Hint & Hrun & F' & W' & R').
    exists es, s'. repeat (split; [done|]). split; [|done]. by exists [].
  - destruct (ss_focus_send _ _ _ _ _ _ _ F) as (s1 & E1 & F1 & W1 & R1).
    destruct (ss_focus_flush _ _ _ _ _ _ F1) as (es & s' & Hint & Hrun & F' & W' & R').
    exists ([socketServer.FwdSend i; socketServer.WrPkg true] ++ es), s'.
    split; [exact Hint|]. split; [by rewrite ss_run_app, E1|]. split; [done|].
    split; [|by eapply ss_frame_trans].
    exists [frame]. rewrite W', W1, <- app_assoc. reflexivity.
Qed.

(** A publish on the topic of a forwarder that has not returned, and
    whose queue is open and subscribed, reaches the peer. *)
Lemma ss_forwarder_delivers (s : socketServer.state) (i : nat)
    (f : socketServer.forwarder) (ch : chan) (p : bytes) :
  socketServer.writing s = true -> socketServer.panicked s = false ->
  chan_closed (socketServer.pkgs s) = false ->
  socketServer.forwarders s !! i = Some f -> returned (socketServer.at_ f) = false ->
  socketServer.chans s !! socketServer.sub f = Some ch -> chan_closed ch = false ->
  socketServer.sub f ∈ default [] (socketServer.dropBoxPubSub s !! socketServer.hexID f) ->
  is_Some (pubsub.Pub p (socketServer.hexID f) (socketServer.chans s)
             (socketServer.dropBoxPubSub s)) ->
  exists es s', forallb socketServer.internal es = true
    /\ socketServer.run (socketServer.PubPkg p (socketServer.hexID f) :: es) s = Some s'
    /\ exists earlier,
         socketServer.wire s'
         = socketServer.wire s ++ earlier ++ [socketCmdWatch :: socketServer.boxID f ++ p].
Proof.
  intros Hw Hp Hopen Hf Hret Ech Hcl Hin [queues HP].
  unfold pubsub.Pub in HP.
  destruct (deliver_buf _ _ _ _ _ _ HP Ech) as (n & Hq & Hpos). specialize (Hpos Hin).
  set (s1 := socketServer.set_chans queues s).
  assert (E1 : socketServer.step (socketServer.PubPkg p (socketServer.hexID f)) s = Some s1).
  { unfold socketServer.step. rewrite Hp. unfold pubsub.Pub. by rewrite HP. }
  destruct (ss_drain (length (buf (socketServer.pkgs s1))) s1)
    as (s2 & Hrun2 & Hwire2 & Hpk2 & Hch2 & Hfw2 & Hw2 & Hp2); [done|done|reflexivity|].
  assert (F2 : ss_focus i (socketServer.boxID f) (socketServer.sub f) false
                 (buf ch ++ repeat p n) (socketServer.at_ f) s2).
  { unfold ss_focus. rewrite Hpk2, Hch2, Hfw2. subst s1. ss_unfold.
    rewrite Hopen, Hq, Hcl. repeat split; try done. eauto 10. }
  destruct (ss_focus_flush_any _ _ _ _ _ _ _ Hret F2)
    as (es & s' & Hint & Hrun & _ & (pre & Hwire) & _).
  exists (repeat (socketServer.WrPkg true) (length (buf (socketServer.pkgs s1))) ++ es), s'.
  split; [by rewrite forallb_app, internal_WrPkg|].
  split; [cbn [socketServer.run]; by rewrite E1, ss_run_app, Hrun2|].
  destruct n as [|n]; [lia|].
  exists (buf (socketServer.pkgs s) ++ pre
          ++ ((fun x => socketCmdWatch :: socketServer.boxID f ++ x)
              <$> (buf ch ++ repeat p n))).
  rewrite Hwire, Hwire2. subst s1. ss_unfold. rewrite <- !app_assoc. do 3 f_equal.
  replace (repeat p (S n)) with (repeat p n ++ [p]) by (symmetry; apply repeat_cons).
  rewrite app_assoc, fmap_app. reflexivity.
Qed.

(** X21.  In a running socket-server session that watches box
    [B], a package published on the topic of [B] reaches the peer: the
    session's goroutines can run by themselves until the frame
    0x01 || [B] || package is written, after the frames that were due
    before it. *)
Theorem ss_publish_delivered (s : socketServer.state) (B p : bytes) (c : nat) :
  socketServer.reachable s -> socketServer.running s ->
  socketServer.pkgSubs s !! hex.EncodeToString B = Some c ->
  is_Some (pubsub.Pub p (hex.EncodeToString B) (socketServer.chans s)
             (socketServer.dropBoxPubSub s)) ->
  exists es s', forallb socketServer.internal es = true
    /\ socketServer.run (socketServer.PubPkg p (hex.EncodeToString B) :: es) s = Some s'
    /\ exists earlier,
         socketServer.wire s' = socketServer.wire s ++ earlier ++ [socketCmdWatch :: B ++ p].
Proof.
  intros Hreach (Hrd & Hw & Hp & Hopen) Hsub HP.
  pose proof (ss_inv_reachable _ Hreach) as I. pose proof (ss_fmt_reachable _ Hreach) as F.
  destruct (inv_subs s I _ _ Hsub) as (_ & Ho & Hin).
  destruct (inv_alive s I (inv_closed s I Hrd) _ _ Hsub) as (i & f & Hf & Hs & Ha).
  destruct (sfmt_forwarders s F i f Hf) as (_ & Hhex & _).
  pose proof (sfmt_link s F _ _ _ _ Hsub Hf Hs) as Hh.
  assert (HB : socketServer.boxID f = B).
  { apply EncodeToString_inj. by rewrite <- Hhex. }
  unfold open_at in Ho.
  destruct (socketServer.chans s !! c) as [ch|] eqn:Ech; [|discriminate].
  injection Ho as Hcl.
  rewrite <- Hh, <- HB.
  apply (ss_forwarder_delivers s i f ch p); try done.
  - by destruct (socketServer.at_ f).
  - by rewrite Hs.
  - by rewrite Hs, Hh.
  - by rewrite Hh.
Qed.

(** *** Two IGNOREs *)

Lemma ss_reachable_run es s s' :
  socketServer.reachable s -> socketServer.run es s = Some s' -> socketServer.reachable s'.
Proof.
  intros (user & store & queues & boxBus & msgBus & es0 & Hrun0) Hrun.
  exists user, store, queues, boxBus, msgBus, (es0 ++ es).
  by rewrite ss_run_app, Hrun0.
Qed.

Lemma ss_ignoreBox_other (s : socketServer.state) (B : bytes) (c : nat) :
  socketServer.pkgSubs s !! hex.EncodeToString B = Some c ->
  let s1 := socketServer.ignoreBox B s in
  socketServer.reading s1 = socketServer.reading s
  /\ (forall h, h <> hex.EncodeToString B ->
        socketServer.pkgSubs s1 !! h = socketServer.pkgSubs s !! h)
  /\ (forall c', c' <> c -> socketServer.chans s1 !! c' = socketServer.chans s !! c').
Proof.
  intros Hsub. cbn zeta. unfold socketServer.ignoreBox. rewrite Hsub.
  unfold pubsub.Unsub. case_bool_decide; ss_proj.
  - split; [done|]. split; [intros h Hh; by rewrite lookup_delete_ne|].
    intros c' Hc'. by rewrite list_lookup_alter_ne.
  - split; [done|]. split; [intros h Hh; by rewrite lookup_delete_ne|done].
Qed.

Lemma ss_step_ignore (s : socketServer.state) (B : bytes) (kv_ok : bool) :
  socketServer.reading s = true -> socketServer.panicked s = false ->
  socketServer.step (socketServer.Read (ReadMsg true (socketCmdIgnore :: B)) kv_ok) s
  = Some (socketServer.ignoreBox B s).
Proof.
  intros Hr Hp. unfold socketServer.step. rewrite Hp, Hr. cbn [socketServer.readConn].
  rewrite !bool_decide_eq_false_2 by discriminate.
  rewrite bool_decide_eq_true_2 by reflexivity. reflexivity.
Qed.

(** A forwarder that has not returned panics within two moves once the
    package channel and its own queue are closed. *)
Lemma ss_second_close (s : socketServer.state) (i : nat) (f : socketServer.forwarder)
    (ch : chan) :
  socketServer.panicked s = false ->
  chan_closed (socketServer.pkgs s) = true ->
  socketServer.forwarders s !! i = Some f ->
  returned (socketServer.at_ f) = false ->
  socketServer.chans s !! socketServer.sub f = Some ch -> chan_closed ch = true ->
  exists es s', forallb socketServer.internal es = true
    /\ socketServer.run es s = Some s' /\ socketServer.panicked s' = true.
Proof.
  intros Hp Hpc Hf Hlive Hch Hcl.
  assert (Hsend : forall t frame,
    socketServer.panicked t = false -> chan_closed (socketServer.pkgs t) = true ->
    (exists f0, socketServer.forwarders t !! i = Some f0
                /\ socketServer.at_ f0 = Sending frame) ->
    socketServer.step (socketServer.FwdSend i) t = Some (socketServer.set_panicked true t)).
  { intros t frame Hpt Hct (f0 & Hf0 & Ha0). unfold socketServer.step. rewrite Hpt.
    unfold socketServer.forward_send. rewrite Hf0, Ha0. unfold send. by rewrite Hct. }
  destruct (socketServer.at_ f) as [|frame|] eqn:Ea; [| |discriminate].
  - destruct ch as [[|x rest] b]; cbn in Hcl; subst b.
    + exists [socketServer.FwdSub i], (socketServer.set_panicked true s).
      split; [reflexivity|]. split; [|reflexivity].
      cbn [socketServer.run]. unfold socketServer.step. rewrite Hp.
      unfold socketServer.forward_sub. rewrite Hf, Ea, Hch. cbn [recv buf chan_closed].
      unfold close. by rewrite Hpc.
    + eexists [socketServer.FwdSub i; socketServer.FwdSend i], _.
      split; [reflexivity|]. split.
      * cbn [socketServer.run]. unfold socketServer.step at 1. rewrite Hp.
        unfold socketServer.forward_sub. rewrite Hf, Ea, Hch. cbn [recv buf chan_closed].
        erewrite Hsend; [reflexivity|ss_unfold; done|ss_unfold; done|].
        ss_unfold. eexists. rewrite list_lookup_alter_eq, Hf. cbn. done.
      * reflexivity.
  - exists [socketServer.FwdSend i], (socketServer.set_panicked true s).
    split; [reflexivity|]. split; [|reflexivity].
    cbn [socketServer.run]. erewrite Hsend; eauto.
Qed.

(** X22.  In a socket-server session every forwarding goroutine
    that finds its queue closed closes [ss.pkgs].  So when the client
    ignores two boxes it watches, the process can panic: the forwarder of
    the first box closes the channel, and the forwarder of the second box
    closes it again or sends on it. *)
Theorem ss_two_ignores_panic (s : socketServer.state) (B1 B2 : bytes) (c1 c2 : nat)
    (kv_ok : bool) :
  socketServer.reachable s -> socketServer.running s -> B1 <> B2 ->
  socketServer.pkgSubs s !! hex.EncodeToString B1 = Some c1 ->
  socketServer.pkgSubs s !! hex.EncodeToString B2 = Some c2 ->
  exists es s', forallb socketServer.internal es = true
    /\ socketServer.run
         (socketServer.Read (ReadMsg true (socketCmdIgnore :: B1)) kv_ok
          :: socketServer.Read (ReadMsg true (socketCmdIgnore :: B2)) kv_ok :: es) s
       = Some s'
    /\ socketServer.panicked s' = true.
Proof.
  intros Hreach (Hrd & Hw & Hp & Hopen) HB Hsub1 Hsub2.
  pose proof (ss_inv_reachable _ Hreach) as I.
  assert (Hh : hex.EncodeToString B2 <> hex.EncodeToString B1).
  { intros Heq. apply HB. symmetry. by apply EncodeToString_inj. }
  assert (Hc : c2 <> c1).
  { intros ->. apply Hh. by eapply (inv_inj s I). }
  pose proof (inv_closed s I Hrd) as Hcl.
  destruct (inv_alive s I Hcl _ _ Hsub1) as (i1 & f1 & Hf1 & Hs1 & Ha1).
  destruct (inv_alive s I Hcl _ _ Hsub2) as (i2 & f2 & Hf2 & Hs2 & Ha2).
  assert (Hi : i2 <> i1) by (intros ->; congruence).
  (* the first IGNORE *)
  destruct (inv_subs s I _ _ Hsub1) as (_ & Ho1 & Hin1). unfold open_at in Ho1.
  destruct (socketServer.chans s !! c1) as [ch1|] eqn:Ech1; [|discriminate].
  destruct (ss_ignoreBox_watched s B1 c1 ch1 Hsub1 Hin1 Ech1)
    as (_ & _ & A3 & A4 & A5 & A6 & A7 & _).
  destruct (ss_ignoreBox_other s B1 c1 Hsub1) as (A8 & A9 & A10).
  pose proof (ss_step_ignore s B1 kv_ok Hrd Hp) as E1.
  set (s1 := socketServer.ignoreBox B1 s) in *.
  assert (Hreach1 : socketServer.reachable s1).
  { eapply (ss_reachable_run [_]); [exact Hreach|]. cbn [socketServer.run]. by rewrite E1. }
  pose proof (ss_inv_reachable _ Hreach1) as I1.
  (* the second IGNORE *)
  assert (Hsub2' : socketServer.pkgSubs s1 !! hex.EncodeToString B2 = Some c2)
    by (by rewrite A9).
  destruct (inv_subs s1 I1 _ _ Hsub2') as (_ & Ho2 & Hin2). unfold open_at in Ho2.
  destruct (socketServer.chans s1 !! c2) as [ch2|] eqn:Ech2; [|discriminate].
  destruct (ss_ignoreBox_watched s1 B2 c2 ch2 Hsub2' Hin2 Ech2)
    as (_ & _ & B3 & B4 & B5 & B6 & B7 & _).
  destruct (ss_ignoreBox_other s1 B2 c2 Hsub2') as (B8 & _ & B10).
  assert (E2 : socketServer.step
                 (socketServer.Read (ReadMsg true (socketCmdIgnore :: B2)) kv_ok) s1
               = Some (socketServer.ignoreBox B2 s1)).
  { apply ss_step_ignore; congruence. }
  set (s2 := socketServer.ignoreBox B2 s1) in *.
  (* the writer empties ss.pkgs *)
  destruct (ss_drain (length (buf (socketServer.pkgs s2))) s2)
    as (s3 & Hrun3 & _ & Hpk3 & Hch3 & Hfw3 & Hw3 & Hp3);
    [congruence|congruence|reflexivity|].
  (* the forwarder of the first box drains its queue *)
  assert (F3 : ss_focus i1 (socketServer.boxID f1) c1 true (buf ch1) (socketServer.at_ f1) s3).
  { unfold ss_focus. rewrite Hpk3, Hch3, Hfw3, B4, A4, B5, A5, Hopen.
    rewrite (B10 c1) by done. rewrite A3. repeat split; try done. eauto 10. }
  assert (Hret1 : returned (socketServer.at_ f1) = false)
    by (by destruct (socketServer.at_ f1)).
  destruct (ss_focus_flush_any _ _ _ _ _ _ _ Hret1 F3)
    as (es4 & s4 & Hint4 & Hrun4 & F4 & _ & [R4f R4c]).
  destruct F4 as (Hw4 & Hp4 & Hpk4 & (g1 & Hg1 & _ & Hgs & Hga) & Hch4).
  (* and closes ss.pkgs *)
  set (s5 := socketServer.set_at i1 Exited
               (socketServer.set_pkgs {| buf := []; chan_closed := true |} s4)).
  assert (E5 : socketServer.step (socketServer.FwdSub i1) s4 = Some s5).
  { unfold socketServer.step. rewrite Hp4. unfold socketServer.forward_sub.
    rewrite Hg1, Hga, Hgs, Hch4. cbn [recv buf chan_closed]. by rewrite Hpk4. }
  (* the forwarder of the second box meets the closed channel *)
  destruct (ss_second_close s5 i2 f2 {| buf := buf ch2; chan_closed := true |})
    as (es6 & s6 & Hint6 & Hrun6 & Hp6).
  - subst s5. ss_unfold. done.
  - subst s5. ss_unfold. done.
  - subst s5. ss_unfold. rewrite list_lookup_alter_ne by done.
    rewrite R4f, Hfw3, B4, A4 by done. done.
  - by destruct (socketServer.at_ f2).
  - subst s5. ss_unfold. rewrite Hs2, R4c, Hch3 by done. exact B3.
  - reflexivity.
  - exists (repeat (socketServer.WrPkg true) (length (buf (socketServer.pkgs s2)))
            ++ es4 ++ [socketServer.FwdSub i1] ++ es6), s6.
    split; [by rewrite !forallb_app, internal_WrPkg, Hint4, Hint6|].
    split; [|exact Hp6].
    cbn [socketServer.run]. rewrite E1, E2, ss_run_app, Hrun3, ss_run_app, Hrun4.
    rewrite ss_run_app. cbn [socketServer.run]. by rewrite E5.
Qed.

(** X23.  A WATCH whose pick-up from the store fails (the error
    is logged) still subscribes the session: the box is entered in
    [ss.pkgSubs] with a new, empty queue that is registered on the bus,
    nothing is queued for the writer, and a package published on the box
    afterwards is written to the peer. *)
Theorem ss_watch_store_error (s : socketServer.state) (B p : bytes) :
  socketServer.running s -> length B = dropBoxIDSize ->
  socketServer.pkgSubs s !! hex.EncodeToString B = None ->
  let c := length (socketServer.chans s) in
  exists s1,
    socketServer.step (socketServer.Read (ReadMsg true (socketCmdWatch :: B)) false) s
    = Some s1
    /\ socketServer.pkgSubs s1 !! hex.EncodeToString B = Some c
    /\ c ∈ default [] (socketServer.dropBoxPubSub s1 !! hex.EncodeToString B)
    /\ socketServer.chans s1 = socketServer.chans s ++ [make]
    /\ socketServer.pkgs s1 = socketServer.pkgs s
    /\ socketServer.wire s1 = socketServer.wire s
    /\ (is_Some (pubsub.Pub p (hex.EncodeToString B) (socketServer.chans s1)
                   (socketServer.dropBoxPubSub s1)) ->
        exists es s', forallb socketServer.internal es = true
          /\ socketServer.run (socketServer.PubPkg p (hex.EncodeToString B) :: es) s1
             = Some s'
          /\ exists earlier,
               socketServer.wire s'
               = socketServer.wire s ++ earlier ++ [socketCmdWatch :: B ++ p]).
Proof.
  intros (Hrd & Hw & Hp & Hopen) HL Hsub. cbn zeta.
  eexists. split.
  { unfold socketServer.step. rewrite Hp, Hrd. cbn [socketServer.readConn].
    rewrite bool_decide_eq_false_2 by discriminate.
    rewrite bool_decide_eq_true_2 by reflexivity.
    unfold socketServer.watchBox. rewrite HL, Nat.eqb_refl. cbn [negb]. rewrite Hsub.
    unfold pubsub.Sub, socketServer.PickUpPackage. cbn [length Nat.ltb Nat.leb].
    reflexivity. }
  ss_proj. split; [apply lookup_insert_eq|].
  split; [rewrite lookup_insert_eq; cbn -[app]; apply elem_of_app; right; by left|].
  split; [done|]. split; [done|]. split; [done|].
  intros HP.
  match goal with |- context [socketServer.run _ ?t] => set (s1 := t) in * end.
  apply (ss_forwarder_delivers s1 (length (socketServer.forwarders s))
           {| socketServer.hexID := hex.EncodeToString B; socketServer.boxID := B;
              socketServer.sub := length (socketServer.chans s);
              socketServer.at_ := Select |} make p); subst s1; ss_proj; try done.
  - rewrite lookup_app_r by lia. by rewrite Nat.sub_diag.
  - rewrite lookup_app_r by lia. by rewrite Nat.sub_diag.
  - rewrite lookup_insert_eq. cbn -[app]. apply elem_of_app. right. by left.
Qed.

(** *** User messages *)

Lemma ss_drain_messages (n : nat) : forall s ch,
  socketServer.writing s = true -> socketServer.panicked s = false ->
  socketServer.chans s !! socketServer.messages s = Some ch ->
  length (buf ch) = n ->
  exists s', socketServer.run (repeat (socketServer.WrMsg true) n) s = Some s'
    /\ socketServer.wire s' = socketServer.wire s ++ buf ch.
Proof.
  induction n as [|n IH]; intros s ch Hw Hp Hch Hlen.
  - exists s. destruct ch as [[|? ?] ?]; [|discriminate]. cbn. by rewrite app_nil_r.
  - destruct ch as [[|x q] b]; [discriminate|]. cbn in Hlen. injection Hlen as Hlen.
    cbn [repeat socketServer.run]. unfold socketServer.step. rewrite Hp, Hw.
    unfold socketServer.writeConn_messages. rewrite Hch. cbn [recv buf chan_closed].
    cbn [socketServer.write_or_return].
    match goal with |- context [socketServer.run _ ?t] => set (s1 := t) end.
    destruct (IH s1 {| buf := q; chan_closed := b |}) as (s' & Hrun & Hwire).
    + subst s1. ss_unfold. exact Hw.
    + subst s1. ss_unfold. exact Hp.
    + subst s1. ss_unfold. apply list_lookup_insert_eq. by eapply lookup_lt_Some.
    + exact Hlen.
    + exists s'. split; [exact Hrun|]. rewrite Hwire. subst s1. ss_unfold.
      by rewrite <- app_assoc.
Qed.

(** X24.  A socket-server session is subscribed to the messages
    of its user from [start] on, and the writer passes them on as they
    are: a message published for the user is written to the peer, without
    framing, after the messages queued before it. *)
Theorem ss_message_delivered (s : socketServer.state) (msg : bytes) :
  socketServer.reachable s ->
  socketServer.writing s = true -> socketServer.panicked s = false ->
  is_Some (pubsub.Pub msg (socketServer.userID s) (socketServer.chans s)
             (socketServer.messagesPubSub s)) ->
  exists n s' earlier,
    socketServer.run
      (socketServer.PubMsg msg (socketServer.userID s)
       :: repeat (socketServer.WrMsg true) n) s = Some s'
    /\ socketServer.wire s' = socketServer.wire s ++ earlier ++ [msg].
Proof.
  intros Hreach Hw Hp [queues HP].
  pose proof (ss_inv_reachable _ Hreach) as I.
  pose proof (inv_messages_open s I) as Ho. pose proof (inv_messages_sub s I) as Hin.
  unfold open_at in Ho.
  destruct (socketServer.chans s !! socketServer.messages s) as [ch|] eqn:Ech;
    [|discriminate].
  unfold pubsub.Pub in HP.
  destruct (deliver_buf _ _ _ _ _ _ HP Ech) as (k & Hq & Hpos). specialize (Hpos Hin).
  set (s1 := socketServer.set_chans queues s).
  assert (E1 : socketServer.step (socketServer.PubMsg msg (socketServer.userID s)) s
               = Some s1).
  { unfold socketServer.step. rewrite Hp. unfold pubsub.Pub. by rewrite HP. }
  destruct (ss_drain_messages (length (buf ch ++ repeat msg k)) s1
              {| buf := buf ch ++ repeat msg k; chan_closed := chan_closed ch |})
    as (s' & Hrun & Hwire); [done|done|exact Hq|reflexivity|].
  destruct k as [|k]; [lia|].
  exists (length (buf ch ++ repeat msg (S k))), s', (buf ch ++ repeat msg k).
  split; [cbn [socketServer.run]; by rewrite E1|].
  rewrite Hwire. cbn [buf]. subst s1. ss_unfold.
  replace (repeat msg (S k)) with (repeat msg k ++ [msg]) by (symmetry; apply repeat_cons).
  by rewrite !app_assoc.
Qed.

(** *** After the connection closed *)

Lemma ss_open_step e s s' :
  ss_inv s -> socketServer.conn_closed s = false ->
  socketServer.step e s = Some s' -> socketServer.conn_closed s' = false.
Proof.
  intros I Hc. unfold socketServer.step.
  destruct (socketServer.panicked s); [discriminate|].
  destruct e as [r k|i|i|i|ok|ok| | |item t|item u|b p].
  - destruct (socketServer.reading s); [|discriminate]. intros [= <-].
    unfold socketServer.readConn, socketServer.watchBox, socketServer.ignoreBox.
    repeat case_match; ss_unfold; done.
  - unfold socketServer.forward_closed. repeat case_match; intros [= <-]; ss_unfold; done.
  - unfold socketServer.forward_sub. repeat case_match; intros [= <-]; ss_unfold; done.
  - unfold socketServer.forward_send. repeat case_match; intros [= <-]; ss_unfold; done.
  - destruct (socketServer.writing s); [|discriminate].
    unfold socketServer.writeConn_messages.
    repeat case_match; intros [= <-]; ss_unfold; repeat case_match; done.
  - destruct (socketServer.writing s); [|discriminate].
    unfold socketServer.writeConn_pkgs.
    repeat case_match; intros [= <-]; ss_unfold; repeat case_match; done.
  - destruct (socketServer.writing s); [|discriminate].
    unfold socketServer.writeConn_closed.
    repeat case_match; intros [= <-]; ss_unfold; done.
  - rewrite (inv_stopping s I). discriminate.
  - destruct (pubsub.Pub _ _ _ _); intros [= <-]. ss_unfold; done.
  - destruct (pubsub.Pub _ _ _ _); intros [= <-]. ss_unfold; done.
  - intros [= <-]. ss_unfold; done.
Qed.

Lemma ss_frozen_step e s s' :
  socketServer.reading s = false -> socketServer.step e s = Some s' ->
  socketServer.reading s' = false /\ socketServer.pkgSubs s' = socketServer.pkgSubs s.
Proof.
  intros Hr. unfold socketServer.step.
  destruct (socketServer.panicked s); [discriminate|].
  destruct e as [r k|i|i|i|ok|ok| | |item t|item u|b p]; rewrite ?Hr; try discriminate.
  - unfold socketServer.forward_closed. repeat case_match; intros [= <-]; ss_unfold; done.
  - unfold socketServer.forward_sub. repeat case_match; intros [= <-]; ss_unfold; done.
  - unfold socketServer.forward_send. repeat case_match; intros [= <-]; ss_unfold; done.
  - destruct (socketServer.writing s); [|discriminate].
    unfold socketServer.writeConn_messages.
    repeat case_match; intros [= <-]; ss_unfold; repeat case_match; done.
  - destruct (socketServer.writing s); [|discriminate].
    unfold socketServer.writeConn_pkgs.
    repeat case_match; intros [= <-]; ss_unfold; repeat case_match; done.
  - destruct (socketServer.writing s); [|discriminate].
    unfold socketServer.writeConn_closed.
    repeat case_match; intros [= <-]; ss_unfold; done.
  - destruct (_ && _); [|discriminate]. intros [= <-]. unfold socketServer.stop.
    repeat case_match; ss_proj; done.
  - destruct (pubsub.Pub _ _ _ _); intros [= <-]. ss_unfold; done.
  - destruct (pubsub.Pub _ _ _ _); intros [= <-]. ss_unfold; done.
  - intros [= <-]. ss_unfold; done.
Qed.

(** X25.  Once the reader of a socket-server session has returned,
    nothing releases what the session holds, whatever happens next: the
    subscription table stays as it is, every box subscription in it and
    the message subscription stay registered on the bus with an open
    queue (so that publishers keep filling them), and the connection is
    never closed by the server.  No goroutine runs [stop]. *)
Theorem ss_never_releases (s s' : socketServer.state) (es : list socketServer.event) :
  socketServer.reachable s -> socketServer.closed s = true ->
  socketServer.run es s = Some s' ->
  socketServer.pkgSubs s' = socketServer.pkgSubs s
  /\ (forall h c, socketServer.pkgSubs s !! h = Some c ->
        c ∈ default [] (socketServer.dropBoxPubSub s' !! h)
        /\ open_at (socketServer.chans s') c)
  /\ socketServer.messages s'
       ∈ default [] (socketServer.messagesPubSub s' !! socketServer.userID s')
  /\ open_at (socketServer.chans s') (socketServer.messages s')
  /\ socketServer.stopping s' = false
  /\ socketServer.conn_closed s' = false.
Proof.
  intros Hreach Hcl Hrun.
  pose proof (ss_inv_reachable _ Hreach) as I.
  assert (Hrd : socketServer.reading s = false).
  { destruct (socketServer.reading s) eqn:E; [|done].
    pose proof (inv_closed s I E). congruence. }
  assert (Hcc : socketServer.conn_closed s = false).
  { destruct Hreach as (user & store & queues & boxBus & msgBus & es0 & Hrun0).
    clear -Hrun0.
    assert (H : ss_inv s /\ socketServer.conn_closed s = false); [|tauto].
    revert Hrun0. generalize (socketServer.start user store queues boxBus msgBus)
      (conj (ss_inv_start user store queues boxBus msgBus)
            (eq_refl : socketServer.conn_closed
                         (socketServer.start user store queues boxBus msgBus) = false)).
    induction es0 as [|e es0 IH]; intros t [I C] Hrun.
    - cbn in Hrun. by injection Hrun as <-.
    - cbn in Hrun. destruct (socketServer.step e t) as [t1|] eqn:E; [|discriminate].
      apply (IH t1); [|exact Hrun].
      split; [by eapply ss_inv_step|by eapply ss_open_step]. }
  assert (H : ss_inv s' /\ socketServer.conn_closed s' = false
              /\ socketServer.reading s' = false
              /\ socketServer.pkgSubs s' = socketServer.pkgSubs s).
  { revert Hrun. generalize (eq_refl (socketServer.pkgSubs s)).
    generalize (socketServer.pkgSubs s) at 1 3. intros ps.
    revert I Hcc Hrd. clear. revert s.
    induction es as [|e es IH]; intros s I Hcc Hrd Hps Hrun.
    - cbn in Hrun. injection Hrun as <-. auto.
    - cbn in Hrun. destruct (socketServer.step e s) as [s1|] eqn:E; [|discriminate].
      destruct (ss_frozen_step _ _ _ Hrd E) as [Hrd1 Hps1].
      apply (IH s1); [by eapply ss_inv_step|by eapply ss_open_step|done|congruence|done]. }
  destruct H as (I' & Hcc' & _ & Hps).
  split; [done|]. split.
  { intros h c Hl. rewrite <- Hps in Hl. destruct (inv_subs s' I' _ _ Hl) as (_ & ? & ?).
    auto. }
  split; [apply (inv_messages_sub s' I')|]. split; [apply (inv_messages_open s' I')|].
  split; [apply (inv_stopping s' I')|done].
Qed.

Lemma bus_wf_empty : bus_wf [] ∅.
Proof.
  intros t c Hc. rewrite lookup_empty in Hc. by apply elem_of_nil in Hc.
Qed.

Lemma pl_reachable_trace es s :
  packageListener.run es (packageListener.session server1) = Some s -> pl_reachable s.
Proof.
  intros Hrun. exists server1, [], ∅, es. split; [apply bus_wf_empty|exact Hrun].
Qed.

Lemma ss_reachable_trace es s :
  socketServer.run es (socketServer.session 7 store0) = Some s -> socketServer.reachable s.
Proof.
  intros Hrun. by exists 7, store0, [], ∅, ∅, es.
Qed.

Lemma pl_never_panics_witness :
  packageListener.panicked pl_closed0 = false
  /\ packageListener.waitGroup pl_closed0 = 0%nat.
Proof.
  destruct (pl_never_panics pl_closed0) as (H1 & H2 & _).
  - apply (pl_reachable_trace pl_close_trace). vm_compute. reflexivity.
  - split; [exact H1|]. rewrite H2. vm_compute. reflexivity.
Defined.

Lemma pl_stop_releases_witness :
  packageListener.pkgs_closed pl_closed0 = true
  /\ packageListener.conn_closed pl_closed0 = true.
Proof.
  destruct (pl_stop_releases pl_closed0) as (H1 & H2 & _).
  - apply (pl_reachable_trace pl_close_trace). vm_compute. reflexivity.
  - vm_compute. reflexivity.
  - split; [exact H1|exact H2].
Defined.

Lemma pl_wire_format_witness :
  exists B p, clientCmdWatch :: box0 ++ [x58] = clientCmdWatch :: B ++ p
    /\ length B = dropBoxIDSize.
Proof.
  destruct (pl_wire_format pl_watching0 (clientCmdWatch :: box0 ++ [x58]))
    as (B & p & H1 & H2 & _).
  - apply (pl_reachable_trace pl_watch_trace). vm_compute. reflexivity.
  - vm_compute. left.
  - exists B, p. split; [exact H1|exact H2].
Defined.

Lemma pl_write_error_strands_witness :
  packageListener.stopping
    (default pl_stranded0
       (packageListener.run [packageListener.Read ReadErr; packageListener.StopWake]
          pl_stranded0))
  <> packageListener.StopDone.
Proof.
  refine (proj1 (proj2 (proj2
    (pl_write_error_strands pl_stranded0 _ 0
       {| packageListener.topic := hexbox0; packageListener.boxID := box0;
          packageListener.sub := 0; packageListener.at_ := Sending (x01 :: box0 ++ [x41]) |}
       (x01 :: box0 ++ [x41])
       [packageListener.Read ReadErr; packageListener.StopWake] _ _ _ _ _)))).
  - apply (pl_reachable_trace pl_strand_trace). vm_compute. reflexivity.
  - vm_compute. reflexivity.
  - vm_compute. reflexivity.
  - reflexivity.
  - vm_compute. reflexivity.
Defined.

Lemma pl_close_cleans_up_witness :
  exists es s', forallb pl_winding_down es = true
    /\ packageListener.run es pl_hungup0 = Some s'
    /\ packageListener.stopping s' = packageListener.StopDone.
Proof.
  destruct (pl_close_cleans_up pl_hungup0) as (es & s' & H1 & H2 & H3 & _).
  - apply (pl_reachable_trace pl_hangup_trace). vm_compute. reflexivity.
  - vm_compute. reflexivity.
  - vm_compute. reflexivity.
  - exists es, s'. split; [exact H1|]. split; [exact H2|exact H3].
Defined.

Lemma pl_publish_delivered_witness :
  exists es s', forallb packageListener.internal es = true
    /\ packageListener.run (packageListener.PubPkg [x41] (hex.EncodeToString box0) :: es)
         pl_watching0 = Some s'
    /\ exists earlier,
         packageListener.wire s'
         = packageListener.wire pl_watching0 ++ earlier ++ [x01 :: box0 ++ [x41]].
Proof.
  apply (pl_publish_delivered pl_watching0 box0 [x41]
           {| packageListener.sr_sub := 0; packageListener.sr_closed := false |}).
  - apply (pl_reachable_trace pl_watch_trace). vm_compute. reflexivity.
  - vm_compute. repeat split; reflexivity.
  - vm_compute. reflexivity.
  - vm_compute. eexists. reflexivity.
Defined.

Lemma pl_ignore_keeps_delivering_witness :
  exists s1,
    packageListener.step (packageListener.Read (ReadMsg true (clientCmdIgnore :: box0)))
      pl_watching0 = Some s1
    /\ packageListener.subs s1 !! hex.EncodeToString box0 = None
    /\ exists es s', forallb packageListener.internal es = true
         /\ packageListener.run (packageListener.PubPkg [x41] (hex.EncodeToString box0) :: es)
              s1 = Some s'
         /\ exists earlier,
              packageListener.wire s'
              = packageListener.wire pl_watching0 ++ earlier ++ [x01 :: box0 ++ [x41]].
Proof.
  destruct (pl_ignore_keeps_delivering pl_watching0 box0 [x41]
              {| packageListener.sr_sub := 0; packageListener.sr_closed := false |})
    as (s1 & H1 & H2 & _ & H3).
  - apply (pl_reachable_trace pl_watch_trace). vm_compute. reflexivity.
  - vm_compute. repeat split; reflexivity.
  - reflexivity.
  - vm_compute. reflexivity.
  - vm_compute. eexists. reflexivity.
  - exists s1. split; [exact H1|]. split; [exact H2|exact H3].
Defined.

Lemma put_reaches_watcher_witness :
  exists s1,
    pl_PUT (hex.EncodeToString box0) (Some [x41]) true pl_watching0 = Some (Success, s1)
    /\ dropboxes (packageListener.srv s1) !! box0 = Some [x41]
    /\ exists es s', forallb packageListener.internal es = true
         /\ packageListener.run es s1 = Some s'
         /\ exists earlier,
              packageListener.wire s'
              = packageListener.wire pl_watching0 ++ earlier ++ [x01 :: box0 ++ [x41]].
Proof.
  apply (put_reaches_watcher pl_watching0 box0 [x41]
           {| packageListener.sr_sub := 0; packageListener.sr_closed := false |}).
  - apply (pl_reachable_trace pl_watch_trace). vm_compute. reflexivity.
  - vm_compute. repeat split; reflexivity.
  - vm_compute. reflexivity.
  - vm_compute. discriminate.
  - vm_compute. eexists. reflexivity.
Defined.

Lemma ss_publish_delivered_witness :
  exists es s', forallb socketServer.internal es = true
    /\ socketServer.run (socketServer.PubPkg [x41] (hex.EncodeToString box0) :: es)
         watching0 = Some s'
    /\ exists earlier,
         socketServer.wire s'
         = socketServer.wire watching0 ++ earlier ++ [socketCmdWatch :: box0 ++ [x41]].
Proof.
  apply (ss_publish_delivered watching0 box0 [x41] 1).
  - apply (ss_reachable_trace
             [socketServer.Read (ReadMsg true (socketCmdWatch :: box0)) true;
              socketServer.FwdSub 0; socketServer.FwdSend 0; socketServer.WrPkg true]).
    vm_compute. reflexivity.
  - vm_compute. repeat split; reflexivity.
  - vm_compute. reflexivity.
  - vm_compute. eexists. reflexivity.
Defined.

Lemma ss_two_ignores_panic_witness :
  exists es s', forallb socketServer.internal es = true
    /\ socketServer.run
         (socketServer.Read (ReadMsg true (socketCmdIgnore :: box0)) true
          :: socketServer.Read (ReadMsg true (socketCmdIgnore :: box1)) true :: es)
         ss_watching2 = Some s'
    /\ socketServer.panicked s' = true.
Proof.
  apply (ss_two_ignores_panic ss_watching2 box0 box1 1 2 true).
  - apply (ss_reachable_trace ss_watch2_trace). vm_compute. reflexivity.
  - vm_compute. repeat split; reflexivity.
  - discriminate.
  - vm_compute. reflexivity.
  - vm_compute. reflexivity.
Defined.

Lemma ss_watch_store_error_witness :
  exists s1,
    socketServer.step (socketServer.Read (ReadMsg true (socketCmdWatch :: box0)) false)
      (socketServer.session 7 store0) = Some s1
    /\ socketServer.pkgSubs s1 !! hex.EncodeToString box0 = Some 1%nat
    /\ socketServer.wire s1 = [].
Proof.
  destruct (ss_watch_store_error (socketServer.session 7 store0) box0 [x41])
    as (s1 & H1 & H2 & _ & _ & _ & H3 & _).
  - vm_compute. repeat split; reflexivity.
  - reflexivity.
  - vm_compute. reflexivity.
  - exists s1. split; [exact H1|]. split; [exact H2|exact H3].
Defined.

Lemma ss_message_delivered_witness :
  exists n s' earlier,
    socketServer.run
      (socketServer.PubMsg [x68; x69] 7 :: repeat (socketServer.WrMsg true) n)
      watching0 = Some s'
    /\ socketServer.wire s' = socketServer.wire watching0 ++ earlier ++ [[x68; x69]].
Proof.
  apply (ss_message_delivered watching0 [x68; x69]).
  - apply (ss_reachable_trace
             [socketServer.Read (ReadMsg true (socketCmdWatch :: box0)) true;
              socketServer.FwdSub 0; socketServer.FwdSend 0; socketServer.WrPkg true]).
    vm_compute. reflexivity.
  - vm_compute. reflexivity.
  - vm_compute. reflexivity.
  - vm_compute. eexists. reflexivity.
Defined.

Lemma ss_never_releases_witness :
  socketServer.conn_closed
    (default ss_closed0
       (socketServer.run [socketServer.PubPkg [x41] hexbox0] ss_closed0)) = false.
Proof.
  refine (proj2 (proj2 (proj2 (proj2 (proj2
    (ss_never_releases ss_closed0 _ [socketServer.PubPkg [x41] hexbox0] _ _ _)))))).
  - apply (ss_reachable_trace ss_close_trace). vm_compute. reflexivity.
  - vm_compute. reflexivity.
  - vm_compute. reflexivity.
Defined.
